(** * NuVision News: the content analytics core, embedded and verified

    A shallow embedding of the algorithmic core of the repository:

    - [src/lib/queryParser.ts]  : [detectAmbiguity], [generateResponse],
      [extractCategories], and the rest of the parser: [parseQuery] with
      its extractors, [applyFilters], [getAmbiguityPrompt],
      [generateEnhancedResponse];
    - [src/lib/clustering.ts]   : [fastCluster] / [clusterArticles],
      [getClusterById];
    - the topic discovery module ([discoverTopics], [analyzeTopicTrends],
      [getEmergingTopics], [getTopicsByCategory], [findRelatedTopics]);
    - [src/lib/contextLensFilter.ts] and [src/lib/contextLensEnhanced.ts]:
      [applyContextLens], [applyContextLensEnhanced];
    - [src/lib/smartDeepDive.ts] : [assignSmartDeepDive];
    - [src/lib/aiService.ts]     : [keywordBasedClassification];
    - [articles.ts]              : the sentiment labels, [getHeadline],
      [getSummary];
    - [src/lib/apiKeyManager.ts] : the stored API keys.

    Conventions of the embedding.

    - JavaScript strings are modelled as [string] (sequences of bytes); the
      case and character-class functions are the ASCII ones, so the model
      covers ASCII text (bytes above 127 are neither letters, word characters
      nor white space).  A string holds the UTF-8 bytes of the text; the
      [length] by which [extractKeywords] filters words and the beginner
      lens orders contents is counted in UTF-16 code units
      ([JSString.utf16_length]).
    - JavaScript numbers that go through fractional arithmetic (the
      confidence of a query, the similarity of two documents, the percentage
      change of a topic) are binary64 values: they are
      modelled by Rocq's primitive floats, which are the same IEEE 754
      binary64 numbers.  Facts about them are obtained by evaluation where
      the reachable values are finitely many, and from the specification
      of the binary64 operations ([FloatAxioms]) otherwise.
    - Array lengths, indices and counts are [nat]; article ids and time
      stamps are [Z].
    - [extractKeywords] of [tfidfAnalysis], which [discoverTopics] calls, is
      a parameter of the topic module: what is proved of topic discovery
      holds for every extractor.
    - A JavaScript [Set] or [Map] iterates in insertion order: they are
      modelled by duplicate-free lists and association lists kept in
      insertion order, except the [processed] id set of the clustering pass,
      which is only tested for membership and is a [gset Z]. *)

From Stdlib Require Import ZArith QArith.
From Stdlib Require Import Floats.PrimFloat Floats.FloatOps Floats.SpecFloat Floats.FloatAxioms.
From Stdlib Require Import Numbers.Cyclic.Int63.Uint63.
From Stdlib Require Import Strings.Ascii Strings.String Numbers.DecimalString Numbers.DecimalZ.
From Stdlib Require Import Sorting.Sorted.
From stdpp Require Import base decidable option list gmap strings.

Set Warnings "-inexact-float,-clear-no-such-hyp".
Local Open Scope string_scope.
Local Open Scope list_scope.

(* ===================================================================== *)
(** * Part I. The program                                                  *)
(* ===================================================================== *)

(** ** JavaScript built-ins used by the sources *)

Module JS.

(** [String.prototype.toLowerCase], on ASCII. *)
Definition is_upper (c : ascii) : bool :=
  let n := nat_of_ascii c in (65 <=? n)%nat && (n <=? 90)%nat.

Definition lower_char (c : ascii) : ascii :=
  if is_upper c then ascii_of_nat (nat_of_ascii c + 32) else c.

Fixpoint toLowerCase (s : string) : string :=
  match s with
  | EmptyString => EmptyString
  | String c s' => String (lower_char c) (toLowerCase s')
  end.

(** The regular-expression classes [\s] and [\w], on ASCII. *)
Definition is_space (c : ascii) : bool :=
  let n := nat_of_ascii c in ((9 <=? n)%nat && (n <=? 13)%nat) || (n =? 32)%nat.

Definition is_word_char (c : ascii) : bool :=
  let n := nat_of_ascii c in
  ((48 <=? n)%nat && (n <=? 57)%nat) || ((65 <=? n)%nat && (n <=? 90)%nat)
  || ((97 <=? n)%nat && (n <=? 122)%nat) || (n =? 95)%nat.

(** [s.split(/C+/)] for a character class [C]: the pieces between the
    maximal runs of separator characters.  A leading or trailing run
    leaves an empty first or last piece, and the empty string splits into
    one empty piece.  [cur] is the piece being read, [in_run] tells that
    the previous character was a separator. *)
Fixpoint split_go (sep : ascii -> bool) (s : string) (cur : string) (in_run : bool)
  : list string :=
  match s with
  | EmptyString => [cur]
  | String c s' =>
      if sep c
      then (if in_run then split_go sep s' cur true
            else cur :: split_go sep s' EmptyString true)
      else split_go sep s' (cur +:+ String c EmptyString) false
  end.

Definition split_runs (sep : ascii -> bool) (s : string) : list string :=
  split_go sep s EmptyString false.

(** [s.split(/\s+/)] and [s.split(/\W+/)]. *)
Definition split_ws (s : string) : list string := split_runs is_space s.
Definition split_nonword (s : string) : list string :=
  split_runs (fun c => negb (is_word_char c)) s.

(** [s.includes(t)]. *)
Fixpoint includes (s t : string) : bool :=
  if String.prefix t s then true
  else match s with
       | EmptyString => false
       | String _ s' => includes s' t
       end.

(** [arr.includes(x)] on an array of strings. *)
Definition array_includes (l : list string) (x : string) : bool :=
  bool_decide (x ∈ l).

(** [label.split(' ')[0]]: the characters before the first blank. *)
Fixpoint first_word (s : string) : string :=
  match s with
  | EmptyString => EmptyString
  | String c s' =>
      if Ascii.eqb c " "%char then EmptyString else String c (first_word s')
  end.

(** [s.replace(new RegExp(term, 'gi'), repl)] for a [term] made of
    lower-case letters and a replacement without [$]: every occurrence
    of [term], compared without case, is replaced, scanning from the left
    and resuming after each match.  [skip] counts the characters of the
    current match that remain to be dropped. *)
Definition prefix_ci (term s : string) : bool :=
  String.prefix term (toLowerCase s).

Fixpoint replace_go (term repl : string) (s : string) (skip : nat) : string :=
  match s with
  | EmptyString => EmptyString
  | String c s' =>
      match skip with
      | S k => replace_go term repl s' k
      | O =>
          if prefix_ci term s
          then repl +:+ replace_go term repl s' (String.length term - 1)
          else String c (replace_go term repl s' 0)
      end
  end.

Definition replace_all_ci (term repl s : string) : string :=
  replace_go term repl s 0.

(** [[...new Set(l)]]: the first occurrence of every element, in order. *)
Fixpoint uniq_from {A} `{EqDecision A} (seen : list A) (l : list A) : list A :=
  match l with
  | [] => []
  | x :: l' =>
      if bool_decide (x ∈ seen) then uniq_from seen l'
      else x :: uniq_from (x :: seen) l'
  end.

Definition uniq {A} `{EqDecision A} (l : list A) : list A := uniq_from [] l.

(** [arr.slice(0, n)] is [take n arr]; [arr.slice(n)] is [drop n arr]. *)

(** The one-character string holding a double quote. *)
Definition dquote : string := String (ascii_of_nat 34) EmptyString.

(** [String(n)] for an array length. *)
Definition string_of_nat (n : nat) : string :=
  NilEmpty.string_of_uint (Nat.to_uint n).

(** [String(z)] for an integer. *)
Definition string_of_Z (z : Z) : string :=
  NilEmpty.string_of_int (Z.to_int z).

(** The number of an array length or of a count: exact below [2^53]
    (a JavaScript array has fewer than [2^32] elements). *)
Definition number_of_nat (n : nat) : float :=
  PrimFloat.of_uint63 (Uint63.of_Z (Z.of_nat n)).

Definition number_of_Z (z : Z) : float :=
  if (z <? 0)%Z then PrimFloat.opp (PrimFloat.of_uint63 (Uint63.of_Z (- z)))
  else PrimFloat.of_uint63 (Uint63.of_Z z).

(** [Math.max(a, b)]: NaN if an argument is NaN, and [+0] above [-0]. *)
Definition Math_max (a b : float) : float :=
  if PrimFloat.is_nan a || PrimFloat.is_nan b then PrimFloat.nan
  else if PrimFloat.ltb a b then b
  else if PrimFloat.ltb b a then a
  else if PrimFloat.is_zero a && PrimFloat.get_sign a then b
  else a.

(** [Math.round(x)]: the integer nearest to [x], a tie going up, that
    is the floor of [x + 1/2] computed exactly.  A finite binary64 is
    [(-1)^s * m * 2^e]; with [e >= 0] it is an integer already. *)
Definition Math_round (x : float) : float :=
  match Prim2SF x with
  | S754_finite s m e =>
      if (0 <=? e)%Z then x
      else
        let num := (if s then - Z.pos m else Z.pos m)%Z in
        let n := ((2 * num + 2 ^ (- e)) / 2 ^ (- e + 1))%Z in
        if (n =? 0)%Z then (if s then PrimFloat.neg_zero else PrimFloat.zero)
        else number_of_Z n
  | _ => x
  end.

End JS.

(** ** The article shape shared by the three modules *)

(** The fields of [Article] that the embedded functions read.  [date] is
    the time stamp that [new Date(a.date).getTime()] reads from the field
    when it is present and not empty (a date string that does not parse is
    outside the model); the compound sentiment score, which only the query
    filters read, is added to this record where they are embedded. *)
Record Article := mkArticle {
  id : Z;
  content : string;
  category : string;
  date : option Z
}.

#[global] Instance Article_eq_dec : EqDecision Article.
Proof. solve_decision. Defined.

(** [new Date(a.date || 0).getTime()]. *)
Definition getTime (a : Article) : Z := default 0%Z (date a).

(** ** [queryParser.ts] *)

Module QueryParser.
Import JS.

Inductive Intent := search | filter | analyze | compare | summarize.

#[global] Instance Intent_eq_dec : EqDecision Intent.
Proof. solve_decision. Defined.

Inductive Sentiment := positive | negative | neutral.

Definition Sentiment_name (s : Sentiment) : string :=
  match s with
  | positive => "positive"
  | negative => "negative"
  | neutral => "neutral"
  end.

Record DateRange := { range_start : Z; range_end : Z }.

Record Filters := {
  sentiment : option Sentiment;
  categories : option (list string);
  dateRange : option DateRange;
  sources : option (list string);
  keywords : option (list string)
}.

Record ParsedQuery := {
  intent : Intent;
  filters : Filters;
  originalQuery : string
}.

Definition CATEGORY_PATTERNS : list (string * list string) :=
  [ ("Technology", ["tech"; "technology"; "software"; "ai"; "artificial intelligence"; "computer"; "digital"]);
    ("Politics", ["politics"; "political"; "election"; "government"; "policy"; "congress"; "president"]);
    ("Business", ["business"; "market"; "stock"; "economy"; "company"; "trade"; "finance"; "economic"]);
    ("Science", ["science"; "scientific"; "research"; "study"; "discovery"]);
    ("Health", ["health"; "medical"; "medicine"; "healthcare"; "disease"; "wellness"]);
    ("Sports", ["sports"; "game"; "team"; "player"; "championship"; "league"]);
    ("Entertainment", ["entertainment"; "movie"; "film"; "music"; "celebrity"; "show"]);
    ("World News", ["world"; "international"; "global"; "foreign"]);
    ("Environment", ["environment"; "climate"; "green"; "sustainability"; "pollution"]) ].

(** [extractCategories]: the categories one of whose keywords occurs in
    the query, in table order. *)
Definition extractCategories (query : string) : list string :=
  map fst
    (List.filter (fun entry => existsb (fun keyword => includes query keyword) (snd entry))
       CATEGORY_PATTERNS).

(** *** [generateResponse] *)

Section Response.
(** The platform's clock and date formatting: [new Date()] as a time
    stamp, [d.toDateString()] and [d.toLocaleDateString()]. *)
Variable now : Z.
Variable toDateString : Z -> string.
Variable toLocaleDateString : Z -> string.

Definition week_ms : Z := 7 * 24 * 60 * 60 * 1000.

Definition describe_dateRange (r : DateRange) : string :=
  let isToday := bool_decide (toDateString (range_start r) = toDateString now) in
  let isThisWeek := (range_end r - range_start r <=? week_ms)%Z in
  if isToday then "from today"
  else if isThisWeek then "from this week"
  else "from " +:+ toLocaleDateString (range_start r) +:+ " to "
         +:+ toLocaleDateString (range_end r).

(** The [descriptions] array, one entry per active filter. *)
Definition descriptions (f : Filters) : list string :=
  (match sentiment f with
   | Some s => ["with " +:+ Sentiment_name s +:+ " sentiment"]
   | None => []
   end)
  ++ (match categories f with
      | Some (c :: cs) => ["in " +:+ String.concat ", " (c :: cs)]
      | _ => []
      end)
  ++ (match dateRange f with
      | Some r => [describe_dateRange r]
      | None => []
      end)
  ++ (match keywords f with
      | Some (k :: ks) => ["matching " +:+ dquote +:+ String.concat ", " (k :: ks) +:+ dquote]
      | _ => []
      end).

(** The sentence built before the intent is looked at (the value of
    [response] after [response += '.']). *)
Definition found_sentence (query : ParsedQuery) (results : list Article) : string :=
  let n := length results in
  let response := "Found " +:+ string_of_nat n +:+ " article"
                    +:+ (if negb (n =? 1)%nat then "s" else "") in
  let ds := descriptions (filters query) in
  let response :=
    if (0 <? length ds)%nat then response +:+ " " +:+ String.concat " " ds
    else response in
  response +:+ ".".

Definition no_results_sentence : string :=
  "I couldn't find any articles matching your query. Try adjusting your search criteria or using different keywords.".

Definition generateResponse (query : ParsedQuery) (results : list Article) : string :=
  let n := length results in
  let response := found_sentence query results in
  let response :=
    if bool_decide (intent query = summarize) && (0 <? n)%nat
    then response +:+ " I can provide a summary of these articles."
    else if bool_decide (intent query = analyze) && (0 <? n)%nat
    then response +:+ " I can analyze these articles for patterns and insights."
    else if bool_decide (intent query = compare) && (1 <? n)%nat
    then response +:+ " I can compare how different sources cover this topic."
    else response in
  if (n =? 0)%nat then no_results_sentence else response.

End Response.

(** *** [detectAmbiguity] *)

Record AmbiguityOption := {
  label : string;
  value : string;
  description : option string;
  option_confidence : float
}.

Record AmbiguityResult := {
  isAmbiguous : bool;
  confidence : float;
  clarityScore : float;
  options : list AmbiguityOption;
  suggestions : list string;
  ambiguousTerms : list string
}.

Definition mkOpt (l v d : string) (c : float) : AmbiguityOption :=
  {| label := l; value := v; description := Some d; option_confidence := c |}.

Definition AMBIGUOUS_ENTITIES : list (string * list AmbiguityOption) :=
  [ ("apple",
      [ mkOpt "Apple Inc. (Technology)" "apple_tech" "Tech company, iPhone, Mac" 0.8;
        mkOpt "Apple (Fruit)" "apple_fruit" "The fruit" 0.2 ]);
    ("bank",
      [ mkOpt "Banking & Finance" "bank_finance" "Financial institutions" 0.85;
        mkOpt "River Bank" "bank_nature" "Geographic feature" 0.15 ]);
    ("amazon",
      [ mkOpt "Amazon.com" "amazon_company" "E-commerce company" 0.9;
        mkOpt "Amazon Rainforest" "amazon_nature" "South American forest" 0.1 ]);
    ("python",
      [ mkOpt "Python (Programming)" "python_tech" "Programming language" 0.7;
        mkOpt "Python (Snake)" "python_animal" "The reptile" 0.3 ]);
    ("tesla",
      [ mkOpt "Tesla Inc." "tesla_company" "Electric car company" 0.85;
        mkOpt "Nikola Tesla" "tesla_person" "Historical inventor" 0.15 ]);
    ("china",
      [ mkOpt "China (Country)" "china_country" "People's Republic of China" 0.8;
        mkOpt "China (Economy)" "china_economy" "Chinese business/trade" 0.2 ]);
    ("virus",
      [ mkOpt "Computer Virus" "virus_tech" "Malware, cybersecurity" 0.4;
        mkOpt "Biological Virus" "virus_health" "Disease, pandemic" 0.6 ]) ].

Definition VAGUE_TERMS : list string :=
  ["stuff"; "things"; "news"; "latest"; "recent"; "something"; "anything"; "everything"].

(** The four accumulators of [detectAmbiguity]. *)
Record Scan := {
  scan_terms : list string;
  scan_options : list AmbiguityOption;
  scan_suggestions : list string;
  scan_penalty : float
}.

Definition scan0 : Scan :=
  {| scan_terms := []; scan_options := []; scan_suggestions := [];
     scan_penalty := 0%float |}.

(** One round of the loop over [Object.entries(AMBIGUOUS_ENTITIES)]. *)
Definition entity_step (query lowerQuery : string) (st : Scan)
    (entry : string * list AmbiguityOption) : Scan :=
  let '(term, termOptions) := entry in
  if includes lowerQuery term then
    {| scan_terms := scan_terms st ++ [term];
       scan_options := scan_options st ++ termOptions;
       scan_suggestions :=
         scan_suggestions st
         ++ map (fun opt => replace_all_ci term (first_word (label opt)) query) termOptions;
       scan_penalty := (scan_penalty st + 0.2)%float |}
  else st.

(** One round of the loop over [VAGUE_TERMS]. *)
Definition vague_step (words : list string) (st : Scan) (term : string) : Scan :=
  if array_includes words term then
    {| scan_terms := scan_terms st ++ [term];
       scan_options := scan_options st;
       scan_suggestions := scan_suggestions st;
       scan_penalty := (scan_penalty st + 0.1)%float |}
  else st.

Definition short_step (words : list string) (st : Scan) : Scan :=
  if (length words <=? 2)%nat then
    {| scan_terms := scan_terms st;
       scan_options := scan_options st;
       scan_suggestions := scan_suggestions st;
       scan_penalty := (scan_penalty st + 0.15)%float |}
  else st.

Definition category_step (lowerQuery : string) (st : Scan) : Scan :=
  let cats := extractCategories lowerQuery in
  if (2 <? length cats)%nat then
    {| scan_terms := scan_terms st;
       scan_options := scan_options st;
       scan_suggestions :=
         scan_suggestions st
         ++ ["Show me " +:+ default "undefined" (head cats) +:+ " news specifically"];
       scan_penalty := (scan_penalty st + 0.1)%float |}
  else st.

(** The accumulators when all four checks have run. *)
Definition scan_query (query : string) : Scan :=
  let lowerQuery := toLowerCase query in
  let words := split_ws lowerQuery in
  let st := fold_left (entity_step query lowerQuery) AMBIGUOUS_ENTITIES scan0 in
  let st := fold_left (vague_step words) VAGUE_TERMS st in
  let st := short_step words st in
  category_step lowerQuery st.

(** [detectAmbiguity]; the [articles] argument is not read. *)
Definition detectAmbiguity (query : string) (articles : list Article) : AmbiguityResult :=
  let st := scan_query query in
  let confidence := Math_max 0.1 (1 - scan_penalty st)%float in
  let clarityScore := Math_round (confidence * 10)%float in
  {| isAmbiguous := PrimFloat.ltb confidence 0.7;
     confidence := confidence;
     clarityScore := clarityScore;
     options := scan_options st;
     suggestions := take 3 (uniq (scan_suggestions st));
     ambiguousTerms := scan_terms st |}.

End QueryParser.

(** ** [Array.prototype.sort] with a comparator *)

Module JSArray.

(** [arr.sort(cmp)] is stable; with a comparator that orders its
    arguments consistently the result is the one an insertion sort gives.
    [after x y] tells that the comparator asks for [x] behind [y]
    ([cmp(x, y) > 0]); otherwise an element stays before the elements
    that follow it, so equal elements keep their order. *)
Fixpoint insert_by {A} (after : A -> A -> bool) (x : A) (l : list A) : list A :=
  match l with
  | [] => [x]
  | y :: l' => if after x y then y :: insert_by after x l' else x :: y :: l'
  end.

Definition sort_by {A} (after : A -> A -> bool) (l : list A) : list A :=
  foldr (insert_by after) [] l.

(** A comparator whose value is an integer. *)
Definition sort_int {A} (cmp : A -> A -> Z) (l : list A) : list A :=
  sort_by (fun x y => (0 <? cmp x y)%Z) l.

(** A comparator whose value is a binary64 number (a NaN counts as 0). *)
Definition sort_number {A} (cmp : A -> A -> float) (l : list A) : list A :=
  sort_by (fun x y => PrimFloat.ltb 0 (cmp x y)) l.

(** [arr.forEach((x, index) => ...)] threading the state the callback
    updates. *)
Fixpoint forEach_from {A St} (f : St -> A -> nat -> St) (l : list A) (i : nat) (st : St) : St :=
  match l with
  | [] => st
  | x :: l' => forEach_from f l' (S i) (f st x i)
  end.

Definition forEach {A St} (f : St -> A -> nat -> St) (l : list A) (st : St) : St :=
  forEach_from f l 0 st.

(** A [Map] in insertion order; [map_set] replaces the value of a key
    that is present, where it stands, and appends a new key. *)
Fixpoint map_set {K V} `{EqDecision K} (m : list (K * V)) (k : K) (v : V) : list (K * V) :=
  match m with
  | [] => [(k, v)]
  | (k', v') :: m' =>
      if decide (k = k') then (k, v) :: m' else (k', v') :: map_set m' k v
  end.

Fixpoint map_get {K V} `{EqDecision K} (m : list (K * V)) (k : K) : option V :=
  match m with
  | [] => None
  | (k', v') :: m' => if decide (k = k') then Some v' else map_get m' k
  end.

End JSArray.

(** ** [clustering.ts] *)

Module Clustering.
Import JS JSArray.

(** [ClusteredArticle]: the fields of the representative ([...sorted[0]],
    absent if the member list were empty) and the cluster fields.  The
    field [clusterArticles] of the source is [clusterMembers] here, the
    name [clusterArticles] being the exported function's. *)
Record ClusteredArticle := {
  representative : option Article;
  clusterId : string;
  isClusterRepresentative : bool;
  clusterSize : nat;
  clusteredSources : nat;
  clusterMembers : list Article
}.

Definition stopWords : list string :=
  ["about"; "after"; "before"; "being"; "could"; "would"; "should"; "their";
   "there"; "these"; "those"; "which"; "while"; "other"].

Definition getKeywords (a : Article) : list string :=
  let text := toLowerCase (category a +:+ " " +:+ content a) in
  let words := List.filter (fun w => (4 <? String.length w)%nat) (split_nonword text) in
  take 20 (uniq (List.filter (fun w => negb (array_includes stopWords w)) words)).

Definition similarity (a b : list string) : float :=
  let intersection := length (List.filter (fun w => array_includes a w) b) in
  (number_of_nat intersection
   / number_of_nat (Nat.max (Nat.max (length a) (length b)) 1))%float.

Record Item := { article : Article; keywords : list string }.

(** The test of the inner loop: [sim >= 0.3 || (sameCat && sim >= 0.15)]. *)
Definition absorbs (item other : Item) : bool :=
  let sameCat := bool_decide (category (article item) = category (article other)) in
  let sim := similarity (keywords item) (keywords other) in
  PrimFloat.leb 0.3 sim || (sameCat && PrimFloat.leb 0.15 sim).

(** The body of the inner [forEach]; the state is [cluster] and
    [processed]. *)
Definition inner_step (item : Item) (index : nat)
    (st : list Article * gset Z) (other : Item) (otherIndex : nat)
  : list Article * gset Z :=
  let '(cluster, processed) := st in
  if (index =? otherIndex)%nat || bool_decide (id (article other) ∈ processed) then st
  else if absorbs item other
       then (cluster ++ [article other], processed ∪ {[ id (article other) ]})
       else st.

Definition clusterId_of (a : Article) : string := "cluster-" +:+ string_of_Z (id a).

(** The body of the outer [forEach]; the state is [clusters] and
    [processed]. *)
Definition outer_step (articleKeywords : list Item)
    (st : list (string * list Article) * gset Z) (item : Item) (index : nat)
  : list (string * list Article) * gset Z :=
  let '(clusters, processed) := st in
  if bool_decide (id (article item) ∈ processed) then st
  else
    let '(cluster, processed) :=
      forEach (inner_step item index) articleKeywords ([article item], processed) in
    (map_set clusters (clusterId_of (article item)) cluster,
     processed ∪ {[ id (article item) ]}).

(** An entry of [articleKeywords]: [{ article: a, keywords: getKeywords(a) }]. *)
Definition with_keywords (a : Article) : Item :=
  {| article := a; keywords := getKeywords a |}.

(** The [clusters] map when the outer loop ends. *)
Definition cluster_map (articles : list Article) : list (string * list Article) :=
  let articleKeywords := map with_keywords articles in
  fst (forEach (outer_step articleKeywords) articleKeywords ([], ∅)).

Definition to_clustered (entry : string * list Article) : ClusteredArticle :=
  let '(clusterId, members) := entry in
  let sorted := sort_int (fun a b => (getTime b - getTime a)%Z) members in
  {| representative := head sorted;
     clusterId := clusterId;
     isClusterRepresentative := true;
     clusterSize := length members;
     clusteredSources := length members;
     clusterMembers := members |}.

Definition fastCluster (articles : list Article) : list ClusteredArticle :=
  map to_clustered (cluster_map articles).

(** [clusterArticles]: the promise resolves to this value; the two
    [console.log] calls are left out. *)
Definition clusterArticles (articles : list Article) : list ClusteredArticle :=
  if (length articles =? 0)%nat then [] else fastCluster articles.

(** *** The grouping as the specification words it

    Similarity of two term sets: the size of their intersection over
    the larger of the two sizes, at least 1, as an exact ratio. *)
Definition term_set (a : Article) : gset string := list_to_set (getKeywords a).

Definition overlap_ratio (A B : gset string) : Q :=
  inject_Z (Z.of_nat (size (A ∩ B)))
  / inject_Z (Z.of_nat (Nat.max (Nat.max (size A) (size B)) 1)).

(** A document is absorbed when its similarity to the seed is at least
    0.30, or at least 0.15 with the seed's category. *)
Definition similar_enough (seed d : Article) : bool :=
  let sim := overlap_ratio (term_set seed) (term_set d) in
  Qle_bool (3 # 10) sim
  || (Qle_bool (3 # 20) sim && bool_decide (category d = category seed)).

(** The greedy pass over the documents that follow the seed: a document
    not yet processed that passes [test] is absorbed and marked. *)
Fixpoint greedy_scan (test : Article -> bool) (others : list Article) (processed : gset Z)
  : list Article * gset Z :=
  match others with
  | [] => ([], processed)
  | d :: rest =>
      if bool_decide (id d ∈ processed) then greedy_scan test rest processed
      else if test d then
        let '(members, processed') := greedy_scan test rest (processed ∪ {[ id d ]}) in
        (d :: members, processed')
      else greedy_scan test rest processed
  end.

(** Documents in input order: an unprocessed one seeds a cluster, absorbs
    from the documents after it, and is marked processed. *)
Fixpoint greedy (test : Article -> Article -> bool) (docs : list Article)
    (processed : gset Z) : list (list Article) :=
  match docs with
  | [] => []
  | seed :: rest =>
      if bool_decide (id seed ∈ processed) then greedy test rest processed
      else
        let '(members, processed') := greedy_scan (test seed) rest processed in
        (seed :: members) :: greedy test rest (processed' ∪ {[ id seed ]})
  end.

(** The test of the source on two articles, and the [Map] entry of a
    cluster, keyed by its seed. *)
Definition absorbs_article (seed d : Article) : bool :=
  absorbs (with_keywords seed) (with_keywords d).

Definition entry_of (cluster : list Article) : string * list Article :=
  (match cluster with
   | seed :: _ => clusterId_of seed
   | [] => ""
   end, cluster).

(** The two comparisons of the source on a quotient of counts, and the
    same comparisons on the exact ratio. *)
Definition float_tests (i m : nat) : bool * bool :=
  let sim := (number_of_nat i / number_of_nat m)%float in
  (PrimFloat.leb 0.3 sim, PrimFloat.leb 0.15 sim).

Definition ratio_tests (i m : nat) : bool * bool :=
  let sim := (inject_Z (Z.of_nat i) / inject_Z (Z.of_nat m))%Q in
  (Qle_bool (3 # 10) sim, Qle_bool (3 # 20) sim).

Definition tests_agree (i m : nat) : bool :=
  let '(a1, a2) := float_tests i m in
  let '(b1, b2) := ratio_tests i m in
  Bool.eqb a1 b1 && Bool.eqb a2 b2.

(** What the partition statement speaks of: a document that no cluster
    other than the one it seeds holds, a document alone in its cluster,
    and a document that passes the absorption test with no other one. *)
Definition absorbed_by_no_other (clusters : list ClusteredArticle) (d : Article) : Prop :=
  ∀ c, c ∈ clusters → d ∈ clusterMembers c → clusterId c = clusterId_of d.

Definition forms_singleton (clusters : list ClusteredArticle) (d : Article) : Prop :=
  ∃ c, c ∈ clusters ∧ clusterMembers c = [d] ∧ clusterSize c = 1%nat.

Definition no_similar_peer (articles : list Article) (d : Article) : Prop :=
  ∀ d', d' ∈ articles → d' ≠ d → similar_enough d d' = false.

(** The documents of the specification's scenario. *)
Definition tech1 : Article :=
  {| id := 1; content := "the new artificial intelligence chip"; category := "Tech";
     date := None |}.

Definition tech2 : Article :=
  {| id := 2; content := "artificial intelligence chip launch"; category := "Tech";
     date := None |}.

Definition sports3 : Article :=
  {| id := 3; content := "championship game result"; category := "Sports"; date := None |}.

End Clustering.

(** ** The topic discovery module ([discoverTopics] and its clients) *)

Module Topics.
Import JS JSArray.

(** [discoverTopics] keys a [Map] and a [Set] by article objects, which
    JavaScript compares by identity: an article object is its address
    together with its fields, so two objects with the same fields stay
    apart and an object listed twice is one key. *)
Record Obj := { addr : nat; fields : Article }.

#[global] Instance Obj_eq_dec : EqDecision Obj.
Proof. solve_decision. Defined.

Inductive Trend := rising | stable | falling.

Record Topic := {
  name : string;
  count : nat;
  articles : list Obj;
  trend : Trend;
  velocity : float;
  keywords : list string
}.

(** [TopicTrend]; its field [trend] is [trendOf] here. *)
Record TopicTrend := {
  topic : string;
  currentCount : nat;
  previousCount : nat;
  percentageChange : float;
  trendOf : Trend
}.

(** [set.add(x)] on a [Set] in insertion order. *)
Definition set_add {A} `{EqDecision A} (s : list A) (x : A) : list A :=
  if bool_decide (x ∈ s) then s else s ++ [x].

Definition map_has {K V} `{EqDecision K} (m : list (K * V)) (k : K) : bool :=
  bool_decide (is_Some (map_get m k)).

Section Discovery.
(** [extractKeywords] of [tfidfAnalysis]: the text, the texts of the
    collection and the number of terms asked for. *)
Variable extractKeywords : string -> list string -> nat -> list string.

(** The [Map] from each article to its lower-cased keywords. *)
Definition articleKeywords_of (articles : list Obj) : list (Obj * list string) :=
  fold_left
    (fun m article =>
       let keywords :=
         map toLowerCase
           (extractKeywords (content (fields article))
              (map (fun a => content (fields a)) articles) 10) in
       map_set m article keywords)
    articles [].

(** The [Map] from each keyword to the [Set] of articles that carry it. *)
Definition count_keyword (article : Obj) (kf : list (string * list Obj)) (keyword : string)
  : list (string * list Obj) :=
  let kf := if negb (map_has kf keyword) then map_set kf keyword [] else kf in
  map_set kf keyword (set_add (default [] (map_get kf keyword)) article).

Definition keywordFrequency_of (articleKeywords : list (Obj * list string))
  : list (string * list Obj) :=
  fold_left
    (fun kf entry => fold_left (count_keyword (fst entry)) (snd entry) kf)
    articleKeywords [].

Definition significantKeywords_of (keywordFrequency : list (string * list Obj))
    (minArticles : Z) : list (string * list Obj) :=
  sort_int (fun a b => (Z.of_nat (length (snd b)) - Z.of_nat (length (snd a)))%Z)
    (List.filter (fun entry => (minArticles <=? Z.of_nat (length (snd entry)))%Z)
       keywordFrequency).

Definition relatedKeywords_of (articleKeywords : list (Obj * list string))
    (keyword : string) (articlesArray : list Obj) : list string :=
  fold_left
    (fun related article =>
       fold_left
         (fun related k =>
            if negb (bool_decide (k = keyword)) then set_add related k else related)
         (default [] (map_get articleKeywords article)) related)
    articlesArray [].

Definition make_topic (articleKeywords : list (Obj * list string))
    (entry : string * list Obj) : Topic :=
  let '(keyword, relatedArticles) := entry in
  let articlesArray := relatedArticles in
  {| name := keyword;
     count := length articlesArray;
     articles := articlesArray;
     trend := stable;
     velocity := 0%float;
     keywords := take 5 (relatedKeywords_of articleKeywords keyword articlesArray) |}.

Definition discoverTopics (articles : list Obj) (minArticles : Z) : list Topic :=
  if (length articles =? 0)%nat then []
  else
    let articleKeywords := articleKeywords_of articles in
    let keywordFrequency := keywordFrequency_of articleKeywords in
    let significantKeywords := significantKeywords_of keywordFrequency minArticles in
    map (make_topic articleKeywords) (take 20 significantKeywords).

(** The default value of the parameter [minArticles]. *)
Definition minArticles_default : Z := 3.

Definition trend_record (previousTopics : list Topic) (currentTopic : Topic) : TopicTrend :=
  let previousTopic :=
    List.find (fun t => bool_decide (name t = name currentTopic)) previousTopics in
  let previousCount := match previousTopic with Some t => count t | None => 0%nat end in
  let currentCount := count currentTopic in
  let percentageChange :=
    if (0 <? previousCount)%nat
    then ((number_of_nat currentCount - number_of_nat previousCount)
          / number_of_nat previousCount * 100)%float
    else 100%float in
  let trend :=
    if PrimFloat.ltb 20 percentageChange then rising
    else if PrimFloat.ltb percentageChange (-20) then falling
    else stable in
  {| topic := name currentTopic;
     currentCount := currentCount;
     previousCount := previousCount;
     percentageChange := percentageChange;
     trendOf := trend |}.

Definition analyzeTopicTrends (currentArticles previousArticles : list Obj)
  : list TopicTrend :=
  let currentTopics := discoverTopics currentArticles minArticles_default in
  let previousTopics := discoverTopics previousArticles minArticles_default in
  let trends := map (trend_record previousTopics) currentTopics in
  sort_number
    (fun a b => (PrimFloat.abs (percentageChange b) - PrimFloat.abs (percentageChange a))%float)
    trends.

(** [x || 0] on a number: 0 replaces a zero and a NaN. *)
Definition or_zero (x : float) : float :=
  if PrimFloat.is_zero x || PrimFloat.is_nan x then 0%float else x.

Definition enrich (trends : list TopicTrend) (t : Topic) : Topic :=
  let trendData := List.find (fun r => bool_decide (topic r = name t)) trends in
  {| name := name t;
     count := count t;
     articles := articles t;
     trend := match trendData with Some r => trendOf r | None => stable end;
     velocity := match trendData with
                 | Some r => or_zero (percentageChange r)
                 | None => 0%float
                 end;
     keywords := keywords t |}.

Definition getEmergingTopics (articles : list Obj) : list Topic :=
  let sortedArticles :=
    sort_int (fun a b => (getTime (fields b) - getTime (fields a))%Z) articles in
  let midpoint := (length sortedArticles / 2)%nat in
  let recentArticles := take midpoint sortedArticles in
  let olderArticles := drop midpoint sortedArticles in
  let trends := analyzeTopicTrends recentArticles olderArticles in
  let topics := discoverTopics articles minArticles_default in
  sort_number
    (fun a b => (PrimFloat.abs (velocity b) - PrimFloat.abs (velocity a))%float)
    (map (enrich trends) topics).

Definition group_by_category (articles : list Obj) : list (string * list Obj) :=
  fold_left
    (fun m article =>
       let c := category (fields article) in
       let m := if negb (map_has m c) then map_set m c [] else m in
       map_set m c (default [] (map_get m c) ++ [article]))
    articles [].

Definition getTopicsByCategory (articles : list Obj) : list (string * list Topic) :=
  let articlesByCategory := group_by_category articles in
  fold_left
    (fun categoryMap entry =>
       let '(category, categoryArticles) := entry in
       map_set categoryMap category (discoverTopics categoryArticles 2))
    articlesByCategory [].

End Discovery.

Definition overlap_with (topicArticleIds : list Z) (t : Topic) : nat :=
  length (List.filter (fun a => bool_decide (id (fields a) ∈ topicArticleIds)) (articles t)).

Definition findRelatedTopics (t0 : Topic) (allTopics : list Topic) : list Topic :=
  let topicArticleIds := map (fun a => id (fields a)) (articles t0) in
  let scored :=
    map (fun t => (t, overlap_with topicArticleIds t))
      (List.filter (fun t => negb (bool_decide (name t = name t0))) allTopics) in
  let kept := List.filter (fun e => (0 <? snd e)%nat) scored in
  let sorted := sort_int (fun a b => (Z.of_nat (snd b) - Z.of_nat (snd a))%Z) kept in
  map fst (take 5 sorted).

(** What holds of the keyword map: one entry per keyword, and under each
    keyword a set of articles of the collection. *)
Definition frequency_ok (docs : list Obj) (kf : list (string * list Obj)) : Prop :=
  NoDup (map fst kf)
  ∧ Forall (fun e => NoDup (snd e) ∧ ∀ x, x ∈ snd e → x ∈ docs) kf.

(** The articles of one category, in input order. *)
Definition in_category (c : string) (docs : list Obj) : list Obj :=
  List.filter (fun a => bool_decide (category (fields a) = c)) docs.

(** The value a category has in [articlesByCategory] when the documents
    [docs] have been read. *)
Definition group_of (c : string) (docs : list Obj) : option (list Obj) :=
  match in_category c docs with
  | [] => None
  | arts => Some arts
  end.

(** A sample extractor for the examples below (the extractor of
    [tfidfAnalysis] is a parameter of the development): the first [k]
    white-space separated words of the text that are longer than three
    characters. *)
Definition sample_extractKeywords (text : string) (texts : list string) (k : nat)
  : list string :=
  take k (List.filter (fun w => (3 <? String.length w)%nat) (split_ws text)).

(** [n] sample articles with addresses and ids from [first] on. *)
Definition sample_docs (first n : nat) (text : string) : list Obj :=
  map (fun i => {| addr := i;
                   fields := {| id := Z.of_nat i; content := text; category := "Tech";
                                date := Some (Z.of_nat i) |} |})
    (seq first n).

End Topics.

(** ** Definitions that the statements below refer to *)

Module QueryParserSpec.
Import JS QueryParser.

(** The entity and vague-term checks that fire on a query. *)
Definition entity_hit (lowerQuery : string) (entry : string * list AmbiguityOption) : bool :=
  includes lowerQuery (fst entry).

Definition entity_hits (lowerQuery : string) : list (string * list AmbiguityOption) :=
  List.filter (entity_hit lowerQuery) AMBIGUOUS_ENTITIES.

Definition vague_hits (words : list string) : list string :=
  List.filter (array_includes words) VAGUE_TERMS.

(** The penalty after [k] entity hits, [j] vague hits, the short-query
    check and the category check, added in the order of the source. *)
Definition penalty_of (k j : nat) (short multi : bool) : float :=
  let p := Nat.iter k (fun p => (p + 0.2)%float) 0%float in
  let p := Nat.iter j (fun p => (p + 0.1)%float) p in
  let p := if short then (p + 0.15)%float else p in
  if multi then (p + 0.1)%float else p.

Definition confidence_of (penalty : float) : float :=
  Math_max 0.1 (1 - penalty)%float.

(** What is checked of every reachable penalty. *)
Definition score_in_range (penalty : float) : bool :=
  let c := confidence_of penalty in
  let s := Math_round (c * 10)%float in
  PrimFloat.leb 0.1 c && PrimFloat.leb c 1 && PrimFloat.ltb 0 c
  && PrimFloat.leb 1 s && PrimFloat.leb s 10.

Definition all_penalties (P : float -> bool) (kmin : nat) : bool :=
  forallb (fun k =>
    forallb (fun j =>
      forallb (fun short =>
        forallb (fun multi => P (penalty_of k j short multi)) [false; true])
        [false; true])
      (seq 0 9))
    (seq kmin (8 - kmin)).

(** The suggestions the entity hits generate, one per option. *)
Definition entity_suggestions (query : string) (hits : list (string * list AmbiguityOption))
  : list string :=
  concat (map (fun e => map (fun opt => replace_all_ci (fst e) (first_word (label opt)) query)
                            (snd e)) hits).

(** The short-query check and the category check. *)
Definition is_short (words : list string) : bool := (length words <=? 2)%nat.
Definition is_multi (lq : string) : bool := (2 <? length (extractCategories lq))%nat.




(** The closing clause of each intent. *)
Definition closing_clause (i : Intent) : string :=
  match i with
  | summarize => " I can provide a summary of these articles."
  | analyze => " I can analyze these articles for patterns and insights."
  | compare => " I can compare how different sources cover this topic."
  | _ => ""
  end.

Definition no_filters : Filters :=
  {| sentiment := None; categories := None; dateRange := None;
     sources := None; keywords := None |}.

Definition compare_query : ParsedQuery :=
  {| intent := compare; filters := no_filters; originalQuery := "compare" |}.

Definition one_article : Article :=
  {| id := 1; content := "Markets rallied"; category := "Business"; date := None |}.

End QueryParserSpec.

(** ** More JavaScript built-ins *)

Module JSString.

(** [s.split(sep)] for a non-empty separator string: the pieces between
    the occurrences of [sep], found from the left without overlap.
    [cur] is the piece being read, [skip] counts the characters of the
    current separator that remain to be dropped. *)
Fixpoint split_at (sep s cur : string) (skip : nat) : list string :=
  match s with
  | EmptyString => [cur]
  | String c s' =>
      match skip with
      | S k => split_at sep s' cur k
      | O =>
          if String.prefix sep s
          then cur :: split_at sep s' EmptyString (String.length sep - 1)
          else split_at sep s' (cur +:+ String c EmptyString) 0
      end
  end.

Definition split (sep s : string) : list string := split_at sep s EmptyString 0.

(** [s.length]: the number of UTF-16 code units of the text, read off
    its UTF-8 bytes.  A byte below 128 and the first byte of a two- or
    three-byte sequence stand for one unit, the first byte of a four-byte
    sequence for the two units of a surrogate pair, and a continuation
    byte ([128] to [191]) for none.  On ASCII text it is the number of
    bytes. *)
Definition utf16_units (c : ascii) : nat :=
  let n := nat_of_ascii c in
  if (n <? 128)%nat then 1%nat
  else if (n <? 192)%nat then 0%nat
  else if (n <? 240)%nat then 1%nat
  else 2%nat.

Fixpoint utf16_length (s : string) : nat :=
  match s with
  | EmptyString => 0%nat
  | String c s' => (utf16_units c + utf16_length s')%nat
  end.

(** [arr.join(sep)] on strings. *)
Definition join (sep : string) (l : list string) : string := String.concat sep l.

(** [arr.some(p)]. *)
Definition some {A} (p : A -> bool) (l : list A) : bool := existsb p l.

End JSString.

(** ** [queryParser.ts]: the extractors, the filters and the prompts *)

Module QueryFilters.
Import JS JSString QueryParser.

(** An article with its [sentiment.compound] score, the field that
    [applyFilters] reads beside those of [Article]. *)
Record ScoredArticle := { article : Article; compound : float }.

(** [Object.entries(SENTIMENT_PATTERNS)], in the order of the literal. *)
Definition SENTIMENT_PATTERNS : list (Sentiment * list string) :=
  [ (positive, ["positive"; "good"; "uplifting"; "optimistic"; "favorable"; "encouraging"]);
    (negative, ["negative"; "bad"; "concerning"; "pessimistic"; "unfavorable"; "worrying"]);
    (neutral, ["neutral"; "balanced"; "objective"; "unbiased"]) ].

(** [Object.keys(TIME_PATTERNS)]. *)
Definition TIME_PATTERN_KEYS : list string :=
  ["today"; "yesterday"; "this week"; "last week"; "this month"; "last month"].

(** [detectIntent], called on the lower-cased query. *)
Definition detectIntent (query : string) : Intent :=
  if includes query "compare" || includes query "versus" || includes query "vs"
  then compare
  else if includes query "analyze" || includes query "analysis" then analyze
  else if includes query "summarize" || includes query "summary" then summarize
  else if includes query "show" || includes query "find" || includes query "get"
  then QueryParser.filter
  else search.

(** [extractSentiment]: the first sentiment of the table one of whose
    keywords occurs in the query. *)
Definition extractSentiment (query : string) : option Sentiment :=
  fst <$> List.find (fun entry => some (fun keyword => includes query keyword) (snd entry))
            SENTIMENT_PATTERNS.

(** [extractDateRange].  The six closures of [TIME_PATTERNS] and the
    range of the last seven days read the clock and the local calendar;
    they are parameters. *)
Section DateRanges.
Variable getRange : string -> DateRange.
Variable lastSevenDays : DateRange.

Definition extractDateRange (query : string) : option DateRange :=
  match List.find (fun pattern => includes query pattern) TIME_PATTERN_KEYS with
  | Some pattern => Some (getRange pattern)
  | None =>
      if includes query "recent" || includes query "latest" then Some lastSevenDays
      else None
  end.

End DateRanges.

(** [extractKeywords] of the query parser. *)
Definition stopWords : list string :=
  ["show"; "me"; "find"; "get"; "the"; "a"; "an"; "from"; "in"; "on"; "at"; "to";
   "for"; "of"; "with"; "about"].

Definition allPatternWords : list string :=
  concat (map snd SENTIMENT_PATTERNS)
  ++ concat (map snd CATEGORY_PATTERNS)
  ++ concat (map (split " ") TIME_PATTERN_KEYS).

Definition extractKeywords (query : string) : list string :=
  let words :=
    List.filter (fun word => negb (array_includes allPatternWords word))
      (List.filter (fun word => negb (array_includes stopWords word))
         (List.filter (fun word => (2 <? utf16_length word)%nat)
            (split_ws (toLowerCase query)))) in
  uniq words.

(** [parseQuery]. *)
Section Parse.
Variable getRange : string -> DateRange.
Variable lastSevenDays : DateRange.

Definition parseQuery (query : string) : ParsedQuery :=
  let lowerQuery := toLowerCase query in
  {| intent := detectIntent lowerQuery;
     filters :=
       {| sentiment := extractSentiment lowerQuery;
          categories := Some (extractCategories lowerQuery);
          dateRange := extractDateRange getRange lastSevenDays lowerQuery;
          sources := None;
          keywords := Some (extractKeywords lowerQuery) |};
     originalQuery := query |}.

End Parse.

(** [applyFilters]: the four filters, one after the other. *)
Definition sentiment_test (s : Sentiment) (a : ScoredArticle) : bool :=
  match s with
  | positive => PrimFloat.ltb 0.05 (compound a)
  | negative => PrimFloat.ltb (compound a) (-0.05)
  | neutral => PrimFloat.leb (PrimFloat.abs (compound a)) 0.05
  end.

Definition category_test (cats : list string) (a : ScoredArticle) : bool :=
  some (fun cat =>
          includes (toLowerCase (category (article a))) (toLowerCase cat)
          || includes (toLowerCase cat) (toLowerCase (category (article a))))
       cats.

Definition date_test (r : DateRange) (a : ScoredArticle) : bool :=
  match date (article a) with
  | None => false
  | Some articleDate =>
      (range_start r <=? articleDate)%Z && (articleDate <=? range_end r)%Z
  end.

Definition keyword_test (kws : list string) (a : ScoredArticle) : bool :=
  some (fun keyword => includes (toLowerCase (content (article a))) keyword) kws.

Definition applyFilters (articles : list ScoredArticle) (f : Filters) : list ScoredArticle :=
  let filtered := articles in
  let filtered :=
    match sentiment f with
    | Some s => List.filter (sentiment_test s) filtered
    | None => filtered
    end in
  let filtered :=
    match categories f with
    | Some (c :: cs) => List.filter (category_test (c :: cs)) filtered
    | _ => filtered
    end in
  let filtered :=
    match dateRange f with
    | Some r => List.filter (date_test r) filtered
    | None => filtered
    end in
  match keywords f with
  | Some (k :: ks) => List.filter (keyword_test (k :: ks)) filtered
  | _ => filtered
  end.

(** [getAmbiguityPrompt]. *)
Definition getAmbiguityPrompt (result : AmbiguityResult) : string :=
  if negb (isAmbiguous result) then ""
  else if (0 <? length (ambiguousTerms result))%nat
  then "Your query contains " +:+ dquote
         +:+ join (dquote +:+ ", " +:+ dquote) (ambiguousTerms result)
         +:+ dquote +:+ " which could mean different things. Please clarify:"
  else "Your query is a bit vague. Here are some suggestions:".

(** [generateEnhancedResponse].  [String_of_number] is the conversion of
    a number to a string in a template literal. *)
Record EnhancedResponse := {
  text : string;
  response_confidence : float;
  response_clarityScore : float
}.

Section Enhanced.
Variable now : Z.
Variable toDateString : Z -> string.
Variable toLocaleDateString : Z -> string.
Variable String_of_number : float -> string.

Definition generateEnhancedResponse (query : ParsedQuery) (results : list Article)
    (ambiguity : AmbiguityResult) : EnhancedResponse :=
  let baseResponse := generateResponse now toDateString toLocaleDateString query results in
  let enhancedText := baseResponse in
  let enhancedText :=
    if PrimFloat.ltb (clarityScore ambiguity) 7
    then
      let enhancedText :=
        enhancedText +:+ " (Clarity: " +:+ String_of_number (clarityScore ambiguity) +:+ "/10)" in
      match suggestions ambiguity with
      | s :: _ => enhancedText +:+ " Try: " +:+ dquote +:+ s +:+ dquote
      | [] => enhancedText
      end
    else enhancedText in
  {| text := enhancedText;
     response_confidence := confidence ambiguity;
     response_clarityScore := clarityScore ambiguity |}.

End Enhanced.

End QueryFilters.

(** Definitions that the statements on the filters refer to. *)
Module QueryFiltersSpec.
Import JS QueryParser QueryFilters.

(** The filters that carry one sentiment and nothing else, and the
    filters that [parseQuery] builds when no pattern matches: no
    sentiment, no date range, empty category and keyword arrays. *)
Definition sentiment_only (s : Sentiment) : Filters :=
  {| sentiment := Some s; categories := None; dateRange := None;
     sources := None; keywords := None |}.

Definition empty_filters : Filters :=
  {| sentiment := None; categories := Some []; dateRange := None;
     sources := None; keywords := Some [] |}.

Definition category_only (cats : list string) : Filters :=
  {| sentiment := None; categories := Some cats; dateRange := None;
     sources := None; keywords := None |}.

Definition positive_words : list string :=
  ["positive"; "good"; "uplifting"; "optimistic"; "favorable"; "encouraging"].

Definition vague_prompt : string :=
  "Your query is a bit vague. Here are some suggestions:".

(** Three sample articles, one per sentiment class. *)
Definition scored (i : Z) (c : float) : ScoredArticle :=
  {| article := {| id := i; content := "Markets rallied"; category := "Business";
                   date := None |};
     compound := c |}.

Definition sample_scored : list ScoredArticle :=
  [scored 1 0.5; scored 2 (-0.4); scored 3 0.01; scored 4 0.05].

(** One optional filter of [applyFilters]: a test, or nothing. *)
Definition stage {A} (t : option (A → bool)) (l : list A) : list A :=
  match t with
  | Some p => List.filter p l
  | None => l
  end.

Definition sentiment_stage (f : Filters) : option (ScoredArticle → bool) :=
  sentiment_test <$> sentiment f.

Definition category_stage (f : Filters) : option (ScoredArticle → bool) :=
  match categories f with
  | Some (c :: cs) => Some (category_test (c :: cs))
  | _ => None
  end.

Definition date_stage (f : Filters) : option (ScoredArticle → bool) :=
  date_test <$> dateRange f.

Definition keyword_stage (f : Filters) : option (ScoredArticle → bool) :=
  match keywords f with
  | Some (k :: ks) => Some (keyword_test (k :: ks))
  | _ => None
  end.

Definition exactly_one (a b c : bool) : bool :=
  match a, b, c with
  | true, false, false | false, true, false | false, false, true => true
  | _, _, _ => false
  end.

(** What is checked of every combination of [k] entity hits, [j] vague
    hits and the two other checks: the clarity score is below 7 exactly
    when the confidence is below 0.65, a confidence below 0.65 is below
    0.7, two entity hits and one entity hit in a short query are flagged,
    and no hit at all gives a confidence of at least 0.75. *)
Definition flag_table (k j : nat) (short multi : bool) : bool :=
  let c := QueryParserSpec.confidence_of (QueryParserSpec.penalty_of k j short multi) in
  Bool.eqb (PrimFloat.ltb (Math_round (c * 10)%float) 7) (PrimFloat.ltb c 0.65)
  && implb (PrimFloat.ltb c 0.65) (PrimFloat.ltb c 0.7)
  && implb (2 <=? k)%nat (PrimFloat.ltb c 0.7)
  && implb ((1 <=? k)%nat && short) (PrimFloat.ltb c 0.7).

End QueryFiltersSpec.

(** ** [clustering.ts]: the lookup of a cluster *)

Module ClusterLookup.
Import Clustering.

(** [getClusterById].  Every [ClusteredArticle] of [fastCluster] carries
    its member array; a missing array and an empty one both give [[]]. *)
Definition getClusterById (clusteredArticles : list ClusteredArticle) (clusterId' : string)
  : list Article :=
  let cluster := List.find (fun a => bool_decide (clusterId a = clusterId')) clusteredArticles in
  match cluster with
  | Some c => clusterMembers c
  | None => []
  end.

(** The first of the latest members of a list: the members before it are
    older, none is more recent. *)
Definition first_latest (members : list Article) (r : Article) : Prop :=
  ∃ pre post, members = pre ++ r :: post
    ∧ (∀ m, m ∈ pre → (getTime m < getTime r)%Z)
    ∧ (∀ m, m ∈ post → (getTime m <= getTime r)%Z).

(** The number of entries of [docs] whose id is not in [processed]. *)
Definition unprocessed (docs : list Article) (processed : gset Z) : nat :=
  length (List.filter (fun d => negb (bool_decide (id d ∈ processed))) docs).

(** Two articles that share an id, and one apart. *)
Definition dated (i : Z) (text : string) (t : Z) : Article :=
  {| id := i; content := text; category := "Tech"; date := Some t |}.

Definition sample_cluster_input : list Article :=
  [dated 1 "artificial intelligence chip" 10; dated 2 "artificial intelligence chip launch" 30;
   dated 1 "artificial intelligence chip again" 30; dated 3 "championship game result" 5].

End ClusterLookup.

(** Definitions that the statements on the topic module refer to. *)
Module TopicsSpec.
Import Topics.

(** What a topic is made of, its trend and velocity apart. *)
Definition topic_core (t : Topic) : string * nat * list Obj * list string :=
  (name t, count t, articles t, keywords t).

(** The ids of the articles of a topic. *)
Definition article_ids (t : Topic) : list Z := map (fun a => id (fields a)) (articles t).

(** Sample articles of two categories. *)
Definition sample_mixed : list Obj :=
  sample_docs 1 3 "alpha beta"
  ++ map (fun i => {| addr := i;
                      fields := {| id := Z.of_nat i; content := "gamma delta";
                                   category := "Sports"; date := Some (Z.of_nat i) |} |})
       (seq 10 2)
  ++ sample_docs 20 1 "alpha".

Definition sample_topics : list Topic :=
  discoverTopics sample_extractKeywords (sample_docs 1 4 "alpha beta") 3.

End TopicsSpec.

(** ** [contextLensFilter.ts] and [contextLensEnhanced.ts] *)

Module ContextLens.
Import JS JSString JSArray.

Inductive Lens := none | beginner | student | analyst | executive.

(** [applyContextLens].  [a.content.length] is [utf16_length], the
    number of UTF-16 code units of the content, and
    [a.date ? new Date(a.date).getTime() : 0] is [getTime a]. *)
Definition applyContextLens (articles : list Article) (lens : Lens) : list Article :=
  match lens with
  | none => articles
  | beginner =>
      sort_int
        (fun a b =>
           let aLength := Z.of_nat (utf16_length (content a)) in
           let bLength := Z.of_nat (utf16_length (content b)) in
           (aLength - bLength)%Z)
        articles
  | student =>
      sort_int
        (fun a b =>
           let educationalCategories := ["Science"; "Technology"; "Health"; "Environment"] in
           let aScore := if array_includes educationalCategories (category a) then 1%Z else 0%Z in
           let bScore := if array_includes educationalCategories (category b) then 1%Z else 0%Z in
           (bScore - aScore)%Z)
        articles
  | analyst =>
      sort_int
        (fun a b =>
           let analyticalCategories := ["Business"; "Politics"; "Technology"; "World News"] in
           let aScore := if array_includes analyticalCategories (category a) then 1%Z else 0%Z in
           let bScore := if array_includes analyticalCategories (category b) then 1%Z else 0%Z in
           (bScore - aScore)%Z)
        articles
  | executive =>
      sort_int
        (fun a b =>
           let executiveCategories := ["Business"; "Politics"; "World News"] in
           let aScore := if array_includes executiveCategories (category a) then 1%Z else 0%Z in
           let bScore := if array_includes executiveCategories (category b) then 1%Z else 0%Z in
           let aDate := getTime a in
           let bDate := getTime b in
           if negb (aScore =? bScore)%Z then (bScore - aScore)%Z else (bDate - aDate)%Z)
        articles
  end.

(** [getContextLensDescription]. *)
Definition getContextLensDescription (lens : Lens) : string :=
  match lens with
  | beginner => "Prioritizes simpler, more explanatory articles"
  | student => "Focuses on educational content (Science, Technology, Health)"
  | analyst => "Emphasizes data-rich, analytical content (Business, Politics)"
  | executive => "Highlights high-level summaries and key insights"
  | none => "No filtering applied"
  end.

(** [applyContextLensEnhanced].  The loop counts the positions at which
    the id changed.  The descriptions are the texts of the source, as
    UTF-8. *)
Record LensResult := {
  lens_articles : list Article;
  description : string;
  changeCount : nat
}.

Fixpoint count_changes (articles sortedArticles : list Article) : nat :=
  match articles, sortedArticles with
  | a :: articles', s :: sortedArticles' =>
      (if negb (id a =? id s)%Z then 1 else 0) + count_changes articles' sortedArticles'
  | _, _ => 0
  end.

Definition applyContextLensEnhanced (articles : list Article) (lens : Lens) : LensResult :=
  match lens with
  | none =>
      {| lens_articles := articles;
         description := "Showing all articles in default order";
         changeCount := 0 |}
  | _ =>
      let '(sortedArticles, description) :=
        match lens with
        | beginner =>
            (sort_int
               (fun a b =>
                  let aLength := Z.of_nat (utf16_length (content a)) in
                  let bLength := Z.of_nat (utf16_length (content b)) in
                  (aLength - bLength)%Z)
               articles,
             "📚 Showing simpler articles first (shorter content)")
        | student =>
            (sort_int
               (fun a b =>
                  let educationalCategories :=
                    ["Science"; "Technology"; "Health"; "Environment"] in
                  let aScore :=
                    if array_includes educationalCategories (category a) then 1%Z else 0%Z in
                  let bScore :=
                    if array_includes educationalCategories (category b) then 1%Z else 0%Z in
                  (bScore - aScore)%Z)
               articles,
             "🎓 Prioritizing Science, Technology, and Health articles")
        | analyst =>
            (sort_int
               (fun a b =>
                  let analyticalCategories :=
                    ["Business"; "Politics"; "Technology"; "World News"] in
                  let aScore :=
                    if array_includes analyticalCategories (category a) then 1%Z else 0%Z in
                  let bScore :=
                    if array_includes analyticalCategories (category b) then 1%Z else 0%Z in
                  (bScore - aScore)%Z)
               articles,
             "📊 Prioritizing Business, Politics, and analytical content")
        | executive =>
            (sort_int
               (fun a b =>
                  let executiveCategories := ["Business"; "Politics"; "World News"] in
                  let aScore :=
                    if array_includes executiveCategories (category a) then 1%Z else 0%Z in
                  let bScore :=
                    if array_includes executiveCategories (category b) then 1%Z else 0%Z in
                  let aDate := getTime a in
                  let bDate := getTime b in
                  if negb (aScore =? bScore)%Z then (bScore - aScore)%Z else (bDate - aDate)%Z)
               articles,
             "💼 Showing recent high-impact Business and Politics news")
        | none => (articles, "Showing all articles")
        end in
      {| lens_articles := sortedArticles;
         description := description;
         changeCount := count_changes articles sortedArticles |}
  end.

End ContextLens.

(** Definitions that the statements on the lenses refer to. *)
Module ContextLensSpec.
Import JS ContextLens.

(** The categories a lens puts first, and the key the beginner and
    executive lenses order by. *)
Definition preferred (lens : Lens) : list string :=
  match lens with
  | student => ["Science"; "Technology"; "Health"; "Environment"]
  | analyst => ["Business"; "Politics"; "Technology"; "World News"]
  | executive => ["Business"; "Politics"; "World News"]
  | _ => []
  end.

Definition is_preferred (lens : Lens) (a : Article) : bool :=
  array_includes (preferred lens) (category a).

Definition content_length (a : Article) : nat := JSString.utf16_length (content a).

(** [a] may stand before [b] under the executive lens: a preferred
    category before the others, and within a group the more recent
    first. *)
Definition executive_order (a b : Article) : Prop :=
  (is_preferred executive a = false → is_preferred executive b = false)
  ∧ (is_preferred executive a = is_preferred executive b → (getTime b <= getTime a)%Z).

(** The positions at which two id lists differ. *)
Fixpoint mismatches (xs ys : list Z) : nat :=
  match xs, ys with
  | x :: xs', y :: ys' => (if negb (x =? y)%Z then 1 else 0) + mismatches xs' ys'
  | _, _ => 0
  end.

Definition lens_sample : list Article :=
  [ {| id := 1; content := "a long explanation of the match"; category := "Sports";
       date := Some 5%Z |};
    {| id := 2; content := "taux élevé"; category := "Business"; date := Some 3%Z |};
    {| id := 3; content := "new vaccine"; category := "Health"; date := Some 9%Z |};
    {| id := 4; content := "vote count"; category := "Politics"; date := None |} ].

End ContextLensSpec.

(** ** [smartDeepDive.ts] *)

Module SmartDeepDive.
Import JS JSString.

(** [Article["deep_dive_format"]]: one of four formats, or [null]
    ([None]). *)
Inductive DeepDiveFormat := BiasRadar | EventTimeline | KnowledgeMap | DeepVision.

#[global] Instance DeepDiveFormat_eq_dec : EqDecision DeepDiveFormat.
Proof. solve_decision. Defined.

Definition biasKeywords : list string :=
  ["democrat"; "republican"; "liberal"; "conservative"; "left"; "right"; "bias";
   "partisan"; "opinion"; "editorial"; "controversy"; "trump"; "biden"; "election";
   "vote"; "congress"; "senate"].

Definition timelineKeywords : list string :=
  ["timeline"; "sequence"; "happened"; "incident"; "event"; "occurred"; "began";
   "started"; "ended"; "crime"; "investigation"; "arrest"; "police"; "court"; "trial"].

Definition knowledgeKeywords : list string :=
  ["technology"; "system"; "network"; "platform"; "infrastructure"; "ecosystem";
   "framework"; "architecture"; "business"; "market"; "industry"; "sector"; "company";
   "startup"; "tech"; "ai"; "software"].

Definition visionKeywords : list string :=
  ["environment"; "climate"; "health"; "medical"; "research"; "study"; "science";
   "discovery"; "nature"; "ecosystem"; "species"; "wellness"; "disease"; "treatment";
   "patient"].

Definition assignSmartDeepDive (article : Article) : option DeepDiveFormat :=
  let article_content := content article in
  let article_category := category article in
  let content := toLowerCase article_content in
  let headline := toLowerCase (String.substring 0 200 content) in
  let category := toLowerCase article_category in
  let hasBiasContent :=
    some (fun keyword => includes content keyword || includes headline keyword) biasKeywords in
  let isPolitical := includes category "politic" || includes category "world" in
  if hasBiasContent || isPolitical then Some BiasRadar
  else
    let hasTimelineContent :=
      some (fun keyword => includes content keyword || includes headline keyword)
        timelineKeywords in
    let isCrimeOrEvent := includes category "crime" || includes headline "timeline" in
    if hasTimelineContent || isCrimeOrEvent then Some EventTimeline
    else
      let hasKnowledgeContent :=
        some (fun keyword => includes content keyword || includes headline keyword)
          knowledgeKeywords in
      let isTechOrBusiness :=
        includes category "tech" || includes category "business"
        || includes category "science" in
      if hasKnowledgeContent || isTechOrBusiness then Some KnowledgeMap
      else
        let hasVisionContent :=
          some (fun keyword => includes content keyword || includes headline keyword)
            visionKeywords in
        let isScienceOrHealth :=
          includes category "science" || includes category "health"
          || includes category "environment" || includes category "wellness" in
        if hasVisionContent || isScienceOrHealth then Some DeepVision
        else
          let isSportsOrEntertainment :=
            includes category "sport" || includes category "entertainment" in
          if isSportsOrEntertainment then Some EventTimeline
          else if isPolitical then Some BiasRadar
          else if isTechOrBusiness then Some KnowledgeMap
          else if isScienceOrHealth then Some DeepVision
          else if (300 <? String.length content)%nat then Some DeepVision
          else Some DeepVision.

Definition getDeepDiveReason (format : option DeepDiveFormat) : string :=
  match format with
  | Some BiasRadar => "Political/opinion content detected - analyze different perspectives"
  | Some EventTimeline => "Sequential events detected - explore chronological progression"
  | Some KnowledgeMap => "Complex interconnected concepts - visualize relationships"
  | Some DeepVision => "Scientific/environmental content - immersive exploration"
  | None => "No deep dive available"
  end.

(** *** The assignment as a cascade on the text and the category

    What the statements compare [assignSmartDeepDive] with: four tests
    in order on the lower-cased content and category, then the sports
    and entertainment categories, then Deep Vision. *)
Definition mentions (kws : list string) (text : string) : bool :=
  some (fun keyword => includes text keyword) kws.

Definition cascade (article : Article) : DeepDiveFormat :=
  let text := toLowerCase (content article) in
  let cat := toLowerCase (category article) in
  if mentions biasKeywords text || (includes cat "politic" || includes cat "world")
  then BiasRadar
  else if mentions timelineKeywords text || includes cat "crime"
  then EventTimeline
  else if mentions knowledgeKeywords text
          || (includes cat "tech" || includes cat "business" || includes cat "science")
  then KnowledgeMap
  else if mentions visionKeywords text
          || (includes cat "health" || includes cat "environment" || includes cat "wellness")
  then DeepVision
  else if includes cat "sport" || includes cat "entertainment"
  then EventTimeline
  else DeepVision.

Definition said_article : Article :=
  {| id := 5; content := "The coach said the squad is ready"; category := "Sports";
     date := None |}.

End SmartDeepDive.

(** ** [aiService.ts]: the keyword classifier *)

Module Classifier.
Import JS JSArray.

(** [Math.min(a, b)]: NaN if an argument is NaN, and [-0] below [+0]. *)
Definition Math_min (a b : float) : float :=
  if PrimFloat.is_nan a || PrimFloat.is_nan b then PrimFloat.nan
  else if PrimFloat.ltb a b then a
  else if PrimFloat.ltb b a then b
  else if PrimFloat.is_zero a && PrimFloat.get_sign a then a
  else b.

Record Alternative := { alt_category : string; alt_confidence : float }.

Record ClassificationResult := {
  result_category : string;
  result_confidence : float;
  alternativeCategories : list Alternative
}.

(** [Object.entries(keywords)], in the order of the literal. *)
Definition keywords : list (string * list string) :=
  [ ("Technology", ["tech"; "software"; "ai"; "artificial intelligence"; "computer"; "digital";
                    "app"; "internet"; "data"]);
    ("Politics", ["election"; "government"; "policy"; "congress"; "president"; "senator";
                  "vote"; "political"; "democrat"; "republican"]);
    ("Business", ["market"; "stock"; "economy"; "company"; "trade"; "finance"; "revenue";
                  "profit"; "investment"; "business"]);
    ("Science", ["research"; "study"; "scientist"; "discovery"; "experiment"; "scientific";
                 "laboratory"; "theory"]);
    ("Health", ["health"; "medical"; "medicine"; "disease"; "doctor"; "hospital"; "patient";
                "treatment"; "wellness"]);
    ("Sports", ["game"; "team"; "player"; "championship"; "league"; "score"; "match";
                "tournament"; "athlete"]);
    ("Entertainment", ["movie"; "film"; "music"; "celebrity"; "show"; "actor"; "entertainment";
                       "concert"; "album"]);
    ("World News", ["international"; "global"; "foreign"; "country"; "nation"; "world";
                    "diplomatic"]);
    ("Environment", ["climate"; "environment"; "green"; "sustainability"; "pollution"; "carbon";
                     "renewable"; "ecology"]);
    ("Crime", ["crime"; "arrest"; "police"; "investigation"; "suspect"; "criminal";
               "law enforcement"; "court"]) ].

(** The inner loop: one point per keyword of the category that occurs
    in the text. *)
Definition score_of (lowerText : string) (categoryKeywords : list string) : nat :=
  fold_left (fun score keyword => if includes lowerText keyword then (score + 1)%nat else score)
    categoryKeywords 0%nat.

(** The [scores] object: its keys are those of [keywords], set in the
    same order. *)
Definition scores_of (lowerText : string) : list (string * nat) :=
  map (fun entry => (fst entry, score_of lowerText (snd entry))) keywords.

Definition capped (score totalScore : nat) : float :=
  Math_min 0.85 (number_of_nat score / number_of_nat totalScore)%float.

Definition keywordBasedClassification (text : string) : ClassificationResult :=
  let lowerText := toLowerCase text in
  let scores := scores_of lowerText in
  let sorted :=
    List.filter (fun entry => (0 <? snd entry)%nat)
      (sort_int (fun a b => (Z.of_nat (snd b) - Z.of_nat (snd a))%Z) scores) in
  match sorted with
  | [] =>
      {| result_category := "World News";
         result_confidence := 0.3%float;
         alternativeCategories := [] |}
  | (topCategory, topScore) :: _ =>
      let totalScore := fold_left (fun sum entry => (sum + snd entry)%nat) sorted 0%nat in
      let confidence := capped topScore totalScore in
      {| result_category := topCategory;
         result_confidence := confidence;
         alternativeCategories :=
           map (fun entry => {| alt_category := fst entry;
                                alt_confidence := capped (snd entry) totalScore |})
             (take 3 (drop 1 sorted)) |}
  end.

(** The entries of [sorted]: the categories with a positive score, the
    highest score first. *)
Definition sorted_scores (text : string) : list (string * nat) :=
  List.filter (fun entry => (0 <? snd entry)%nat)
    (sort_int (fun a b => (Z.of_nat (snd b) - Z.of_nat (snd a))%Z)
       (scores_of (toLowerCase text))).

(** What is checked of the confidences for all scores that can occur: an
    alternative's score [s], the top score [n] and the total [d]. *)
Definition confidence_table : bool :=
  forallb (fun n =>
    forallb (fun s =>
      forallb (fun d =>
        PrimFloat.ltb 0 (capped (S s) (S d))
        && PrimFloat.leb (capped (S s) (S d)) (capped (S s + n) (S d))
        && PrimFloat.leb (capped (S s + n) (S d)) 0.85)
        (seq 0 87))
      (seq 0 10))
    (seq 0 10).


End Classifier.

(** ** [articles.ts]: labels and headlines *)

Module Articles.
Import JS JSString.

(** [getSentimentColor] and [getSentimentLabel]. *)
Definition getSentimentColor (compound : float) : string :=
  if PrimFloat.ltb 0.05 compound then "success"
  else if PrimFloat.ltb compound (-0.05) then "danger"
  else "warning".

Definition getSentimentLabel (compound : float) : string :=
  if PrimFloat.ltb 0.05 compound then "Positive"
  else if PrimFloat.ltb compound (-0.05) then "Negative"
  else "Neutral".

(** [getHeadline]: [sentences[0]], [None] standing for [undefined]. *)
Definition getHeadline (content : string) : option string :=
  let sentences := split ". " content in
  head sentences.

(** [getSummary]: [sentences.slice(1, 3).join(". ")]. *)
Definition getSummary (content : string) : string :=
  let sentences := split ". " content in
  join ". " (take 2 (drop 1 sentences)).

(** The label that goes with a sentiment of the query parser. *)
Definition label_of (s : QueryParser.Sentiment) : string :=
  match s with
  | QueryParser.positive => "Positive"
  | QueryParser.negative => "Negative"
  | QueryParser.neutral => "Neutral"
  end.

(** [drop n] on a string. *)
Fixpoint string_drop (n : nat) (s : string) : string :=
  match n, s with
  | S n', String _ s' => string_drop n' s'
  | _, _ => s
  end.

End Articles.

(** ** [apiKeyManager.ts] *)

Module ApiKeys.

(** [localStorage]: a map from names to strings, threaded through the
    functions that write it. *)
Abbreviation Storage := (gmap string string).

Definition NEWSAPI_KEY : string := "nuvision_newsapi_key".
Definition HF_API_KEY : string := "nuvision_hf_api_key".

Record APIKeys := { newsApiKey : string; huggingFaceKey : string }.

(** A string is truthy when it is not empty; [x || ''] on a string or
    [null]. *)
Definition truthy (s : string) : bool := negb (String.eqb s "").

Definition or_empty (v : option string) : string :=
  match v with
  | Some s => s
  | None => ""
  end.

Definition saveAPIKeys (keys : APIKeys) (localStorage : Storage) : Storage :=
  let localStorage :=
    if truthy (newsApiKey keys) then <[NEWSAPI_KEY := newsApiKey keys]> localStorage
    else localStorage in
  if truthy (huggingFaceKey keys) then <[HF_API_KEY := huggingFaceKey keys]> localStorage
  else localStorage.

Definition loadAPIKeys (localStorage : Storage) : APIKeys :=
  let newsApiKey := or_empty (localStorage !! NEWSAPI_KEY) in
  let huggingFaceKey := or_empty (localStorage !! HF_API_KEY) in
  {| newsApiKey := newsApiKey; huggingFaceKey := huggingFaceKey |}.

Definition clearAPIKeys (localStorage : Storage) : Storage :=
  delete HF_API_KEY (delete NEWSAPI_KEY localStorage).

Section Environment.
(** [import.meta.env.VITE_NEWSAPI_KEY], [None] when it is not set. *)
Variable VITE_NEWSAPI_KEY : option string.

Definition hasNewsAPIKey (localStorage : Storage) : bool :=
  truthy (or_empty VITE_NEWSAPI_KEY) || truthy (or_empty (localStorage !! NEWSAPI_KEY)).

Definition getNewsAPIKey (localStorage : Storage) : string :=
  if truthy (or_empty VITE_NEWSAPI_KEY) then or_empty VITE_NEWSAPI_KEY
  else if truthy (or_empty (localStorage !! NEWSAPI_KEY))
       then or_empty (localStorage !! NEWSAPI_KEY)
       else "".

End Environment.

(** The key that [saveAPIKeys] leaves under a name: the new one, or the
    stored one when the new one is empty. *)
Definition kept (new old : string) : string := if truthy new then new else old.

Definition sample_keys : APIKeys :=
  {| newsApiKey := "0123456789abcdef0123456789abcdef"; huggingFaceKey := "hf_token" |}.

End ApiKeys.

(* ===================================================================== *)
(** * Part II. Properties                                                  *)
(* ===================================================================== *)

(** ** Lists: first occurrences, folds *)

Section ListFacts.
Context {A : Type} `{EqDecision A}.

Lemma elem_of_uniq_from (seen l : list A) (x : A) :
  x ∈ JS.uniq_from seen l ↔ x ∈ l ∧ x ∉ seen.
Proof.
  revert seen; induction l as [|y l IH]; intros seen; simpl.
  - split; [intros H; inversion H | intros [H _]; inversion H].
  - case_bool_decide as Hy.
    + rewrite IH, elem_of_cons. split.
      * intros [? ?]; auto.
      * intros [[-> | ?] ?]; [contradiction | auto].
    + rewrite !elem_of_cons, IH, elem_of_cons. split.
      * intros [-> | [? Hn]]; [auto | ]. split; [auto | ]. intros ?; apply Hn; auto.
      * intros [[-> | Hl] Hn]; [auto | ].
        destruct (decide (x = y)) as [-> | Hne]; [auto | ].
        right. split; [auto | ]. intros [? | ?]; auto.
Qed.

Lemma NoDup_uniq_from (seen l : list A) : NoDup (JS.uniq_from seen l).
Proof.
  revert seen; induction l as [|y l IH]; intros seen; simpl.
  - constructor.
  - case_bool_decide; [apply IH | ].
    constructor; [ | apply IH].
    rewrite elem_of_uniq_from, elem_of_cons. intros [_ Hn]. apply Hn; auto.
Qed.

Lemma elem_of_uniq (l : list A) (x : A) : x ∈ JS.uniq l ↔ x ∈ l.
Proof.
  unfold JS.uniq. rewrite elem_of_uniq_from. split; [tauto | ].
  intros ?; split; [auto | ]. intros H'; inversion H'.
Qed.

Lemma NoDup_uniq (l : list A) : NoDup (JS.uniq l).
Proof. apply NoDup_uniq_from. Qed.

Lemma elem_of_filter_bool (f : A → bool) (l : list A) (x : A) :
  x ∈ List.filter f l ↔ x ∈ l ∧ f x = true.
Proof. rewrite !list_elem_of_In. apply filter_In. Qed.

Lemma filter_length_le (f : A → bool) (l : list A) :
  (length (List.filter f l) ≤ length l)%nat.
Proof. induction l as [|x l IH]; simpl; [lia | destruct (f x); simpl; lia]. Qed.

End ListFacts.

(** ** Arrays and maps in insertion order *)

Module JSArrayFacts.
Import JSArray.

Lemma insert_by_perm {A} (after : A → A → bool) (x : A) (l : list A) :
  insert_by after x l ≡ₚ x :: l.
Proof.
  induction l as [|y l IH]; simpl; [reflexivity | ].
  destruct (after x y); [ | reflexivity].
  rewrite IH. apply Permutation_swap.
Qed.

Lemma sort_by_perm {A} (after : A → A → bool) (l : list A) : sort_by after l ≡ₚ l.
Proof.
  induction l as [|x l IH]; simpl; [reflexivity | ].
  rewrite insert_by_perm. now apply Permutation_skip.
Qed.

Lemma elem_of_sort_by {A} (after : A → A → bool) (l : list A) (x : A) :
  x ∈ sort_by after l ↔ x ∈ l.
Proof. now rewrite sort_by_perm. Qed.

Lemma sort_by_length {A} (after : A → A → bool) (l : list A) :
  length (sort_by after l) = length l.
Proof. now rewrite sort_by_perm. Qed.

(** With a comparator that never asks for [x] behind [y] and for [y]
    behind [x], no element of the sorted array is followed by one the
    comparator wants before it. *)
Lemma insert_by_sorted {A} (after : A → A → bool) (x : A) (l : list A) :
  (∀ a b, after a b = true → after b a = false) →
  Sorted (fun a b => after a b = false) l →
  Sorted (fun a b => after a b = false) (insert_by after x l).
Proof.
  intros Hasym. induction l as [|y l IH]; intros Hs; simpl.
  - repeat constructor.
  - destruct (after x y) eqn:Hxy.
    + apply Sorted_inv in Hs as [Hs Hhd]. constructor; [now apply IH | ].
      destruct l as [|z l]; simpl.
      * constructor. now apply Hasym.
      * destruct (after x z); constructor; [now apply HdRel_inv in Hhd | now apply Hasym].
    + constructor; [exact Hs | constructor; exact Hxy].
Qed.

Lemma sort_by_sorted {A} (after : A → A → bool) (l : list A) :
  (∀ a b, after a b = true → after b a = false) →
  Sorted (fun a b => after a b = false) (sort_by after l).
Proof.
  intros Hasym. induction l as [|x l IH]; simpl; [constructor | ].
  now apply insert_by_sorted.
Qed.

Lemma Sorted_weaken {A} (R R' : A → A → Prop) (l : list A) :
  (∀ a b, R a b → R' a b) → Sorted R l → Sorted R' l.
Proof.
  intros HR Hs. induction Hs as [|x l Hs IH Hhd]; constructor; [exact IH | ].
  destruct Hhd; constructor. now apply HR.
Qed.

Lemma forEach_from_app {A St} (f : St → A → nat → St) (l1 l2 : list A) (i : nat) (st : St) :
  forEach_from f (l1 ++ l2) i st = forEach_from f l2 (i + length l1) (forEach_from f l1 i st).
Proof.
  revert i st; induction l1 as [|x l1 IH]; intros i st; simpl.
  - now rewrite Nat.add_0_r.
  - rewrite IH. f_equal. lia.
Qed.

Section MapFacts.
Context {K V : Type} `{EqDecision K}.

(** [Map.set] with a key that is not there appends the entry. *)
Lemma map_set_fresh (m : list (K * V)) (k : K) (v : V) :
  k ∉ map fst m → map_set m k v = m ++ [(k, v)].
Proof.
  induction m as [|[k' v'] m IH]; simpl; intros Hk; [reflexivity | ].
  rewrite not_elem_of_cons in Hk. destruct Hk as [Hne Hk].
  destruct (decide (k = k')); [contradiction | ]. now rewrite IH.
Qed.

Lemma map_get_set (m : list (K * V)) (k k' : K) (v : V) :
  map_get (map_set m k v) k' = if decide (k' = k) then Some v else map_get m k'.
Proof.
  induction m as [|[k0 v0] m IH]; simpl.
  - destruct (decide (k' = k)); reflexivity.
  - destruct (decide (k = k0)) as [-> | Hne]; simpl.
    + destruct (decide (k' = k0)); reflexivity.
    + destruct (decide (k' = k0)) as [-> | Hne'].
      * destruct (decide (k0 = k)); [congruence | reflexivity].
      * exact IH.
Qed.

Lemma map_get_elem (m : list (K * V)) (k : K) (v : V) :
  map_get m k = Some v → (k, v) ∈ m.
Proof.
  induction m as [|[k0 v0] m IH]; simpl; [discriminate | ].
  destruct (decide (k = k0)) as [-> | Hne].
  - intros [= ->]. now left.
  - intros H. right. now apply IH.
Qed.

Lemma elem_of_map_set (m : list (K * V)) (k k' : K) (v v' : V) :
  (k', v') ∈ map_set m k v → (k' = k ∧ v' = v) ∨ (k', v') ∈ m.
Proof.
  induction m as [|[k0 v0] m IH]; simpl.
  - intros H. apply list_elem_of_singleton in H. injection H as -> ->. now left.
  - destruct (decide (k = k0)) as [-> | Hne]; intros H;
      apply elem_of_cons in H as [H | H].
    + injection H as -> ->. now left.
    + right. now right.
    + right. rewrite H. now left.
    + destruct (IH H) as [? | ?]; [now left | right; now right].
Qed.

Lemma map_set_keys (m : list (K * V)) (k : K) (v : V) :
  map fst (map_set m k v) = if bool_decide (k ∈ map fst m) then map fst m else map fst m ++ [k].
Proof.
  induction m as [|[k0 v0] m IH]; simpl; [reflexivity | ].
  destruct (decide (k = k0)) as [-> | Hne]; simpl.
  - rewrite bool_decide_eq_true_2 by now left. reflexivity.
  - rewrite IH. destruct (bool_decide (k ∈ map fst m)) eqn:Hk.
    + apply bool_decide_eq_true in Hk. rewrite bool_decide_eq_true_2 by now right. reflexivity.
    + apply bool_decide_eq_false in Hk.
      rewrite bool_decide_eq_false_2; [reflexivity | ].
      intros H. apply elem_of_cons in H as [? | ?]; contradiction.
Qed.

Lemma map_set_keys_NoDup (m : list (K * V)) (k : K) (v : V) :
  NoDup (map fst m) → NoDup (map fst (map_set m k v)).
Proof.
  intros Hnd. rewrite map_set_keys. case_bool_decide as Hk; [exact Hnd | ].
  apply NoDup_app. split; [exact Hnd | split].
  - intros x Hx Hx'. apply list_elem_of_singleton in Hx'. now subst x.
  - apply NoDup_singleton.
Qed.

Lemma map_get_of_elem (m : list (K * V)) (k : K) (v : V) :
  NoDup (map fst m) → (k, v) ∈ m → map_get m k = Some v.
Proof.
  induction m as [|[k0 v0] m IH]; simpl; intros Hnd Hin; [inversion Hin | ].
  apply NoDup_cons in Hnd as [Hk0 Hnd].
  apply elem_of_cons in Hin as [Heq | Hin].
  - injection Heq as -> ->. rewrite decide_True by reflexivity. reflexivity.
  - destruct (decide (k = k0)) as [-> | Hne]; [ | now apply IH].
    exfalso. apply Hk0. apply list_elem_of_In, in_map_iff. exists (k0, v).
    split; [reflexivity | now apply list_elem_of_In].
Qed.

End MapFacts.

End JSArrayFacts.

(** ** Order facts on binary64 numbers *)

Module NumberFacts.

(** A number below [-20] is not above [20]. *)
Lemma below_minus_20_not_above_20 (x : float) :
  PrimFloat.ltb x (-20) = true → PrimFloat.ltb 20 x = false.
Proof.
  rewrite !FloatAxioms.ltb_spec.
  change (Prim2SF (-20)) with (S754_finite true 5629499534213120 (-48)).
  change (Prim2SF 20) with (S754_finite false 5629499534213120 (-48)).
  unfold SFltb, SFcompare.
  destruct (Prim2SF x) as [s | s | | s m e]; try destruct s; intros H;
    first [reflexivity | discriminate H].
Qed.

(** The result of rounding a negative or null integer is not above 0. *)
Lemma normalize_nonpos_not_positive (d e : Z) :
  (d <= 0)%Z →
  SFltb (S754_zero false) (binary_normalize prec emax d e false) = false.
Proof.
  intros Hd. destruct d as [|p|p]; [reflexivity | lia | ].
  unfold binary_normalize, binary_round, binary_round_aux.
  destruct (shl_align p e _) as [mz ez].
  destruct (shr_fexp prec emax (Z.pos mz) ez loc_Exact) as [mrs' e'].
  destruct (shr_fexp prec emax _ e' loc_Exact) as [mrs'' e''].
  destruct (shr_m mrs''); [reflexivity | | reflexivity].
  destruct (e'' <=? emax - prec)%Z; reflexivity.
Qed.

Lemma SFsub_finite_asym (mx my : positive) (ex ey : Z) :
  SFltb (S754_zero false)
    (SFsub prec emax (S754_finite false my ey) (S754_finite false mx ex)) = true →
  SFltb (S754_zero false)
    (SFsub prec emax (S754_finite false mx ex) (S754_finite false my ey)) = false.
Proof.
  cbv beta iota delta [SFsub cond_Zopp]. rewrite (Z.min_comm ex ey).
  set (ez := Z.min ey ex).
  set (zx := Z.pos (fst (shl_align mx ex ez))).
  set (zy := Z.pos (fst (shl_align my ey ez))).
  intros H. apply normalize_nonpos_not_positive.
  destruct (Z_le_gt_dec (zy - zx) 0) as [Hle | Hgt]; [ | lia].
  rewrite normalize_nonpos_not_positive in H by exact Hle. discriminate H.
Qed.

Lemma SFsub_positive_asym (x y : spec_float) :
  SFltb (S754_zero false) (SFsub prec emax (SFabs y) (SFabs x)) = true →
  SFltb (S754_zero false) (SFsub prec emax (SFabs x) (SFabs y)) = false.
Proof.
  destruct x as [sx | sx | | sx mx ex], y as [sy | sy | | sy my ey];
    cbv beta iota delta [SFabs];
    try apply SFsub_finite_asym;
    intros H; first [reflexivity | discriminate H].
Qed.

(** The comparator [|b| - |a|] never asks for both orders. *)
Lemma abs_difference_asym (a b : float) :
  PrimFloat.ltb 0 (PrimFloat.abs b - PrimFloat.abs a) = true →
  PrimFloat.ltb 0 (PrimFloat.abs a - PrimFloat.abs b) = false.
Proof.
  rewrite !FloatAxioms.ltb_spec, !FloatAxioms.sub_spec, !FloatAxioms.abs_spec.
  change (Prim2SF 0) with (S754_zero false).
  apply SFsub_positive_asym.
Qed.

(** *** Rounding never turns a positive difference into 0 *)

Section Shifts.
Local Open Scope Z_scope.

Lemma shr_1_m (r : shr_record) : 0 <= shr_m r → shr_m (shr_1 r) = Z.shiftr (shr_m r) 1.
Proof.
  destruct r as [m rb sb]. cbn [shr_m]. intros Hm.
  destruct m as [|[p|p|]|p]; try reflexivity; lia.
Qed.

Lemma shr_1_nonneg (r : shr_record) : 0 <= shr_m r → 0 <= shr_m (shr_1 r).
Proof.
  intros Hm. rewrite shr_1_m by exact Hm. now apply Z.shiftr_nonneg.
Qed.

Lemma iter_pos_shr_1 (p : positive) (r : shr_record) :
  0 <= shr_m r →
  shr_m (SpecFloat.iter_pos shr_1 p r) = Z.shiftr (shr_m r) (Z.pos p)
  ∧ 0 <= shr_m (SpecFloat.iter_pos shr_1 p r).
Proof.
  revert r; induction p as [p IH | p IH | ]; intros r Hm; cbn [SpecFloat.iter_pos].
  - pose proof (shr_1_nonneg r Hm) as H1.
    destruct (IH (shr_1 r) H1) as [E2 H2].
    destruct (IH _ H2) as [E3 H3].
    split; [ | exact H3].
    rewrite E3, E2, shr_1_m by exact Hm.
    rewrite !Z.shiftr_shiftr by lia. f_equal. lia.
  - destruct (IH r Hm) as [E2 H2].
    destruct (IH _ H2) as [E3 H3].
    split; [ | exact H3].
    rewrite E3, E2. rewrite !Z.shiftr_shiftr by lia. f_equal. lia.
  - split; [now apply shr_1_m | now apply shr_1_nonneg].
Qed.

Lemma digits2_pos_bounds (m : positive) :
  2 ^ (Z.pos (digits2_pos m) - 1) <= Z.pos m < 2 ^ Z.pos (digits2_pos m).
Proof.
  induction m as [m IH | m IH | ]; cbn [digits2_pos].
  - rewrite Pos2Z.inj_succ. replace (Z.succ (Z.pos (digits2_pos m)) - 1) with
      (Z.succ (Z.pos (digits2_pos m) - 1)) by lia.
    rewrite !Z.pow_succ_r by lia. lia.
  - rewrite Pos2Z.inj_succ. replace (Z.succ (Z.pos (digits2_pos m)) - 1) with
      (Z.succ (Z.pos (digits2_pos m) - 1)) by lia.
    rewrite !Z.pow_succ_r by lia. lia.
  - cbn. lia.
Qed.

Lemma shr_record_of_loc_m (m : Z) (l : location) : shr_m (shr_record_of_loc m l) = m.
Proof. destruct l as [|[| |]]; reflexivity. Qed.

Section Rounding.
Variable prec emax : Z.
Hypothesis prec_pos : 0 < prec.

Local Abbreviation fexp := (SpecFloat.fexp prec emax).
Local Abbreviation emin := (SpecFloat.emin prec emax).

(** Shifting a positive mantissa to its canonical exponent leaves it
    positive, when the exponent is not below [emin]. *)
Lemma shr_fexp_positive (m : positive) (e : Z) (l : location) :
  emin <= e →
  0 < shr_m (fst (shr_fexp prec emax (Z.pos m) e l))
  ∧ emin <= snd (shr_fexp prec emax (Z.pos m) e l).
Proof.
  intros He. unfold shr_fexp, shr. cbn [Zdigits2].
  set (d := Z.pos (digits2_pos m)).
  set (n := SpecFloat.fexp prec emax (d + e) - e).
  assert (Hn : n <= d - 1).
  { subst n. unfold SpecFloat.fexp. fold emin. lia. }
  assert (Hfe : emin <= e + n).
  { subst n. unfold SpecFloat.fexp. fold emin. lia. }
  destruct n as [|q|q] eqn:En; cbn [fst snd]; rewrite ?shr_record_of_loc_m;
    try (split; lia).
  destruct (iter_pos_shr_1 q (shr_record_of_loc (Z.pos m) l)) as [E _].
  { rewrite shr_record_of_loc_m. lia. }
  rewrite E, shr_record_of_loc_m, Z.shiftr_div_pow2 by lia.
  split; [ | exact Hfe].
  apply Z.div_str_pos. split; [apply Z.pow_pos_nonneg; lia | ].
  pose proof (digits2_pos_bounds m) as [Hlb _]. fold d in Hlb.
  transitivity (2 ^ (d - 1)); [ | exact Hlb].
  apply Z.pow_le_mono_r; lia.
Qed.

Lemma round_nearest_even_positive (m : Z) (l : location) :
  0 < m → 0 < round_nearest_even m l.
Proof.
  intros Hm. unfold round_nearest_even.
  destruct l as [|[| |]]; try lia. destruct (Z.even m); lia.
Qed.

(** Rounding a positive mantissa gives a number above 0. *)
Lemma binary_round_aux_positive (m : positive) (e : Z) (l : location) :
  emin <= e →
  SFltb (S754_zero false) (binary_round_aux prec emax false (Z.pos m) e l) = true.
Proof.
  intros He. unfold binary_round_aux.
  pose proof (shr_fexp_positive m e l He) as [H1 H1e].
  destruct (shr_fexp prec emax (Z.pos m) e l) as [mrs' e']. cbn [fst snd] in H1, H1e.
  pose proof (round_nearest_even_positive (shr_m mrs') (loc_of_shr_record mrs') H1) as H2.
  destruct (round_nearest_even (shr_m mrs') (loc_of_shr_record mrs')) as [|m1|m1]; try lia.
  pose proof (shr_fexp_positive m1 e' loc_Exact H1e) as [H3 _].
  destruct (shr_fexp prec emax (Z.pos m1) e' loc_Exact) as [mrs'' e'']. cbn [fst] in H3.
  destruct (shr_m mrs'') as [|m2|m2]; try lia.
  destruct (e'' <=? emax - prec); reflexivity.
Qed.

Lemma shl_align_value (m : positive) (e e' : Z) :
  e' <= e → Z.pos (fst (shl_align m e e')) = Z.pos m * 2 ^ (e - e').
Proof.
  intros He. unfold shl_align.
  destruct (e' - e) as [|d|d] eqn:Ed; cbn [fst]; try lia.
  - replace (e - e') with 0 by lia. lia.
  - replace (e - e') with (Z.pos d) by lia.
    change (Pos.iter xO m d) with (shift_pos d m).
    rewrite shift_pos_correct, Z.pow_pos_fold. lia.
Qed.

Lemma shl_align_exponent (m : positive) (e e' : Z) :
  emin <= e → emin <= e' → emin <= snd (shl_align m e e').
Proof.
  intros He He'. unfold shl_align. destruct (e' - e); cbn [snd]; lia.
Qed.

(** Rounding a positive integer gives a number above 0. *)
Lemma binary_normalize_positive (d e : Z) :
  0 < d → emin <= e →
  SFltb (S754_zero false) (binary_normalize prec emax d e false) = true.
Proof.
  intros Hd He. destruct d as [|p|p]; try lia.
  unfold binary_normalize, binary_round.
  pose proof (shl_align_exponent p e (SpecFloat.fexp prec emax (Z.pos (digits2_pos p) + e)) He)
    as Hz.
  destruct (shl_align p e _) as [mz ez]. cbn [snd] in Hz.
  apply binary_round_aux_positive. apply Hz.
  unfold SpecFloat.fexp. fold emin. lia.
Qed.

(** A valid finite number has a mantissa of at most [prec] digits, of
    exactly [prec] digits above the least exponent [emin]. *)
Lemma bounded_digits (m : positive) (e : Z) :
  bounded prec emax m e = true →
  emin <= e
  ∧ Z.pos (digits2_pos m) <= prec
  ∧ (emin < e → Z.pos (digits2_pos m) = prec).
Proof.
  unfold bounded, canonical_mantissa. intros H.
  apply andb_prop in H as [H _]. apply Z.eqb_eq in H.
  unfold SpecFloat.fexp in H. fold emin in H. lia.
Qed.

(** Of two valid non-negative finite numbers, the difference of the
    larger and the smaller is above 0. *)
Lemma SFsub_finite_positive (mx my : positive) (ex ey : Z) :
  bounded prec emax mx ex = true → bounded prec emax my ey = true →
  SFltb (S754_finite false mx ex) (S754_finite false my ey) = true →
  SFltb (S754_zero false)
    (SFsub prec emax (S754_finite false my ey) (S754_finite false mx ex)) = true.
Proof.
  intros Hx Hy Hlt.
  apply bounded_digits in Hx as (Hex & Hdx & _).
  apply bounded_digits in Hy as (Hey & Hdy & Hny).
  cbv beta iota delta [SFsub cond_Zopp].
  apply binary_normalize_positive; [ | lia].
  rewrite !shl_align_value by lia.
  pose proof (digits2_pos_bounds mx) as [_ Hux].
  pose proof (digits2_pos_bounds my) as [Hly _].
  unfold SFltb, SFcompare in Hlt.
  change (Pos.compare_cont Eq mx my) with (mx ?= my)%positive in Hlt.
  destruct (ex ?= ey) eqn:Hc.
  - apply Z.compare_eq in Hc. subst ey.
    rewrite Z.min_id, Z.sub_diag. cbn [Z.pow].
    destruct (mx ?= my)%positive eqn:Hm; try discriminate Hlt.
    rewrite Pos.compare_lt_iff in Hm. change (2 ^ 0) with 1. lia.
  - rewrite Z.compare_lt_iff in Hc.
    rewrite Z.min_r by lia. rewrite Z.sub_diag. change (2 ^ 0) with 1.
    specialize (Hny ltac:(lia)). rewrite Hny in Hly.
    assert (H2 : 2 ^ 1 <= 2 ^ (ey - ex)) by (apply Z.pow_le_mono_r; lia).
    assert (Hp : 2 ^ Z.pos (digits2_pos mx) <= 2 ^ prec) by (apply Z.pow_le_mono_r; lia).
    assert (Hs : 2 ^ prec = 2 * 2 ^ (prec - 1)).
    { replace prec with (Z.succ (prec - 1)) at 1 by lia. apply Z.pow_succ_r. lia. }
    change (2 ^ 1) with 2 in H2. nia.
  - discriminate Hlt.
Qed.

(** Of two valid numbers, none a NaN: when [|a| < |b|] the difference
    [|b| - |a|] is above 0. *)
Lemma SFsub_abs_positive (x y : spec_float) :
  SpecFloat.valid_binary prec emax x = true → SpecFloat.valid_binary prec emax y = true →
  SFltb (SFabs x) (SFabs y) = true →
  SFltb (S754_zero false) (SFsub prec emax (SFabs y) (SFabs x)) = true.
Proof.
  intros Hx Hy.
  destruct x as [sx | sx | | sx mx ex], y as [sy | sy | | sy my ey];
    cbv beta iota delta [SFabs];
    try (intros H; first [discriminate H | reflexivity]).
  now apply SFsub_finite_positive.
Qed.

End Rounding.

(** In binary64: when [|a| < |b|], the comparator value [|b| - |a|] is
    above 0. *)
Lemma abs_difference_positive (a b : float) :
  PrimFloat.ltb (PrimFloat.abs a) (PrimFloat.abs b) = true →
  PrimFloat.ltb 0 (PrimFloat.abs b - PrimFloat.abs a) = true.
Proof.
  rewrite !FloatAxioms.ltb_spec, !FloatAxioms.sub_spec, !FloatAxioms.abs_spec.
  change (Prim2SF 0) with (S754_zero false).
  apply SFsub_abs_positive; [reflexivity | apply Prim2SF_valid | apply Prim2SF_valid].
Qed.

End Shifts.

End NumberFacts.

(** ** [detectAmbiguity]: what the four checks accumulate *)

Module QueryParserFacts.
Import JS QueryParser QueryParserSpec.

Lemma iter_add_shift (c : float) (n : nat) (x : float) :
  Nat.iter n (fun p => (p + c)%float) (x + c)%float
  = (Nat.iter n (fun p => (p + c)%float) x + c)%float.
Proof. induction n as [|n IH]; simpl; [reflexivity | now rewrite IH]. Qed.

Lemma entity_step_eq (query lq : string) (st : Scan) (term : string)
    (opts : list AmbiguityOption) :
  entity_step query lq st (term, opts)
  = if includes lq term
    then {| scan_terms := scan_terms st ++ [term];
            scan_options := scan_options st ++ opts;
            scan_suggestions :=
              scan_suggestions st
              ++ map (fun opt => replace_all_ci term (first_word (label opt)) query) opts;
            scan_penalty := (scan_penalty st + 0.2)%float |}
    else st.
Proof. reflexivity. Qed.

(** The entity loop, field by field. *)
Lemma entity_fold (query lq : string) (es : list (string * list AmbiguityOption)) (st : Scan) :
  scan_terms (fold_left (entity_step query lq) es st)
    = scan_terms st ++ map fst (List.filter (entity_hit lq) es)
  ∧ scan_options (fold_left (entity_step query lq) es st)
    = scan_options st ++ concat (map snd (List.filter (entity_hit lq) es))
  ∧ scan_suggestions (fold_left (entity_step query lq) es st)
    = scan_suggestions st ++ entity_suggestions query (List.filter (entity_hit lq) es)
  ∧ scan_penalty (fold_left (entity_step query lq) es st)
    = Nat.iter (length (List.filter (entity_hit lq) es)) (fun p => (p + 0.2)%float)
        (scan_penalty st).
Proof.
  revert st; induction es as [|[term opts] es IH]; intros st.
  - simpl. rewrite !app_nil_r. auto.
  - cbn [fold_left List.filter]. rewrite entity_step_eq.
    change (entity_hit lq (term, opts)) with (includes lq term).
    destruct (includes lq term) eqn:Hhit; [ | apply IH].
    match goal with
    | |- context [fold_left _ es ?s] => destruct (IH s) as (H1 & H2 & H3 & H4)
    end.
    cbn [scan_terms scan_options scan_suggestions scan_penalty] in H1, H2, H3, H4.
    rewrite H1, H2, H3, H4. unfold entity_suggestions.
    cbn [map concat length Nat.iter fst snd].
    rewrite iter_add_shift, <- !app_assoc. auto.
Qed.

(** The vague-term loop, field by field. *)
Lemma vague_fold (words : list string) (vs : list string) (st : Scan) :
  scan_terms (fold_left (vague_step words) vs st)
    = scan_terms st ++ List.filter (array_includes words) vs
  ∧ scan_options (fold_left (vague_step words) vs st) = scan_options st
  ∧ scan_suggestions (fold_left (vague_step words) vs st) = scan_suggestions st
  ∧ scan_penalty (fold_left (vague_step words) vs st)
    = Nat.iter (length (List.filter (array_includes words) vs)) (fun p => (p + 0.1)%float)
        (scan_penalty st).
Proof.
  revert st; induction vs as [|v vs IH]; intros st.
  - simpl. rewrite app_nil_r. auto.
  - cbn [fold_left List.filter]. unfold vague_step at 2 4 6 8.
    destruct (array_includes words v) eqn:Hhit; [ | apply IH].
    match goal with
    | |- context [fold_left _ vs ?s] => destruct (IH s) as (H1 & H2 & H3 & H4)
    end.
    cbn [scan_terms scan_options scan_suggestions scan_penalty] in H1, H2, H3, H4.
    rewrite H1, H2, H3, H4.
    cbn [length Nat.iter].
    rewrite iter_add_shift, <- !app_assoc. auto.
Qed.

(** The accumulators of a query in closed form. *)
Lemma scan_query_fields (query : string) :
  let lq := toLowerCase query in
  let words := split_ws lq in
  let st := scan_query query in
  scan_terms st = map fst (entity_hits lq) ++ vague_hits words
  ∧ scan_options st = concat (map snd (entity_hits lq))
  ∧ scan_suggestions st =
      entity_suggestions query (entity_hits lq)
      ++ (if is_multi lq
          then ["Show me " +:+ default "undefined" (head (extractCategories lq))
                +:+ " news specifically"]
          else [])
  ∧ scan_penalty st =
      penalty_of (length (entity_hits lq)) (length (vague_hits words))
        (is_short words) (is_multi lq).
Proof.
  intros lq words st. subst st. unfold scan_query. fold lq. fold words.
  destruct (entity_fold query lq AMBIGUOUS_ENTITIES scan0) as (E1 & E2 & E3 & E4).
  fold (entity_hits lq) in E1, E2, E3, E4.
  cbn [scan0 scan_terms scan_options scan_suggestions scan_penalty app] in E1, E2, E3, E4.
  set (st1 := fold_left (entity_step query lq) AMBIGUOUS_ENTITIES scan0) in *.
  destruct (vague_fold words VAGUE_TERMS st1) as (V1 & V2 & V3 & V4).
  fold (vague_hits words) in V1, V4.
  set (st2 := fold_left (vague_step words) VAGUE_TERMS st1) in *.
  unfold category_step, short_step, penalty_of, is_short, is_multi.
  destruct (length words <=? 2)%nat; destruct (2 <? length (extractCategories lq))%nat;
    cbn [scan_terms scan_options scan_suggestions scan_penalty];
    rewrite ?V1, ?V2, ?V3, ?V4, ?E1, ?E2, ?E3, ?E4, ?app_nil_r; auto.
Qed.

Lemma entity_hits_le (lq : string) : (length (entity_hits lq) ≤ 7)%nat.
Proof. apply (filter_length_le (entity_hit lq) AMBIGUOUS_ENTITIES). Qed.

Lemma vague_hits_le (words : list string) : (length (vague_hits words) ≤ 8)%nat.
Proof. apply (filter_length_le (array_includes words) VAGUE_TERMS). Qed.

(** Every penalty the four checks can add up to, evaluated. *)
Lemma all_penalties_in_range : all_penalties score_in_range 0 = true.
Proof. vm_compute. reflexivity. Qed.

Lemma all_penalties_spec (P : float → bool) (kmin k j : nat) (short multi : bool) :
  all_penalties P kmin = true →
  (kmin ≤ k ≤ 7)%nat → (j ≤ 8)%nat →
  P (penalty_of k j short multi) = true.
Proof.
  unfold all_penalties. intros H Hk Hj.
  rewrite forallb_forall in H. specialize (H k).
  rewrite forallb_forall in H. specialize (H ltac:(apply in_seq; lia) j).
  rewrite forallb_forall in H. specialize (H ltac:(apply in_seq; lia) short).
  rewrite forallb_forall in H.
  apply H; [destruct short | destruct multi]; simpl; auto.
Qed.


Lemma score_in_range_query (query : string) :
  score_in_range (scan_penalty (scan_query query)) = true.
Proof.
  destruct (scan_query_fields query) as (_ & _ & _ & ->).
  apply (all_penalties_spec score_in_range 0).
  - exact all_penalties_in_range.
  - pose proof (entity_hits_le (toLowerCase query)). lia.
  - apply vague_hits_le.
Qed.

(** C5. For every query string and document collection, [detectAmbiguity]
    returns a confidence in the closed interval [0.1, 1.0], never 0, and a
    clarity score equal to [Math.round(confidence * 10)], which lies in
    [1, 10].  The numbers are the binary64 values the source computes. *)
Theorem detectAmbiguity_confidence_range (query : string) (articles : list Article) :
  let r := detectAmbiguity query articles in
  PrimFloat.leb 0.1 (confidence r) = true
  ∧ PrimFloat.leb (confidence r) 1 = true
  ∧ PrimFloat.ltb 0 (confidence r) = true
  ∧ clarityScore r = Math_round (confidence r * 10)%float
  ∧ PrimFloat.leb 1 (clarityScore r) = true
  ∧ PrimFloat.leb (clarityScore r) 10 = true.
Proof.
  intros r. subst r. unfold detectAmbiguity.
  cbn [confidence clarityScore].
  pose proof (score_in_range_query query) as H.
  unfold score_in_range, confidence_of in H.
  repeat (apply andb_prop in H; destruct H as [H ?]).
  repeat split; auto.
Qed.


(** With an entity hit, every reachable confidence is at most 0.8. *)
Lemma all_penalties_entity :
  all_penalties (fun p => PrimFloat.leb (confidence_of p) 0.8) 1 = true.
Proof. vm_compute. reflexivity. Qed.

Lemma vague_terms_not_entities :
  forallb (fun v => negb (bool_decide (v ∈ map fst AMBIGUOUS_ENTITIES))) VAGUE_TERMS = true.
Proof. vm_compute. reflexivity. Qed.

Lemma elem_of_map_fst_filter {B} (f : string * B → bool) (l : list (string * B)) (k : string) :
  k ∈ map fst (List.filter f l) → k ∈ map fst l.
Proof.
  rewrite !list_elem_of_In, !in_map_iff. intros (e & <- & He).
  apply filter_In in He as [He _]. eauto.
Qed.

(** C9. Entity terms are matched as raw substrings of the lower-cased
    query: when an entity-table word occurs anywhere in it, also inside a
    longer word as [apple] in [pineapple], the term is reported in
    [ambiguousTerms], its options are among the returned options, and
    the penalty carries 0.2 for it (one 0.2 per entity hit, so the
    confidence is at most 0.8).  Vague terms are matched only as whole
    white-space separated words. *)
Theorem entity_terms_match_as_substrings
    (query : string) (articles : list Article)
    (term : string) (opts : list AmbiguityOption) :
  (term, opts) ∈ AMBIGUOUS_ENTITIES →
  includes (toLowerCase query) term = true →
  let r := detectAmbiguity query articles in
  let lq := toLowerCase query in
  term ∈ ambiguousTerms r
  ∧ (∀ o, o ∈ opts → o ∈ options r)
  ∧ (1 ≤ length (entity_hits lq))%nat
  ∧ scan_penalty (scan_query query)
    = penalty_of (length (entity_hits lq)) (length (vague_hits (split_ws lq)))
        (is_short (split_ws lq)) (is_multi lq)
  ∧ PrimFloat.leb (confidence r) 0.8 = true
  ∧ (∀ v, v ∈ VAGUE_TERMS → (v ∈ ambiguousTerms r ↔ v ∈ split_ws lq)).
Proof.
  intros Hin Hhit r lq. subst r. unfold detectAmbiguity.
  cbn [ambiguousTerms options confidence].
  destruct (scan_query_fields query) as (T & O & _ & P). fold lq in T, O, P.
  assert (Hentry : (term, opts) ∈ entity_hits lq).
  { apply elem_of_filter_bool. split; [exact Hin | exact Hhit]. }
  assert (Hlen : (1 ≤ length (entity_hits lq))%nat).
  { destruct (entity_hits lq); [inversion Hentry | simpl; lia]. }
  split; [ | split; [ | split; [exact Hlen | split; [exact P | split]]]].
  - rewrite T, elem_of_app. left.
    rewrite list_elem_of_In. apply in_map_iff. exists (term, opts).
    split; [reflexivity | now apply list_elem_of_In].
  - intros o Ho. rewrite O, list_elem_of_In. apply in_concat.
    exists opts. split; [ | now apply list_elem_of_In].
    apply in_map_iff. exists (term, opts). split; [reflexivity | now apply list_elem_of_In].
  - rewrite P.
    apply (all_penalties_spec (fun p => PrimFloat.leb (confidence_of p) 0.8) 1).
    + exact all_penalties_entity.
    + pose proof (entity_hits_le lq). lia.
    + apply vague_hits_le.
  - intros v Hv. rewrite T, elem_of_app. unfold vague_hits.
    rewrite elem_of_filter_bool. unfold array_includes.
    rewrite bool_decide_eq_true. split.
    + intros [He | [_ Hw]]; [ | exact Hw].
      exfalso. apply elem_of_map_fst_filter in He.
      pose proof vague_terms_not_entities as Hd.
      rewrite forallb_forall in Hd.
      specialize (Hd v ltac:(now apply list_elem_of_In)).
      apply negb_true_iff, bool_decide_eq_false in Hd. contradiction.
    + intros Hw. right. split; assumption.
Qed.

(** The input of C9's example: [apple] inside [pineapple], and [news]
    inside [newspaper], which is not a word of the query. *)
Lemma entity_terms_match_as_substrings_witness :
  let r := detectAmbiguity "Fresh pineapple newspaper" [] in
  ("apple" ∈ ambiguousTerms r)
  ∧ ("news" ∉ ambiguousTerms r)
  ∧ PrimFloat.leb (confidence r) 0.8 = true.
Proof.
  assert (Hin : ("apple", [ mkOpt "Apple Inc. (Technology)" "apple_tech" "Tech company, iPhone, Mac" 0.8;
                            mkOpt "Apple (Fruit)" "apple_fruit" "The fruit" 0.2 ])
                ∈ AMBIGUOUS_ENTITIES) by (unfold AMBIGUOUS_ENTITIES; apply elem_of_cons; left; reflexivity).
  destruct (entity_terms_match_as_substrings "Fresh pineapple newspaper" [] _ _ Hin eq_refl)
    as (H1 & _ & _ & _ & H5 & H6).
  split; [exact H1 | split; [ | exact H5]].
  intros Hn. apply (H6 "news") in Hn.
  - vm_compute in Hn. apply list_elem_of_In in Hn. simpl in Hn.
    repeat (destruct Hn as [Hn | Hn]; [discriminate Hn | ]). exact Hn.
  - unfold VAGUE_TERMS. apply list_elem_of_In. simpl. auto.
Defined.


(** *** Suggestions *)





(** The scenario of the specification: the one-word query [apple] is
    ambiguous, with confidence 0.65 and both senses among the options. *)
Example apple_scenario :
  let r := detectAmbiguity "apple" [] in
  isAmbiguous r = true
  ∧ confidence r = 0.65%float
  ∧ clarityScore r = 7%float
  ∧ map label (options r) = ["Apple Inc. (Technology)"; "Apple (Fruit)"]
  ∧ ambiguousTerms r = ["apple"].
Proof. vm_compute. repeat split; reflexivity. Qed.

(** *** [generateResponse] *)

Section ResponseFacts.
Variable now : Z.
Variable toDateString toLocaleDateString : Z → string.

Local Abbreviation response := (generateResponse now toDateString toLocaleDateString).
Local Abbreviation found := (found_sentence now toDateString toLocaleDateString).

(** C7, as the code has it.  With an empty result list the response is
    the no-results sentence whatever the intent.  With a non-empty list
    the intents [summarize] and [analyze] get their closing clause
    after the found-sentence; [compare] gets its clause when there are
    at least two results, and none with a single result; [search] and
    [filter] get none. *)
Theorem generateResponse_closing_clause (query : ParsedQuery) (results : list Article) :
  (length results = 0%nat → response query results = no_results_sentence)
  ∧ ((0 < length results)%nat →
     intent query = summarize ∨ intent query = analyze →
     response query results = found query results +:+ closing_clause (intent query))
  ∧ ((1 < length results)%nat →
     intent query = compare →
     response query results = found query results +:+ closing_clause compare)
  ∧ (length results = 1%nat →
     intent query = compare →
     response query results = found query results)
  ∧ ((0 < length results)%nat →
     intent query = search ∨ intent query = filter →
     response query results = found query results).
Proof.
  unfold generateResponse.
  split; [ | split; [ | split; [ | split]]].
  - intros ->. reflexivity.
  - intros Hn [Hi | Hi]; rewrite Hi; cbn [closing_clause];
      destruct (length results) as [|n]; [lia | reflexivity | lia | reflexivity].
  - intros Hn Hi; rewrite Hi; cbn [closing_clause].
    destruct (length results) as [|[|n]]; [lia | lia | reflexivity].
  - intros Hn Hi. rewrite Hi, Hn. reflexivity.
  - intros Hn [Hi | Hi]; rewrite Hi;
      destruct (length results) as [|n]; [lia | reflexivity | lia | reflexivity].
Qed.

End ResponseFacts.

Lemma generateResponse_closing_clause_witness :
  generateResponse 0 (fun _ => "") (fun _ => "")
    {| intent := summarize; filters := no_filters; originalQuery := "summary" |}
    [one_article]
  = "Found 1 article. I can provide a summary of these articles.".
Proof.
  destruct (generateResponse_closing_clause 0 (fun _ => "") (fun _ => "")
              {| intent := summarize; filters := no_filters; originalQuery := "summary" |}
              [one_article]) as (_ & H & _).
  rewrite H; [reflexivity | simpl; lia | left; reflexivity].
Defined.

(** C7 as stated fails for [compare] with exactly one result: the list
    is not empty and no closing clause is appended. *)
Lemma compare_single_result_no_clause :
  [one_article] ≠ []
  ∧ intent compare_query = compare
  ∧ generateResponse 0 (fun _ => "") (fun _ => "") compare_query [one_article]
    = "Found 1 article."
  ∧ generateResponse 0 (fun _ => "") (fun _ => "") compare_query [one_article]
    ≠ found_sentence 0 (fun _ => "") (fun _ => "") compare_query [one_article]
      +:+ closing_clause (intent compare_query).
Proof.
  split; [discriminate | split; [reflexivity | split; [reflexivity | ]]].
  vm_compute. discriminate.
Qed.

End QueryParserFacts.

(** ** [fastCluster]: the two loops *)

Module ClusteringFacts.
Import JS JSArray JSArrayFacts Clustering.

(** Cluster ids name their seed's id. *)
Lemma string_of_Z_inj (x y : Z) : string_of_Z x = string_of_Z y → x = y.
Proof.
  unfold string_of_Z. intros H.
  assert (Hi : Some (Z.to_int x) = Some (Z.to_int y)).
  { rewrite <- !NilEmpty.isi. now rewrite H. }
  injection Hi as Hi.
  rewrite <- (DecimalZ.of_to x), <- (DecimalZ.of_to y). now rewrite Hi.
Qed.

Lemma clusterId_of_inj (a b : Article) : clusterId_of a = clusterId_of b → id a = id b.
Proof.
  unfold clusterId_of. intros H. apply string_of_Z_inj.
  exact (String.app_inj "cluster-" _ _ H).
Qed.

(** The inner loop leaves the state alone on processed documents, and on
    the seed's own index. *)
Lemma inner_loop_processed (item : Item) (index : nat) (pre : list Item) (i : nat)
    (cluster : list Article) (processed : gset Z) :
  (∀ o, o ∈ pre → id (article o) ∈ processed) →
  forEach_from (inner_step item index) pre i (cluster, processed) = (cluster, processed).
Proof.
  revert i; induction pre as [|o pre IH]; intros i Hp; cbn [forEach_from]; [reflexivity | ].
  unfold inner_step at 2.
  rewrite (bool_decide_eq_true_2 (id (article o) ∈ processed)) by (apply Hp; left).
  rewrite orb_true_r.
  apply IH. intros o' Ho'. apply Hp. now right.
Qed.

(** Past the seed's index the inner loop is the greedy scan. *)
Lemma inner_loop_scan (seed : Article) (index : nat) (post : list Article) (j : nat)
    (cluster : list Article) (processed : gset Z) :
  (index < j)%nat →
  forEach_from (inner_step (with_keywords seed) index) (map with_keywords post) j
    (cluster, processed)
  = let '(members, processed') := greedy_scan (absorbs_article seed) post processed in
    (cluster ++ members, processed').
Proof.
  revert j cluster processed; induction post as [|d post IH]; intros j cluster processed Hj.
  - simpl. now rewrite app_nil_r.
  - cbn [map forEach_from greedy_scan]. unfold inner_step at 2.
    replace (index =? j)%nat with false by (symmetry; apply Nat.eqb_neq; lia).
    cbn [orb article with_keywords].
    destruct (bool_decide (id d ∈ processed)) eqn:Hd.
    + apply IH. lia.
    + fold (with_keywords d). fold (absorbs_article seed d).
      destruct (absorbs_article seed d) eqn:Ha.
      * rewrite IH by lia.
        destruct (greedy_scan (absorbs_article seed) post (processed ∪ {[id d]})) as [m p'].
        now rewrite <- app_assoc.
      * apply IH. lia.
Qed.

(** The scan only adds to the processed ids, and only ids of members. *)
Lemma greedy_scan_processed (test : Article → bool) (others : list Article) (processed : gset Z) :
  let '(members, processed') := greedy_scan test others processed in
  processed' = processed ∪ list_to_set (map id members)
  ∧ (∀ d, d ∈ members → d ∈ others ∧ test d = true ∧ id d ∉ processed).
Proof.
  revert processed; induction others as [|d rest IH]; intros processed; simpl.
  - split; [set_solver | intros d Hd; inversion Hd].
  - destruct (bool_decide (id d ∈ processed)) eqn:Hd.
    + specialize (IH processed). destruct (greedy_scan test rest processed) as [m p'].
      destruct IH as [-> IH]. split; [reflexivity | ].
      intros x Hx. destruct (IH x Hx) as (? & ? & ?). split; [now right | auto].
    + apply bool_decide_eq_false in Hd.
      destruct (test d) eqn:Ht.
      * specialize (IH (processed ∪ {[id d]})).
        destruct (greedy_scan test rest (processed ∪ {[id d]})) as [m p'].
        destruct IH as [-> IH]. split; [simpl; set_solver | ].
        intros x Hx. apply elem_of_cons in Hx as [-> | Hx].
        -- split; [now left | auto].
        -- destruct (IH x Hx) as (? & ? & ?). split; [now right | ]. split; [auto | set_solver].
      * specialize (IH processed). destruct (greedy_scan test rest processed) as [m p'].
        destruct IH as [-> IH]. split; [reflexivity | ].
        intros x Hx. destruct (IH x Hx) as (? & ? & ?). split; [now right | auto].
Qed.


(** The outer loop from position [length pre] on: the documents before
    it are processed, the keys of [clusters] name processed ids, and the
    loop appends the clusters of the greedy pass. *)
Lemma outer_loop_greedy (rest pre : list Article)
    (clusters : list (string * list Article)) (processed : gset Z) :
  (∀ d, d ∈ pre → id d ∈ processed) →
  (∀ k, k ∈ map fst clusters → ∃ z, z ∈ processed ∧ k = "cluster-" +:+ string_of_Z z) →
  fst (forEach_from (outer_step (map with_keywords (pre ++ rest)))
         (map with_keywords rest) (length pre) (clusters, processed))
  = clusters ++ map entry_of (greedy absorbs_article rest processed).
Proof.
  revert pre clusters processed.
  induction rest as [|seed rest IH]; intros pre clusters processed Hpre Hkeys.
  - simpl. now rewrite app_nil_r.
  - cbn [map forEach_from greedy]. unfold outer_step at 2.
    cbn [article with_keywords].
    assert (Hall : pre ++ seed :: rest = (pre ++ [seed]) ++ rest)
      by now rewrite <- app_assoc.
    destruct (bool_decide (id seed ∈ processed)) eqn:Hseed.
    + apply bool_decide_eq_true in Hseed.
      specialize (IH (pre ++ [seed]) clusters processed).
      rewrite length_app, Nat.add_1_r in IH. rewrite Hall. apply IH; [ | exact Hkeys].
      intros d Hd. apply elem_of_app in Hd as [Hd | Hd]; [auto | ].
      apply list_elem_of_singleton in Hd. now subst d.
    + apply bool_decide_eq_false in Hseed.
      fold (with_keywords seed).
      assert (Hinner :
        forEach (inner_step (with_keywords seed) (length pre))
          (map with_keywords (pre ++ seed :: rest)) ([seed], processed)
        = let '(members, processed') := greedy_scan (absorbs_article seed) rest processed in
          (seed :: members, processed')).
      { unfold forEach. rewrite map_app. cbn [map].
        rewrite forEach_from_app. cbn [forEach_from].
        rewrite inner_loop_processed.
        2:{ intros o Ho. apply list_elem_of_In, in_map_iff in Ho as (d & <- & Hd).
            apply Hpre. now apply list_elem_of_In. }
        unfold inner_step at 2.
        rewrite Nat.add_0_l, length_map, Nat.eqb_refl. cbn [orb].
        rewrite inner_loop_scan by lia. reflexivity. }
      rewrite Hinner. clear Hinner.
      pose proof (greedy_scan_processed (absorbs_article seed) rest processed) as Hscan.
      destruct (greedy_scan (absorbs_article seed) rest processed) as [members processed'].
      destruct Hscan as [Hp' _].
      rewrite map_set_fresh.
      2:{ intros Hk. destruct (Hkeys _ Hk) as (z & Hz & Heq).
          apply (String.app_inj "cluster-") in Heq. apply string_of_Z_inj in Heq.
          congruence. }
      specialize (IH (pre ++ [seed]) (clusters ++ [(clusterId_of seed, seed :: members)])
                    (processed' ∪ {[id seed]})).
      rewrite length_app, Nat.add_1_r in IH.
      rewrite Hall, IH.
      * rewrite <- app_assoc. reflexivity.
      * intros d Hd. apply elem_of_app in Hd as [Hd | Hd].
        -- specialize (Hpre d Hd). set_solver.
        -- apply list_elem_of_singleton in Hd. subst d. set_solver.
      * intros k Hk. rewrite map_app in Hk. apply elem_of_app in Hk as [Hk | Hk].
        -- destruct (Hkeys k Hk) as (z & Hz & ->). exists z. split; [set_solver | reflexivity].
        -- apply list_elem_of_singleton in Hk. exists (id seed). split; [set_solver | exact Hk].
Qed.

(** The [clusters] map of the source holds the greedy clusters, each
    under the id of its seed. *)
Lemma cluster_map_greedy (articles : list Article) :
  cluster_map articles = map entry_of (greedy absorbs_article articles ∅).
Proof.
  unfold cluster_map, forEach.
  apply (outer_loop_greedy articles [] [] ∅).
  - intros d Hd. inversion Hd.
  - intros k Hk. inversion Hk.
Qed.

Lemma clusterMembers_to_clustered (e : string * list Article) :
  clusterMembers (to_clustered e) = snd e.
Proof. destruct e. reflexivity. Qed.

Lemma fastCluster_members (articles : list Article) :
  map clusterMembers (fastCluster articles) = greedy absorbs_article articles ∅.
Proof.
  unfold fastCluster. rewrite cluster_map_greedy, !map_map.
  rewrite <- (map_id (greedy absorbs_article articles ∅)) at 2.
  apply map_ext. intros c. rewrite clusterMembers_to_clustered. reflexivity.
Qed.

Lemma clusterArticles_fastCluster (articles : list Article) :
  clusterArticles articles = fastCluster articles.
Proof.
  unfold clusterArticles. destruct articles; reflexivity.
Qed.


(** *** The similarity test on keyword arrays and on term sets *)

Lemma getKeywords_NoDup (a : Article) : NoDup (getKeywords a).
Proof.
  unfold getKeywords. eapply sublist_NoDup; [apply NoDup_uniq | apply sublist_take].
Qed.

Lemma getKeywords_length (a : Article) : (length (getKeywords a) ≤ 20)%nat.
Proof. unfold getKeywords. rewrite length_take. lia. Qed.

Lemma term_set_size (a : Article) : size (term_set a) = length (getKeywords a).
Proof. apply size_list_to_set, getKeywords_NoDup. Qed.

(** On duplicate-free arrays the count [b.filter(w => setA.has(w)).length]
    is the size of the intersection. *)
Lemma intersection_count (a b : list string) :
  NoDup b →
  length (List.filter (array_includes a) b)
  = size ((list_to_set a : gset string) ∩ list_to_set b).
Proof.
  intros Hb.
  rewrite <- (size_list_to_set (C := gset string) (List.filter (array_includes a) b)).
  - f_equal. apply set_eq. intros x.
    rewrite elem_of_list_to_set, elem_of_filter_bool, elem_of_intersection,
      !elem_of_list_to_set.
    unfold array_includes. rewrite bool_decide_eq_true. tauto.
  - apply NoDup_ListNoDup, List.NoDup_filter, NoDup_ListNoDup, Hb.
Qed.

(** The binary64 comparisons and the exact ones agree on every quotient
    of counts that keyword arrays of at most 20 terms give. *)
Lemma tests_agree_upto_20 :
  forallb (fun i => forallb (fun m => tests_agree i m) (seq 1 20)) (seq 0 21) = true.
Proof. vm_compute. reflexivity. Qed.

Lemma float_tests_ratio_tests (i m : nat) :
  (i ≤ 20)%nat → (1 ≤ m ≤ 20)%nat → float_tests i m = ratio_tests i m.
Proof.
  intros Hi Hm. pose proof tests_agree_upto_20 as H.
  rewrite forallb_forall in H. specialize (H i ltac:(apply in_seq; lia)).
  rewrite forallb_forall in H. specialize (H m ltac:(apply in_seq; lia)).
  unfold tests_agree in H.
  destruct (float_tests i m) as [a1 a2], (ratio_tests i m) as [b1 b2].
  apply andb_prop in H as [H1 H2].
  apply Bool.eqb_prop in H1, H2. congruence.
Qed.

(** The test of the source is the test of the specification. *)
Lemma absorbs_similar_enough (seed d : Article) :
  absorbs (with_keywords seed) (with_keywords d) = similar_enough seed d.
Proof.
  unfold absorbs, similar_enough, similarity, overlap_ratio.
  cbn [article keywords with_keywords].
  rewrite !term_set_size. unfold term_set.
  rewrite <- (intersection_count _ _ (getKeywords_NoDup d)).
  set (i := length (List.filter (array_includes (getKeywords seed)) (getKeywords d))).
  set (m := Nat.max (Nat.max (length (getKeywords seed)) (length (getKeywords d))) 1).
  assert (Hi : (i ≤ 20)%nat).
  { subst i. pose proof (filter_length_le (array_includes (getKeywords seed)) (getKeywords d)).
    pose proof (getKeywords_length d). lia. }
  assert (Hm : (1 ≤ m ≤ 20)%nat).
  { subst m. pose proof (getKeywords_length seed). pose proof (getKeywords_length d). lia. }
  pose proof (float_tests_ratio_tests i m Hi Hm) as H.
  unfold float_tests, ratio_tests in H. injection H as -> ->.
  rewrite (andb_comm (bool_decide _)).
  do 2 f_equal. apply bool_decide_ext. split; congruence.
Qed.

Lemma greedy_scan_ext (t1 t2 : Article → bool) (others : list Article) (processed : gset Z) :
  (∀ d, t1 d = t2 d) → greedy_scan t1 others processed = greedy_scan t2 others processed.
Proof.
  intros Ht. revert processed; induction others as [|d rest IH]; intros processed; simpl.
  - reflexivity.
  - rewrite Ht, !IH. reflexivity.
Qed.

Lemma greedy_ext (t1 t2 : Article → Article → bool) (docs : list Article) (processed : gset Z) :
  (∀ s d, t1 s d = t2 s d) → greedy t1 docs processed = greedy t2 docs processed.
Proof.
  intros Ht. revert processed; induction docs as [|s rest IH]; intros processed; simpl.
  - reflexivity.
  - rewrite (greedy_scan_ext (t1 s) (t2 s)) by (intros d; apply Ht).
    rewrite IH. destruct (greedy_scan (t2 s) rest processed) as [m p]. now rewrite IH.
Qed.

Lemma clusterArticles_members (articles : list Article) :
  map clusterMembers (clusterArticles articles) = greedy similar_enough articles ∅.
Proof.
  rewrite clusterArticles_fastCluster, fastCluster_members.
  apply greedy_ext. intros s d. apply absorbs_similar_enough.
Qed.

(** Every cluster of the greedy pass starts with its seed. *)
Lemma greedy_nonempty (test : Article → Article → bool) (docs : list Article) (processed : gset Z) :
  Forall (fun c => ∃ seed members, c = seed :: members) (greedy test docs processed).
Proof.
  revert processed; induction docs as [|s rest IH]; intros processed; simpl.
  - constructor.
  - destruct (bool_decide (id s ∈ processed)); [apply IH | ].
    destruct (greedy_scan (test s) rest processed) as [m p].
    constructor; [eauto | apply IH].
Qed.

Lemma fastCluster_shape (articles : list Article) :
  Forall (fun c =>
            clusterSize c = length (clusterMembers c)
            ∧ isClusterRepresentative c = true
            ∧ ∃ seed members,
                clusterMembers c = seed :: members ∧ clusterId c = clusterId_of seed)
    (clusterArticles articles).
Proof.
  rewrite clusterArticles_fastCluster. unfold fastCluster. rewrite cluster_map_greedy.
  rewrite !Forall_map.
  eapply Forall_impl; [apply greedy_nonempty | ].
  intros c (seed & members & ->). unfold entry_of, to_clustered.
  cbn [clusterSize clusterMembers isClusterRepresentative clusterId].
  split; [reflexivity | split; [reflexivity | ]].
  exists seed, members. split; reflexivity.
Qed.

(** *** The clusters partition the input *)

Lemma filter_ext_elem {T} (P Q : T → Prop) `{∀ x, Decision (P x)} `{∀ x, Decision (Q x)}
    (l : list T) :
  (∀ x, x ∈ l → (P x ↔ Q x)) → filter P l = filter Q l.
Proof.
  induction l as [|x l IH]; intros Hl; [reflexivity | ].
  rewrite !filter_cons.
  rewrite IH by (intros y Hy; apply Hl; now right).
  destruct (decide (P x)) as [Hp | Hp], (decide (Q x)) as [Hq | Hq]; try reflexivity;
    exfalso; apply (Hl x ltac:(left)) in Hp || apply (Hl x ltac:(left)) in Hq; contradiction.
Qed.

Lemma id_elem_of_map (l : list Article) (d : Article) : d ∈ l → id d ∈ map id l.
Proof. intros Hd. apply list_elem_of_In, in_map, list_elem_of_In, Hd. Qed.

Lemma NoDup_ids_cons (d : Article) (l : list Article) :
  NoDup (map id (d :: l)) → (id d ∉ map id l) ∧ NoDup (map id l).
Proof. simpl. intros H. now apply NoDup_cons in H. Qed.

(** Two documents of a collection with distinct ids that share an id are
    the same document. *)
Lemma same_id_same_doc (l : list Article) (a b : Article) :
  NoDup (map id l) → a ∈ l → b ∈ l → id a = id b → a = b.
Proof.
  induction l as [|x l IH]; intros Hnd Ha Hb Hid; [inversion Ha | ].
  apply NoDup_ids_cons in Hnd as [Hx Hnd].
  apply elem_of_cons in Ha as [-> | Ha]; apply elem_of_cons in Hb as [-> | Hb].
  - reflexivity.
  - exfalso. apply Hx. rewrite Hid. now apply id_elem_of_map.
  - exfalso. apply Hx. rewrite <- Hid. now apply id_elem_of_map.
  - now apply IH.
Qed.

Lemma elem_of_ids (members : list Article) (z : Z) :
  z ∈ (list_to_set (map id members) : gset Z) → ∃ d, d ∈ members ∧ id d = z.
Proof.
  rewrite elem_of_list_to_set, list_elem_of_In, in_map_iff.
  intros (d & Hd & Hin). exists d. split; [now apply list_elem_of_In | exact Hd].
Qed.

(** The scan splits the unprocessed documents after the seed into the
    members and those that stay unprocessed. *)
Lemma greedy_scan_partition (test : Article → bool) (rest : list Article) (processed : gset Z) :
  NoDup (map id rest) →
  let '(members, processed') := greedy_scan test rest processed in
  members ++ filter (fun d => id d ∉ processed') rest
  ≡ₚ filter (fun d => id d ∉ processed) rest.
Proof.
  revert processed; induction rest as [|d rest IH]; intros processed Hnd.
  - simpl. reflexivity.
  - apply NoDup_ids_cons in Hnd as [Hd Hnd]. cbn [greedy_scan].
    destruct (bool_decide (id d ∈ processed)) eqn:Hin.
    + apply bool_decide_eq_true in Hin.
      pose proof (greedy_scan_processed test rest processed) as Hp.
      specialize (IH processed Hnd).
      destruct (greedy_scan test rest processed) as [m p']. destruct Hp as [-> _].
      rewrite !filter_cons_False by set_solver. exact IH.
    + apply bool_decide_eq_false in Hin. destruct (test d) eqn:Ht.
      * pose proof (greedy_scan_processed test rest (processed ∪ {[id d]})) as Hp.
        specialize (IH (processed ∪ {[id d]}) Hnd).
        destruct (greedy_scan test rest (processed ∪ {[id d]})) as [m p'].
        destruct Hp as [-> _].
        rewrite filter_cons_False by set_solver.
        rewrite filter_cons_True by exact Hin.
        cbn [app]. apply Permutation_skip. rewrite IH.
        erewrite filter_ext_elem; [reflexivity | ].
        intros x Hx. split; [set_solver | ].
        intros Hxp. apply id_elem_of_map in Hx.
        assert (id x ≠ id d) by congruence. set_solver.
      * pose proof (greedy_scan_processed test rest processed) as Hp.
        specialize (IH processed Hnd).
        destruct (greedy_scan test rest processed) as [m p']. destruct Hp as [-> Hm].
        rewrite !filter_cons_True.
        -- rewrite <- Permutation_middle. apply Permutation_skip. exact IH.
        -- exact Hin.
        -- intros Hx. apply elem_of_union in Hx as [Hx | Hx]; [contradiction | ].
           apply elem_of_ids in Hx as (d' & Hd' & Hid).
           destruct (Hm d' Hd') as (Hr & _ & _).
           apply Hd. rewrite <- Hid. now apply id_elem_of_map.
Qed.

Lemma greedy_partition (test : Article → Article → bool) (docs : list Article)
    (processed : gset Z) :
  NoDup (map id docs) →
  concat (greedy test docs processed) ≡ₚ filter (fun d => id d ∉ processed) docs.
Proof.
  revert processed; induction docs as [|seed rest IH]; intros processed Hnd.
  - simpl. reflexivity.
  - pose proof Hnd as Hnd0. apply NoDup_ids_cons in Hnd as [Hs Hnd]. cbn [greedy].
    destruct (bool_decide (id seed ∈ processed)) eqn:Hin.
    + apply bool_decide_eq_true in Hin.
      rewrite filter_cons_False by set_solver. now apply IH.
    + apply bool_decide_eq_false in Hin.
      pose proof (greedy_scan_partition (test seed) rest processed Hnd) as Hscan.
      destruct (greedy_scan (test seed) rest processed) as [m p'].
      rewrite filter_cons_True by exact Hin.
      cbn [concat app]. apply Permutation_skip.
      rewrite IH by exact Hnd. rewrite <- Hscan.
      apply Permutation_app_head.
      erewrite filter_ext_elem; [reflexivity | ].
      intros x Hx. split; [set_solver | ].
      intros Hxp. apply id_elem_of_map in Hx.
      assert (id x ≠ id seed) by congruence. set_solver.
Qed.

Lemma filter_all {T} (P : T → Prop) `{∀ x, Decision (P x)} (l : list T) :
  (∀ x, P x) → filter P l = l.
Proof.
  intros HP. induction l as [|x l IH]; [reflexivity | ].
  rewrite filter_cons_True by apply HP. now rewrite IH.
Qed.

(** A scan in which no document passes the test absorbs nothing. *)
Lemma greedy_scan_none (test : Article → bool) (rest : list Article) (processed : gset Z) :
  (∀ d, d ∈ rest → test d = false) → greedy_scan test rest processed = ([], processed).
Proof.
  induction rest as [|d rest IH]; intros Ht; [reflexivity | ].
  cbn [greedy_scan]. rewrite (Ht d) by now left.
  rewrite IH by (intros x Hx; apply Ht; now right).
  destruct (bool_decide (id d ∈ processed)); reflexivity.
Qed.

(** A document that passes the test with no other one, in either
    direction, is alone in its cluster. *)
Lemma greedy_singleton (test : Article → Article → bool) (docs : list Article)
    (processed : gset Z) (d : Article) :
  NoDup (map id docs) → d ∈ docs → id d ∉ processed →
  (∀ d', d' ∈ docs → d' ≠ d → test d d' = false ∧ test d' d = false) →
  [d] ∈ greedy test docs processed.
Proof.
  revert processed; induction docs as [|s rest IH]; intros processed Hnd Hd Hp Hpeer;
    [inversion Hd | ].
  pose proof Hnd as Hnd0. apply NoDup_ids_cons in Hnd as [Hs Hnd]. cbn [greedy].
  destruct (decide (s = d)) as [-> | Hne].
  - rewrite bool_decide_eq_false_2 by exact Hp.
    rewrite greedy_scan_none; [now left | ].
    intros x Hx. apply Hpeer; [now right | ].
    intros ->. apply Hs. now apply id_elem_of_map.
  - apply elem_of_cons in Hd as [-> | Hd]; [contradiction | ].
    assert (Hpeer' : ∀ d', d' ∈ rest → d' ≠ d → test d d' = false ∧ test d' d = false)
      by (intros d' Hd'; apply Hpeer; now right).
    destruct (bool_decide (id s ∈ processed)) eqn:Hin; [now apply IH | ].
    pose proof (greedy_scan_processed (test s) rest processed) as Hscan.
    destruct (greedy_scan (test s) rest processed) as [m p']. destruct Hscan as [-> Hm].
    right. apply IH; [exact Hnd | exact Hd | | exact Hpeer'].
    intros Hx. apply elem_of_union in Hx as [Hx | Hx].
    + apply elem_of_union in Hx as [Hx | Hx]; [contradiction | ].
      apply elem_of_ids in Hx as (d' & Hd' & Hid).
      destruct (Hm d' Hd') as (Hr & Ht & _).
      assert (d' = d) by (apply (same_id_same_doc rest); assumption). subst d'.
      destruct (Hpeer s ltac:(left) Hne) as [_ Hf]. congruence.
    + apply elem_of_singleton in Hx. apply Hs. rewrite <- Hx. now apply id_elem_of_map.
Qed.

(** Member lists that are disjoint hold a document in one list only. *)
Lemma NoDup_concat_unique {T} (ls : list (list T)) (i j : nat) (l1 l2 : list T) (x : T) :
  NoDup (concat ls) →
  ls !! i = Some l1 → ls !! j = Some l2 → x ∈ l1 → x ∈ l2 → i = j.
Proof.
  revert i j; induction ls as [|l ls IH]; intros i j Hnd Hi Hj H1 H2; [inversion Hi | ].
  cbn [concat] in Hnd. apply NoDup_app in Hnd as (Hl & Hdisj & Hrest).
  assert (Hin : ∀ k l', ls !! k = Some l' → x ∈ l' → x ∈ concat ls).
  { intros k l' Hk Hx. apply list_elem_of_In, in_concat. exists l'.
    split; apply list_elem_of_In; [eapply list_elem_of_lookup_2; eauto | exact Hx]. }
  destruct i as [|i], j as [|j]; cbn in Hi, Hj.
  - reflexivity.
  - injection Hi as <-. exfalso. eapply Hdisj; eauto.
  - injection Hj as <-. exfalso. eapply Hdisj; eauto.
  - f_equal. eapply IH; eauto.
Qed.

Lemma similar_enough_sym (a b : Article) : similar_enough a b = similar_enough b a.
Proof.
  unfold similar_enough, overlap_ratio.
  rewrite (comm_L (∩) (term_set a) (term_set b)).
  rewrite (Nat.max_comm (size (term_set a)) (size (term_set b))).
  do 2 f_equal. apply bool_decide_ext. split; congruence.
Qed.


(** In a scan over documents with distinct ids, the members are the
    documents that were unprocessed when the scan began and pass the test. *)
Lemma greedy_scan_members (test : Article → bool) (rest : list Article) (processed : gset Z) :
  NoDup (map id rest) →
  ∀ d, d ∈ fst (greedy_scan test rest processed)
       ↔ d ∈ rest ∧ (id d ∉ processed) ∧ test d = true.
Proof.
  revert processed; induction rest as [|x rest IH]; intros processed Hnd d.
  - cbn. split; [intros H; inversion H | intros [H _]; inversion H].
  - apply NoDup_ids_cons in Hnd as [Hx Hnd]. cbn [greedy_scan].
    assert (Hne : d ∈ rest → id d ≠ id x).
    { intros Hd Heq. apply Hx. rewrite <- Heq. now apply id_elem_of_map. }
    destruct (bool_decide (id x ∈ processed)) eqn:Hin.
    + apply bool_decide_eq_true in Hin. rewrite (IH processed Hnd d), elem_of_cons.
      split; [tauto | ]. intros [[-> | Hd] [Hp Ht]]; [contradiction | tauto].
    + apply bool_decide_eq_false in Hin. destruct (test x) eqn:Ht.
      * specialize (IH (processed ∪ {[id x]}) Hnd d).
        destruct (greedy_scan test rest (processed ∪ {[id x]})) as [m p'].
        cbn [fst] in *. rewrite !elem_of_cons, IH. split.
        -- intros [-> | (Hd & Hp & Htd)]; [tauto | ].
           split; [tauto | split; [set_solver | exact Htd]].
        -- intros [[-> | Hd] [Hp Htd]]; [tauto | ].
           right. split; [exact Hd | split; [ | exact Htd]].
           specialize (Hne Hd). set_solver.
      * rewrite (IH processed Hnd d), elem_of_cons.
        split; [tauto | ]. intros [[-> | Hd] [Hp Htd]]; [congruence | tauto].
Qed.

(** C2. Clustering is one greedy pass over the documents in input order:
    the member lists of the clusters that [clusterArticles] returns are
    those of the pass in which each unprocessed document seeds a cluster
    and a scanned unprocessed document is absorbed exactly when its
    similarity to the seed is at least 0.30, or at least 0.15 with the
    seed's category, the similarity of two term sets being the size of the
    intersection over [max(size A, size B, 1)].  The binary64 test of the
    source on the keyword arrays decides this exact test, and each cluster
    carries the id of its seed and its member count. *)
Theorem clusterArticles_is_greedy_pass (articles : list Article) :
  map clusterMembers (clusterArticles articles) = greedy similar_enough articles ∅
  ∧ (∀ seed d, absorbs (with_keywords seed) (with_keywords d) = similar_enough seed d)
  ∧ (∀ seed rest processed, NoDup (map id rest) →
       ∀ d, d ∈ fst (greedy_scan (similar_enough seed) rest processed)
            ↔ d ∈ rest ∧ (id d ∉ processed) ∧ similar_enough seed d = true)
  ∧ Forall (fun c =>
              clusterSize c = length (clusterMembers c)
              ∧ isClusterRepresentative c = true
              ∧ ∃ seed members,
                  clusterMembers c = seed :: members ∧ clusterId c = clusterId_of seed)
      (clusterArticles articles).
Proof.
  split; [apply clusterArticles_members | split; [ | split]].
  - apply absorbs_similar_enough.
  - intros seed rest processed Hnd. now apply greedy_scan_members.
  - apply fastCluster_shape.
Qed.

(** The scenario of the specification: the first document absorbs the
    second, which follows it, is unprocessed and similar enough; the third
    seeds its own cluster. *)
Lemma clusterArticles_is_greedy_pass_witness :
  map clusterMembers (clusterArticles [tech1; tech2; sports3])
  = [[tech1; tech2]; [sports3]]
  ∧ tech2 ∈ fst (greedy_scan (similar_enough tech1) [tech2; sports3] ∅)
  ∧ sports3 ∉ fst (greedy_scan (similar_enough tech1) [tech2; sports3] ∅).
Proof.
  destruct (clusterArticles_is_greedy_pass [tech1; tech2; sports3]) as (Hg & _ & Hiff & _).
  assert (Hnd : NoDup (map id [tech2; sports3]))
    by (apply (bool_decide_unpack _); vm_compute; exact I).
  split; [rewrite Hg; vm_compute; reflexivity | split].
  - apply (Hiff tech1 _ ∅ Hnd).
    split; [apply elem_of_cons; left; reflexivity | ].
    split; [apply not_elem_of_empty | ].
    vm_compute. reflexivity.
  - intros Hin. apply (Hiff tech1 _ ∅ Hnd) in Hin as (_ & _ & Ht).
    vm_compute in Ht. discriminate Ht.
Defined.

(** C1, as the code has it.  For a collection whose documents have
    pairwise distinct ids, the clusters of [clusterArticles] partition the
    input: the member lists put end to end are a rearrangement of the
    input without repetition, so every document is in the member list of
    exactly one cluster, once.  A document that passes the absorption test
    with no other document of the collection is alone in its cluster, of
    size 1; a seed that absorbs documents has a larger cluster. *)
Theorem clusterArticles_partition (articles : list Article) :
  NoDup (map id articles) →
  let clusters := clusterArticles articles in
  concat (map clusterMembers clusters) ≡ₚ articles
  ∧ NoDup (concat (map clusterMembers clusters))
  ∧ (∀ d, d ∈ articles →
       ∃ i c, clusters !! i = Some c ∧ d ∈ clusterMembers c
              ∧ ∀ j c', clusters !! j = Some c' → d ∈ clusterMembers c' → j = i)
  ∧ (∀ d, d ∈ articles → no_similar_peer articles d → forms_singleton clusters d).
Proof.
  intros Hnd clusters.
  assert (Hperm : concat (map clusterMembers clusters) ≡ₚ articles).
  { subst clusters. rewrite clusterArticles_members.
    rewrite (greedy_partition similar_enough articles ∅ Hnd).
    rewrite filter_all; [reflexivity | set_solver]. }
  assert (Hnodup : NoDup (concat (map clusterMembers clusters))).
  { rewrite Hperm. eapply NoDup_fmap_1. exact Hnd. }
  split; [exact Hperm | split; [exact Hnodup | split]].
  - intros d Hd. rewrite <- Hperm in Hd.
    apply list_elem_of_In, in_concat in Hd as (l & Hl & Hdl).
    apply in_map_iff in Hl as (c & <- & Hc).
    apply list_elem_of_In, list_elem_of_lookup in Hc as [i Hi].
    apply list_elem_of_In in Hdl.
    exists i, c. split; [exact Hi | split; [exact Hdl | ]].
    intros j c' Hj Hd'.
    apply (NoDup_concat_unique (map clusterMembers clusters) j i
             (clusterMembers c') (clusterMembers c) d); auto.
    + rewrite list_lookup_fmap, Hj. reflexivity.
    + rewrite list_lookup_fmap, Hi. reflexivity.
  - intros d Hd Hpeer.
    assert (Hin : [d] ∈ map clusterMembers clusters).
    { subst clusters. rewrite clusterArticles_members.
      apply greedy_singleton; [exact Hnd | exact Hd | set_solver | ].
      intros d' Hd' Hne. split; [ | rewrite similar_enough_sym]; now apply Hpeer. }
    apply list_elem_of_In, in_map_iff in Hin as (c & Hc & Hcin).
    apply list_elem_of_In in Hcin.
    exists c. split; [exact Hcin | split; [exact Hc | ]].
    pose proof (fastCluster_shape articles) as Hshape.
    rewrite Forall_forall in Hshape. destruct (Hshape c Hcin) as (Hsize & _).
    rewrite Hsize, Hc. reflexivity.
Qed.

Lemma scenario_ids_distinct : NoDup (map id [tech1; tech2; sports3]).
Proof. apply (bool_decide_unpack _). vm_compute. exact I. Defined.

(** The scenario of the specification: two clusters, [{1, 2}] and [{3}]. *)
Lemma clusterArticles_partition_witness :
  map (fun c => map id (clusterMembers c)) (clusterArticles [tech1; tech2; sports3])
  = [[1; 2]; [3]]%Z
  ∧ concat (map clusterMembers (clusterArticles [tech1; tech2; sports3]))
    ≡ₚ [tech1; tech2; sports3]
  ∧ forms_singleton (clusterArticles [tech1; tech2; sports3]) sports3.
Proof.
  destruct (clusterArticles_partition [tech1; tech2; sports3] scenario_ids_distinct)
    as (Hperm & _ & _ & Hsingle).
  split; [vm_compute; reflexivity | split; [exact Hperm | ]].
  apply Hsingle.
  - apply list_elem_of_In. simpl. auto.
  - intros d' Hd' Hne. apply list_elem_of_In in Hd'. simpl in Hd'.
    destruct Hd' as [<- | [<- | [<- | []]]]; [vm_compute; reflexivity .. | contradiction].
Defined.

(** C1 as stated fails in its last part: in the collection of the two
    similar documents the first one is held by no cluster but the one it
    seeds, and that cluster has two members. *)
Lemma seed_cluster_not_singleton :
  NoDup (map id [tech1; tech2])
  ∧ tech1 ∈ [tech1; tech2]
  ∧ absorbed_by_no_other (clusterArticles [tech1; tech2]) tech1
  ∧ ¬ forms_singleton (clusterArticles [tech1; tech2]) tech1.
Proof.
  assert (E : map (fun c => (clusterId c, clusterMembers c)) (clusterArticles [tech1; tech2])
              = [("cluster-1", [tech1; tech2])]) by (vm_compute; reflexivity).
  split; [apply (bool_decide_unpack _); vm_compute; exact I | ].
  split; [left | ].
  destruct (clusterArticles [tech1; tech2]) as [|c [|c' cs]]; try discriminate E.
  injection E as Eid Emem.
  split.
  - intros x Hx _. apply list_elem_of_singleton in Hx. subst x. rewrite Eid. reflexivity.
  - intros (x & Hx & Hmem & _). apply list_elem_of_singleton in Hx. subst x.
    rewrite Emem in Hmem. discriminate Hmem.
Qed.

End ClusteringFacts.

(** ** Topic discovery *)

Module TopicsFacts.
Import JS JSArray JSArrayFacts Topics.

Lemma Forall_map_set {K V} `{EqDecision K} (P : K * V → Prop) (m : list (K * V)) (k : K) (v : V) :
  Forall P m → P (k, v) → Forall P (map_set m k v).
Proof.
  rewrite !Forall_forall. intros Hm Hkv [k' v'] Hin.
  apply elem_of_map_set in Hin as [[-> ->] | Hin]; [exact Hkv | now apply Hm].
Qed.

Lemma elem_of_map_set_same {K V} `{EqDecision K} (m : list (K * V)) (k : K) (v : V) :
  (k, v) ∈ map_set m k v.
Proof.
  induction m as [|[k' v'] m IH]; cbn [map_set]; [apply elem_of_cons; now left | ].
  destruct (decide (k = k')); apply elem_of_cons; [now left | now right].
Qed.

Lemma elem_of_map_set_other {K V} `{EqDecision K} (m : list (K * V)) (k k' : K) (v v' : V) :
  k' ≠ k → (k', v') ∈ m → (k', v') ∈ map_set m k v.
Proof.
  intros Hne. induction m as [|[k0 v0] m IH]; intros Hin; [inversion Hin | ].
  cbn [map_set]. apply elem_of_cons in Hin as [Heq | Hin].
  - injection Heq as <- <-. destruct (decide (k = k')); [congruence | ].
    apply elem_of_cons. now left.
  - destruct (decide (k = k0)); apply elem_of_cons; right; [exact Hin | now apply IH].
Qed.

Lemma NoDup_map_fst_filter {K V} (f : K * V → bool) (l : list (K * V)) :
  NoDup (map fst l) → NoDup (map fst (List.filter f l)).
Proof.
  induction l as [|e l IH]; simpl; intros Hnd; [constructor | ].
  apply NoDup_cons in Hnd as [He Hnd].
  destruct (f e); simpl; [ | now apply IH].
  apply NoDup_cons. split; [ | now apply IH].
  intros Hin. apply He.
  apply list_elem_of_In, in_map_iff in Hin as (e' & Heq & Hin).
  apply filter_In in Hin as [Hin _].
  apply list_elem_of_In, in_map_iff. eauto.
Qed.

Lemma set_add_NoDup {A} `{EqDecision A} (s : list A) (x : A) :
  NoDup s → NoDup (set_add s x).
Proof.
  intros Hs. unfold set_add. case_bool_decide as Hx; [exact Hs | ].
  apply NoDup_app. split; [exact Hs | split; [ | apply NoDup_singleton]].
  intros y Hy Hy'. apply list_elem_of_singleton in Hy'. now subst y.
Qed.

Lemma elem_of_set_add {A} `{EqDecision A} (s : list A) (x y : A) :
  y ∈ set_add s x → y ∈ s ∨ y = x.
Proof.
  unfold set_add. case_bool_decide; [now left | ].
  rewrite elem_of_app, list_elem_of_singleton. tauto.
Qed.

Section DiscoveryFacts.
Variable extractKeywords : string → list string → nat → list string.

Local Abbreviation discover := (discoverTopics extractKeywords).

(** The keys of the article map are articles of the collection. *)
Lemma articleKeywords_keys (docs : list Obj) (e : Obj * list string) :
  e ∈ articleKeywords_of extractKeywords docs → fst e ∈ docs.
Proof.
  unfold articleKeywords_of.
  assert (H : ∀ (g : Obj → list string) (l : list Obj) (m : list (Obj * list string)),
             e ∈ fold_left (fun m a => map_set m a (g a)) l m → e ∈ m ∨ fst e ∈ l).
  { intros g. induction l as [|a l IH]; intros m; cbn [fold_left]; [now left | ].
    intros Hin. apply IH in Hin as [Hin | Hin]; [ | right; now right].
    destruct e as [k v]. apply elem_of_map_set in Hin as [[-> _] | Hin]; [ | now left].
    right. now left. }
  intros Hin.
  apply (H (fun article =>
              map toLowerCase
                (extractKeywords (content (fields article))
                   (map (fun a => content (fields a)) docs) 10))) in Hin.
  destruct Hin as [Hin | Hin]; [inversion Hin | exact Hin].
Qed.

Lemma count_keyword_ok (articles : list Obj) (article : Obj)
    (kf : list (string * list Obj)) (keyword : string) :
  article ∈ articles → frequency_ok articles kf →
  frequency_ok articles (count_keyword article kf keyword).
Proof.
  intros Ha [Hnd Hall]. unfold count_keyword.
  set (kf1 := if negb (map_has kf keyword) then map_set kf keyword [] else kf).
  assert (H1 : frequency_ok articles kf1).
  { subst kf1. destruct (negb (map_has kf keyword)); [ | now split].
    split; [now apply map_set_keys_NoDup | ].
    apply Forall_map_set; [exact Hall | ].
    split; [constructor | intros x Hx; inversion Hx]. }
  destruct H1 as [Hnd1 Hall1].
  split; [now apply map_set_keys_NoDup | ].
  apply Forall_map_set; [exact Hall1 | ]. cbn [snd].
  assert (Hold : NoDup (default [] (map_get kf1 keyword))
                 ∧ ∀ x, x ∈ default [] (map_get kf1 keyword) → x ∈ articles).
  { destruct (map_get kf1 keyword) as [s | ] eqn:Hget; simpl.
    - apply map_get_elem in Hget. rewrite Forall_forall in Hall1.
      exact (Hall1 _ Hget).
    - split; [constructor | intros x Hx; inversion Hx]. }
  destruct Hold as [Hs Hsub]. split; [now apply set_add_NoDup | ].
  intros x Hx. apply elem_of_set_add in Hx as [Hx | ->]; auto.
Qed.

Lemma keywordFrequency_ok (articles : list Obj) :
  frequency_ok articles
    (keywordFrequency_of (articleKeywords_of extractKeywords articles)).
Proof.
  unfold keywordFrequency_of.
  pose proof (articleKeywords_keys articles) as Hkeys.
  revert Hkeys. generalize (articleKeywords_of extractKeywords articles) as aks.
  assert (H0 : frequency_ok articles []) by (split; constructor).
  revert H0. generalize (@nil (string * list Obj)) as kf.
  intros kf H0 aks. revert kf H0.
  induction aks as [|[a kws] aks IH]; intros kf H0 Hkeys; simpl; [exact H0 | ].
  apply IH; [ | intros e He; apply Hkeys; now right].
  assert (Ha : a ∈ articles) by (apply (Hkeys (a, kws)); now left).
  clear IH Hkeys. revert kf H0.
  induction kws as [|k kws IHk]; intros kf H0; simpl; [exact H0 | ].
  apply IHk. now apply count_keyword_ok.
Qed.

(** The topics of [discoverTopics], entry by entry. *)
Lemma discoverTopics_elem (docs : list Obj) (minArticles : Z) (t : Topic) :
  t ∈ discover docs minArticles →
  ∃ e, e ∈ keywordFrequency_of (articleKeywords_of extractKeywords docs)
       ∧ (minArticles <= Z.of_nat (length (snd e)))%Z
       ∧ name t = fst e ∧ count t = length (snd e) ∧ articles t = snd e
       ∧ trend t = stable ∧ velocity t = 0%float.
Proof.
  unfold discoverTopics. destruct (length docs =? 0)%nat; [intros H; inversion H | ].
  intros Ht. apply list_elem_of_In, in_map_iff in Ht as ([k s] & <- & He).
  apply list_elem_of_In, subseteq_take in He.
  unfold significantKeywords_of, sort_int in He.
  apply elem_of_sort_by, elem_of_filter_bool in He as [He Hmin].
  exists (k, s). cbn [snd fst] in *. apply Z.leb_le in Hmin.
  repeat split; auto.
Qed.

Lemma discoverTopics_names_NoDup (docs : list Obj) (minArticles : Z) :
  NoDup (map name (discover docs minArticles)).
Proof.
  unfold discoverTopics. destruct (length docs =? 0)%nat; [constructor | ].
  rewrite map_map.
  rewrite (map_ext _ fst) by (intros [k s]; reflexivity).
  rewrite <- firstn_map.
  eapply sublist_NoDup; [ | apply sublist_take].
  unfold significantKeywords_of, sort_int.
  rewrite (Permutation_map fst (sort_by_perm _ _)).
  apply NoDup_map_fst_filter. apply keywordFrequency_ok.
Qed.

(** A collection with fewer documents than [minArticles] has no topic. *)
Lemma discoverTopics_few (docs : list Obj) (minArticles : Z) :
  (Z.of_nat (length docs) < minArticles)%Z → discover docs minArticles = [].
Proof.
  intros Hfew. destruct (discover docs minArticles) as [|t ts] eqn:E; [reflexivity | ].
  exfalso.
  destruct (discoverTopics_elem docs minArticles t) as (e & He & Hmin & _).
  { rewrite E. now left. }
  destruct (keywordFrequency_ok docs) as [_ Hall].
  rewrite Forall_forall in Hall. destruct (Hall e He) as [Hnd Hsub].
  assert (Hlen : (length (snd e) ≤ length docs)%nat).
  { apply submseteq_length, NoDup_submseteq; [exact Hnd | exact Hsub]. }
  lia.
Qed.


(** *** Grouping by category *)

Lemma in_category_snoc (c : string) (p : list Obj) (a : Obj) :
  in_category c (p ++ [a])
  = in_category c p ++ (if bool_decide (category (fields a) = c) then [a] else []).
Proof. unfold in_category. rewrite List.filter_app. reflexivity. Qed.

Lemma group_step (m : list (string * list Obj)) (p : list Obj) (a : Obj) :
  (∀ c, map_get m c = group_of c p) → NoDup (map fst m) →
  let c0 := category (fields a) in
  let m1 := if negb (map_has m c0) then map_set m c0 [] else m in
  let m2 := map_set m1 c0 (default [] (map_get m1 c0) ++ [a]) in
  (∀ c, map_get m2 c = group_of c (p ++ [a])) ∧ NoDup (map fst m2).
Proof.
  intros Hget Hnd c0 m1 m2.
  assert (Hnd1 : NoDup (map fst m1)).
  { subst m1. destruct (negb (map_has m c0)); [now apply map_set_keys_NoDup | exact Hnd]. }
  split; [ | now apply map_set_keys_NoDup].
  assert (Hold : default [] (map_get m1 c0) = in_category c0 p).
  { subst m1. unfold map_has. specialize (Hget c0). unfold group_of in Hget.
    destruct (map_get m c0) as [s | ] eqn:Hm; cbn [negb].
    - rewrite bool_decide_eq_true_2 by eauto. cbn [negb]. rewrite Hm. cbn.
      destruct (in_category c0 p); congruence.
    - rewrite bool_decide_eq_false_2 by (intros [? ?]; discriminate). cbn [negb].
      rewrite map_get_set, decide_True by reflexivity. cbn.
      destruct (in_category c0 p); congruence. }
  intros c. subst m2. rewrite map_get_set, Hold.
  unfold group_of. rewrite in_category_snoc. fold c0.
  destruct (decide (c = c0)) as [-> | Hne].
  - rewrite bool_decide_eq_true_2 by reflexivity.
    destruct (in_category c0 p); reflexivity.
  - rewrite bool_decide_eq_false_2 by congruence. rewrite app_nil_r.
    subst m1. destruct (negb (map_has m c0)).
    + rewrite map_get_set, decide_False by exact Hne. apply Hget.
    + apply Hget.
Qed.

Lemma group_by_category_spec (docs : list Obj) :
  (∀ c, map_get (group_by_category docs) c = group_of c docs)
  ∧ NoDup (map fst (group_by_category docs)).
Proof.
  unfold group_by_category.
  assert (H : ∀ (l p : list Obj) (m : list (string * list Obj)),
             (∀ c, map_get m c = group_of c p) → NoDup (map fst m) →
             let m' := fold_left
                         (fun m article =>
                            let c := category (fields article) in
                            let m := if negb (map_has m c) then map_set m c [] else m in
                            map_set m c (default [] (map_get m c) ++ [article])) l m in
             (∀ c, map_get m' c = group_of c (p ++ l)) ∧ NoDup (map fst m')).
  { induction l as [|a l IH]; intros p m Hget Hnd; cbn [fold_left].
    - rewrite app_nil_r. now split.
    - destruct (group_step m p a Hget Hnd) as [Hget' Hnd'].
      specialize (IH (p ++ [a]) _ Hget' Hnd'). rewrite <- app_assoc in IH. exact IH. }
  apply (H docs [] []); [reflexivity | constructor].
Qed.

Lemma group_by_category_elem (docs : list Obj) (c : string) (arts : list Obj) :
  (c, arts) ∈ group_by_category docs → arts = in_category c docs ∧ arts ≠ [].
Proof.
  intros Hin. destruct (group_by_category_spec docs) as [Hget Hnd].
  apply (map_get_of_elem _ _ _ Hnd) in Hin. rewrite Hget in Hin.
  unfold group_of in Hin. destruct (in_category c docs) eqn:E; [discriminate | ].
  injection Hin as <-. split; [reflexivity | discriminate].
Qed.

Lemma getTopicsByCategory_elem (docs : list Obj) (c : string) (ts : list Topic) :
  (c, ts) ∈ getTopicsByCategory extractKeywords docs →
  ∃ arts, (c, arts) ∈ group_by_category docs ∧ ts = discover arts 2.
Proof.
  unfold getTopicsByCategory.
  generalize (group_by_category docs) as groups.
  assert (H : ∀ (groups : list (string * list Obj)) (cm : list (string * list Topic)),
             (c, ts) ∈ fold_left
                          (fun categoryMap entry =>
                             let '(category, categoryArticles) := entry in
                             map_set categoryMap category (discover categoryArticles 2))
                          groups cm →
             (c, ts) ∈ cm ∨ ∃ arts, (c, arts) ∈ groups ∧ ts = discover arts 2).
  { induction groups as [|[c0 arts0] groups IH]; intros cm; cbn [fold_left]; [now left | ].
    intros Hin. apply IH in Hin as [Hin | (arts & Hin & Heq)].
    - apply elem_of_map_set in Hin as [[-> ->] | Hin]; [ | now left].
      right. exists arts0. split; [now left | reflexivity].
    - right. exists arts. split; [now right | exact Heq]. }
  intros groups Hin. apply H in Hin as [Hin | Hin]; [inversion Hin | exact Hin].
Qed.

(** Every group of [articlesByCategory] gets its entry: the topics
    discovered among the articles of the group with the threshold 2. *)
Lemma getTopicsByCategory_complete (docs : list Obj) (c : string) (arts : list Obj) :
  (c, arts) ∈ group_by_category docs →
  (c, discover arts 2) ∈ getTopicsByCategory extractKeywords docs.
Proof.
  unfold getTopicsByCategory.
  destruct (group_by_category_spec docs) as [_ Hnd]. revert Hnd.
  generalize (group_by_category docs) as groups.
  assert (Hkeep : ∀ (groups : list (string * list Obj)) (cm : list (string * list Topic)) ts,
             c ∉ map fst groups → (c, ts) ∈ cm →
             (c, ts) ∈ fold_left
                          (fun categoryMap entry =>
                             let '(category, categoryArticles) := entry in
                             map_set categoryMap category (discover categoryArticles 2))
                          groups cm).
  { induction groups as [|[c0 arts0] groups IH]; intros cm ts Hc Hin; cbn [fold_left];
      [exact Hin | ].
    cbn [map fst] in Hc. apply not_elem_of_cons in Hc as [Hne Hc].
    apply IH; [exact Hc | ]. now apply elem_of_map_set_other. }
  assert (Hmain : ∀ (groups : list (string * list Obj)) (cm : list (string * list Topic)),
             NoDup (map fst groups) → (c, arts) ∈ groups →
             (c, discover arts 2)
             ∈ fold_left
                 (fun categoryMap entry =>
                    let '(category, categoryArticles) := entry in
                    map_set categoryMap category (discover categoryArticles 2))
                 groups cm).
  { induction groups as [|[c0 arts0] groups IH]; intros cm Hnd Hin; [inversion Hin | ].
    cbn [map fst] in Hnd. apply NoDup_cons in Hnd as [Hc0 Hnd]. cbn [fold_left].
    apply elem_of_cons in Hin as [Heq | Hin].
    - injection Heq as -> ->. apply Hkeep; [exact Hc0 | apply elem_of_map_set_same].
    - now apply IH. }
  intros groups Hnd Hin. now apply Hmain.
Qed.

Lemma getTopicsByCategory_keys_NoDup (docs : list Obj) :
  NoDup (map fst (getTopicsByCategory extractKeywords docs)).
Proof.
  unfold getTopicsByCategory.
  generalize (group_by_category docs) as groups.
  assert (H : ∀ (groups : list (string * list Obj)) (cm : list (string * list Topic)),
             NoDup (map fst cm) →
             NoDup (map fst (fold_left
                          (fun categoryMap entry =>
                             let '(category, categoryArticles) := entry in
                             map_set categoryMap category (discover categoryArticles 2))
                          groups cm))).
  { induction groups as [|[c0 arts0] groups IH]; intros cm Hnd; cbn [fold_left];
      [exact Hnd | ].
    apply IH. now apply map_set_keys_NoDup. }
  intros groups. apply H. constructor.
Qed.

(** The category of an article of the collection is a group. *)
Lemma group_by_category_has (docs : list Obj) (a : Obj) :
  a ∈ docs →
  (category (fields a), in_category (category (fields a)) docs) ∈ group_by_category docs.
Proof.
  intros Ha. destruct (group_by_category_spec docs) as [Hget _].
  apply map_get_elem. rewrite Hget. unfold group_of.
  assert (Hin : a ∈ in_category (category (fields a)) docs).
  { unfold in_category. apply elem_of_filter_bool. split; [exact Ha | ].
    now apply bool_decide_eq_true. }
  destruct (in_category (category (fields a)) docs); [inversion Hin | reflexivity].
Qed.

(** The topics of [getEmergingTopics] are topics of the default call. *)
Lemma getEmergingTopics_count (docs : list Obj) (t : Topic) :
  t ∈ getEmergingTopics extractKeywords docs →
  ∃ t0, t0 ∈ discover docs minArticles_default ∧ name t = name t0 ∧ count t = count t0.
Proof.
  unfold getEmergingTopics, sort_number. intros Ht.
  apply elem_of_sort_by in Ht. apply list_elem_of_fmap in Ht as (t0 & -> & Ht0).
  exists t0. split; [exact Ht0 | split; reflexivity].
Qed.

(** C4. [discoverTopics] never returns a topic whose supporting-document
    count is below [minArticles], whatever the collection and the
    threshold.  The default threshold is 3: the topics of a call that
    leaves the threshold out, as [getEmergingTopics] makes it, are
    supported by at least 3 documents.  [getTopicsByCategory] runs the
    discovery per category with the threshold 2: every category that
    occurs in the collection has an entry, exactly one, and the entry of
    a category holds the topics discovered among the articles of that
    category with the threshold 2. *)
Theorem discoverTopics_min_support (docs : list Obj) (minArticles : Z) :
  (∀ t, t ∈ discover docs minArticles →
        (minArticles <= Z.of_nat (count t))%Z ∧ count t = length (articles t))
  ∧ (∀ t, t ∈ discover docs minArticles_default → (3 ≤ count t)%nat)
  ∧ (∀ t, t ∈ getEmergingTopics extractKeywords docs → (3 ≤ count t)%nat)
  ∧ (∀ c ts, (c, ts) ∈ getTopicsByCategory extractKeywords docs →
       ts = discover (in_category c docs) 2
       ∧ in_category c docs ≠ []
       ∧ ∀ t, t ∈ ts → (2 ≤ count t)%nat)
  ∧ (∀ a, a ∈ docs →
       (category (fields a), discover (in_category (category (fields a)) docs) 2)
       ∈ getTopicsByCategory extractKeywords docs)
  ∧ NoDup (map fst (getTopicsByCategory extractKeywords docs)).
Proof.
  assert (Hdefault : ∀ t, t ∈ discover docs minArticles_default → (3 ≤ count t)%nat).
  { intros t Ht. apply discoverTopics_elem in Ht as (e & _ & Hmin & _ & Hc & _).
    unfold minArticles_default in Hmin. rewrite Hc. lia. }
  split; [ | split; [exact Hdefault | split; [ | split; [ | split]]]].
  - intros t Ht. apply discoverTopics_elem in Ht as (e & _ & Hmin & _ & Hc & Ha & _).
    rewrite Hc, Ha. split; [exact Hmin | reflexivity].
  - intros t Ht. apply getEmergingTopics_count in Ht as (t0 & Ht0 & _ & ->).
    now apply Hdefault.
  - intros c ts Hin. apply getTopicsByCategory_elem in Hin as (arts & Hg & ->).
    apply group_by_category_elem in Hg as [-> Hne].
    split; [reflexivity | split; [exact Hne | ]].
    intros t Ht. apply discoverTopics_elem in Ht as (e & _ & Hmin & _ & Hc & _).
    rewrite Hc. lia.
  - intros a Ha. apply getTopicsByCategory_complete. now apply group_by_category_has.
  - apply getTopicsByCategory_keys_NoDup.
Qed.


(** *** Empty and small collections *)

End DiscoveryFacts.

(** A topic without supporting documents overlaps with no topic. *)
Lemma findRelatedTopics_no_articles (t0 : Topic) (allTopics : list Topic) :
  articles t0 = [] → findRelatedTopics t0 allTopics = [].
Proof.
  intros Hnone. unfold findRelatedTopics. rewrite Hnone. cbn [map].
  assert (H : ∀ l : list Topic,
             List.filter (fun e : Topic * nat => (0 <? snd e)%nat)
               (map (fun t => (t, overlap_with [] t)) l) = []).
  { induction l as [|t l IH]; [reflexivity | ].
    cbn [map List.filter snd]. unfold overlap_with at 1.
    assert (Hz : List.filter (fun a : Obj => bool_decide (id (fields a) ∈ @nil Z)) (articles t)
                 = []).
    { induction (articles t) as [|a arts IHa]; [reflexivity | ].
      cbn [List.filter]. rewrite bool_decide_eq_false_2 by (intros Hin; inversion Hin).
      exact IHa. }
    rewrite Hz. exact IH. }
  rewrite H. reflexivity.
Qed.

Section TrendFacts.
Variable extractKeywords : string → list string → nat → list string.

Local Abbreviation discover := (discoverTopics extractKeywords).

(** C8. Every topic-discovery contract maps an empty input collection to
    an empty result: [discoverTopics], [analyzeTopicTrends] (with an empty
    current window, whatever the previous one), [getEmergingTopics],
    [getTopicsByCategory] and [findRelatedTopics] (with no other topic,
    or for a topic without supporting documents).  The functions of the
    model are total, so no call fails. *)
Theorem empty_input_empty_result (minArticles : Z) (previous : list Obj) (t0 : Topic) :
  discover [] minArticles = []
  ∧ analyzeTopicTrends extractKeywords [] [] = []
  ∧ analyzeTopicTrends extractKeywords [] previous = []
  ∧ getEmergingTopics extractKeywords [] = []
  ∧ getTopicsByCategory extractKeywords [] = []
  ∧ findRelatedTopics t0 [] = []
  ∧ (∀ allTopics, articles t0 = [] → findRelatedTopics t0 allTopics = []).
Proof.
  repeat split; try reflexivity.
  intros allTopics Hnone. now apply findRelatedTopics_no_articles.
Qed.

Lemma sorted_half_length (docs : list Obj) :
  (length docs < 6)%nat →
  let sortedArticles :=
    sort_int (fun a b => (getTime (fields b) - getTime (fields a))%Z) docs in
  (length (take (length sortedArticles / 2) sortedArticles) ≤ 2)%nat.
Proof.
  intros Hn sortedArticles. subst sortedArticles. unfold sort_int.
  rewrite length_take, sort_by_length.
  etransitivity; [apply Nat.le_min_l | ].
  apply Nat.lt_succ_r, Nat.Div0.div_lt_upper_bound. lia.
Qed.

Lemma enrich_no_trend (t : Topic) : trend (enrich [] t) = stable ∧ velocity (enrich [] t) = 0%float.
Proof. split; reflexivity. Qed.

(** C10. For a collection of fewer than 6 documents the recent half of
    the midpoint split has at most 2 documents, discovery over it with the
    default threshold 3 finds no topic, there is no trend record, and
    every topic [getEmergingTopics] returns has trend [stable] and
    velocity 0. *)
Theorem few_documents_all_stable (docs : list Obj) :
  (length docs < 6)%nat →
  let sortedArticles :=
    sort_int (fun a b => (getTime (fields b) - getTime (fields a))%Z) docs in
  let midpoint := (length sortedArticles / 2)%nat in
  (length (take midpoint sortedArticles) ≤ 2)%nat
  ∧ discover (take midpoint sortedArticles) minArticles_default = []
  ∧ analyzeTopicTrends extractKeywords (take midpoint sortedArticles)
      (drop midpoint sortedArticles) = []
  ∧ ∀ t, t ∈ getEmergingTopics extractKeywords docs →
         trend t = stable ∧ velocity t = 0%float.
Proof.
  intros Hn sortedArticles midpoint.
  pose proof (sorted_half_length docs Hn) as Hhalf. cbv zeta in Hhalf.
  fold sortedArticles in Hhalf. fold midpoint in Hhalf.
  assert (Hnone : discover (take midpoint sortedArticles) minArticles_default = []).
  { apply discoverTopics_few. unfold minArticles_default. lia. }
  assert (Htrends : analyzeTopicTrends extractKeywords (take midpoint sortedArticles)
                      (drop midpoint sortedArticles) = []).
  { unfold analyzeTopicTrends. rewrite Hnone. reflexivity. }
  split; [exact Hhalf | split; [exact Hnone | split; [exact Htrends | ]]].
  intros t Ht. unfold getEmergingTopics in Ht.
  fold sortedArticles in Ht. fold midpoint in Ht. rewrite Htrends in Ht.
  unfold sort_number in Ht. apply elem_of_sort_by in Ht.
  apply list_elem_of_In, in_map_iff in Ht as (t' & <- & _).
  apply enrich_no_trend.
Qed.


(** *** Trend records *)

Lemma same_name_same_topic (l : list Topic) (a b : Topic) :
  NoDup (map name l) → a ∈ l → b ∈ l → name a = name b → a = b.
Proof.
  induction l as [|x l IH]; intros Hnd Ha Hb Hn; [inversion Ha | ].
  cbn [map] in Hnd. apply NoDup_cons in Hnd as [Hx Hnd].
  assert (Hin : ∀ t, t ∈ l → name t ∈ map name l)
    by (intros t Ht; apply list_elem_of_In, in_map, list_elem_of_In, Ht).
  apply elem_of_cons in Ha as [-> | Ha]; apply elem_of_cons in Hb as [-> | Hb].
  - reflexivity.
  - exfalso. apply Hx. rewrite Hn. now apply Hin.
  - exfalso. apply Hx. rewrite <- Hn. now apply Hin.
  - now apply IH.
Qed.

(** The record of a topic that is new in the current window. *)
Lemma trend_record_new (previousTopics : list Topic) (t : Topic) :
  (∀ p, p ∈ previousTopics → name p ≠ name t) →
  percentageChange (trend_record previousTopics t) = 100%float
  ∧ trendOf (trend_record previousTopics t) = rising.
Proof.
  intros Hnew. unfold trend_record.
  destruct (List.find _ previousTopics) as [p | ] eqn:Hfind.
  - apply List.find_some in Hfind as [Hin Hname].
    apply bool_decide_eq_true in Hname.
    exfalso. apply (Hnew p); [now apply list_elem_of_In | exact Hname].
  - split; reflexivity.
Qed.

(** The record of a topic that the previous window has too. *)
Lemma trend_record_known (docs : list Obj) (t p : Topic) :
  p ∈ discover docs minArticles_default → name p = name t →
  let r := trend_record (discover docs minArticles_default) t in
  previousCount r = count p
  ∧ percentageChange r
    = ((number_of_nat (count t) - number_of_nat (count p)) / number_of_nat (count p)
       * 100)%float.
Proof.
  intros Hp Hname r. subst r. unfold trend_record.
  destruct (List.find _ (discover docs minArticles_default)) as [p' | ] eqn:Hfind.
  - apply List.find_some in Hfind as [Hin Hname'].
    apply bool_decide_eq_true in Hname'. apply list_elem_of_In in Hin.
    assert (p' = p).
    { apply (same_name_same_topic (discover docs minArticles_default));
        [apply discoverTopics_names_NoDup | assumption | assumption | congruence]. }
    subst p'. cbn [previousCount percentageChange].
    apply discoverTopics_elem in Hp as (e & _ & Hmin & _ & Hc & _).
    unfold minArticles_default in Hmin.
    destruct (count p) as [|n] eqn:Hcount; [lia | ].
    split; reflexivity.
  - exfalso.
    assert (Hf : bool_decide (name p = name t) = false).
    { apply (List.find_none _ _ Hfind p). now apply list_elem_of_In. }
    apply bool_decide_eq_false in Hf. contradiction.
Qed.

Lemma trend_record_trend (previousTopics : list Topic) (t : Topic) :
  let r := trend_record previousTopics t in
  (trendOf r = rising ↔ PrimFloat.ltb 20 (percentageChange r) = true)
  ∧ (trendOf r = falling ↔ PrimFloat.ltb (percentageChange r) (-20) = true)
  ∧ (trendOf r = stable ↔
       PrimFloat.ltb 20 (percentageChange r) = false
       ∧ PrimFloat.ltb (percentageChange r) (-20) = false).
Proof.
  intros r. subst r. unfold trend_record.
  cbn [trendOf percentageChange].
  set (pc := if (0 <? _)%nat then _ else _).
  pose proof (NumberFacts.below_minus_20_not_above_20 pc) as Hexcl.
  destruct (PrimFloat.ltb 20 pc) eqn:H1, (PrimFloat.ltb pc (-20)) eqn:H2;
    try (specialize (Hexcl eq_refl); discriminate Hexcl);
    repeat split; intros; try discriminate; try reflexivity;
      match goal with H : _ ∧ _ |- _ => destruct H; discriminate end.
Qed.

(** C3. Every record of [analyzeTopicTrends] belongs to a topic of the
    current window.  If no topic of the previous window has its name, its
    [percentageChange] is exactly 100 and its trend is [rising]; if one
    has, [percentageChange] is [(current - previous) / previous * 100],
    computed in binary64 as the source does.  The trend is [rising]
    exactly when the change is above 20 and [falling] exactly when it is
    below -20.  The records are in descending order of the absolute
    [percentageChange]: none is followed by a record with a larger
    absolute change. *)
Theorem analyzeTopicTrends_records (currentArticles previousArticles : list Obj) :
  let trends := analyzeTopicTrends extractKeywords currentArticles previousArticles in
  let previousTopics := discover previousArticles minArticles_default in
  (∀ r, r ∈ trends →
     (∃ t, t ∈ discover currentArticles minArticles_default
           ∧ topic r = name t ∧ currentCount r = count t)
     ∧ ((∀ p, p ∈ previousTopics → name p ≠ topic r) →
        percentageChange r = 100%float ∧ trendOf r = rising)
     ∧ (∀ p, p ∈ previousTopics → name p = topic r →
        previousCount r = count p
        ∧ percentageChange r
          = ((number_of_nat (currentCount r) - number_of_nat (count p))
             / number_of_nat (count p) * 100)%float)
     ∧ (trendOf r = rising ↔ PrimFloat.ltb 20 (percentageChange r) = true)
     ∧ (trendOf r = falling ↔ PrimFloat.ltb (percentageChange r) (-20) = true))
  ∧ Sorted
      (fun a b =>
         PrimFloat.ltb (PrimFloat.abs (percentageChange a))
           (PrimFloat.abs (percentageChange b)) = false)
      trends.
Proof.
  intros trends previousTopics. split.
  - intros r Hr. subst trends. unfold analyzeTopicTrends, sort_number in Hr.
    apply elem_of_sort_by in Hr.
    apply list_elem_of_In, in_map_iff in Hr as (t & <- & Ht).
    apply list_elem_of_In in Ht. fold previousTopics.
    split; [exists t; split; [exact Ht | split; reflexivity] | ].
    split; [intros Hnew; now apply trend_record_new | ].
    split; [intros p Hp Hname; now apply (trend_record_known previousArticles t p) | ].
    destruct (trend_record_trend previousTopics t) as (H1 & H2 & _).
    split; assumption.
  - subst trends. unfold analyzeTopicTrends, sort_number.
    eapply Sorted_weaken; [ | apply sort_by_sorted].
    + intros a b Hcmp. cbv beta in Hcmp.
      destruct (PrimFloat.ltb (PrimFloat.abs (percentageChange a))
                  (PrimFloat.abs (percentageChange b))) eqn:Hlt; [ | reflexivity].
      apply NumberFacts.abs_difference_positive in Hlt. congruence.
    + intros a b. apply NumberFacts.abs_difference_asym.
Qed.

End TrendFacts.

(** No document, no topic; and a topic without supporting documents has
    no related topic. *)
Lemma empty_input_empty_result_witness :
  let t0 := {| name := "alpha"; count := 0; articles := []; trend := stable;
               velocity := 0%float; keywords := [] |} in
  discoverTopics sample_extractKeywords [] 3 = []
  ∧ getEmergingTopics sample_extractKeywords [] = []
  ∧ findRelatedTopics t0
      (discoverTopics sample_extractKeywords (sample_docs 1 4 "alpha beta") 3) = [].
Proof.
  intros t0.
  destruct (empty_input_empty_result sample_extractKeywords 3 [] t0)
    as (H1 & _ & _ & H4 & _ & _ & H7).
  split; [exact H1 | split; [exact H4 | ]].
  apply H7. reflexivity.
Defined.

(** Four documents with two words each: two topics, each supported by
    the four documents, none below the threshold 3.  Two documents of one
    category: no topic with the default threshold, and under their
    category the two topics that the threshold 2 admits. *)
Lemma discoverTopics_min_support_witness :
  map (fun t => (name t, count t))
    (discoverTopics sample_extractKeywords (sample_docs 1 4 "alpha beta") 3)
  = [("alpha", 4%nat); ("beta", 4%nat)]
  ∧ (∀ t, t ∈ discoverTopics sample_extractKeywords (sample_docs 1 4 "alpha beta") 3 →
          (3 <= Z.of_nat (count t))%Z)
  ∧ discoverTopics sample_extractKeywords (sample_docs 1 2 "alpha beta") 3 = []
  ∧ ∃ ts, ("Tech", ts) ∈ getTopicsByCategory sample_extractKeywords
                           (sample_docs 1 2 "alpha beta")
          ∧ map (fun t => (name t, count t)) ts = [("alpha", 2%nat); ("beta", 2%nat)].
Proof.
  split; [vm_compute; reflexivity | split; [ | split; [vm_compute; reflexivity | ]]].
  - intros t Ht.
    destruct (discoverTopics_min_support sample_extractKeywords
                (sample_docs 1 4 "alpha beta") 3) as (H & _).
    exact (proj1 (H t Ht)).
  - destruct (discoverTopics_min_support sample_extractKeywords
                (sample_docs 1 2 "alpha beta") 3) as (_ & _ & _ & _ & H & _).
    eexists. split.
    + apply (H {| addr := 1;
                  fields := {| id := 1; content := "alpha beta"; category := "Tech";
                               date := Some 1%Z |} |}).
      vm_compute. apply elem_of_cons. left. reflexivity.
    + vm_compute. reflexivity.
Defined.

(** Four documents on one subject: two topics, stable, with velocity 0. *)
Lemma few_documents_all_stable_witness :
  map (fun t => (name t, count t, trend t))
    (getEmergingTopics sample_extractKeywords (sample_docs 1 4 "alpha news"))
  = [("alpha", 4%nat, stable); ("news", 4%nat, stable)]
  ∧ ∀ t, t ∈ getEmergingTopics sample_extractKeywords (sample_docs 1 4 "alpha news") →
         trend t = stable ∧ velocity t = 0%float.
Proof.
  split; [vm_compute; reflexivity | ].
  assert (Hn : (length (sample_docs 1 4 "alpha news") < 6)%nat) by (vm_compute; lia).
  destruct (few_documents_all_stable sample_extractKeywords _ Hn) as (_ & _ & _ & H).
  exact H.
Defined.


(** The scenario of the specification, with a new topic beside it: a
    topic with 10 supporting documents in the previous window and 15 in the
    current one has a change of 50 and is rising; a topic that the previous
    window does not have is reported with 100, rising, and comes first. *)
Lemma analyzeTopicTrends_records_witness :
  let current := sample_docs 11 15 "alpha" ++ sample_docs 30 3 "gamma" in
  let previous := sample_docs 1 10 "alpha" in
  map (fun r => (topic r, currentCount r, previousCount r, percentageChange r, trendOf r))
    (analyzeTopicTrends sample_extractKeywords current previous)
  = [("gamma", 3%nat, 0%nat, 100%float, rising);
     ("alpha", 15%nat, 10%nat, 50%float, rising)]
  ∧ Sorted
      (fun a b =>
         PrimFloat.ltb (PrimFloat.abs (percentageChange a))
           (PrimFloat.abs (percentageChange b)) = false)
      (analyzeTopicTrends sample_extractKeywords current previous).
Proof.
  intros current previous.
  split; [vm_compute; reflexivity | ].
  destruct (analyzeTopicTrends_records sample_extractKeywords current previous) as [_ H].
  exact H.
Defined.

End TopicsFacts.

Module StringFacts.
Import JS JSString.

Lemma prefix_spec (t s : string) :
  String.prefix t s = true <-> exists r, s = t +:+ r.
Proof.
  revert s; induction t as [|c t IH]; intros s.
  - split; [intros _; exists s; reflexivity | intros _; destruct s; reflexivity].
  - destruct s as [|d s]; simpl.
    + split; [discriminate | intros [r H]; discriminate H].
    + destruct (ascii_dec c d) as [->|Hne].
      * rewrite IH. split; intros [r H]; exists r; [now rewrite H | now injection H].
      * split; [discriminate | intros [r H]; injection H; intros; congruence].
Qed.

Lemma app_cons (c : ascii) (a b : string) : String c a +:+ b = String c (a +:+ b).
Proof. reflexivity. Qed.

Lemma app_nil_l (a : string) : "" +:+ a = a.
Proof. reflexivity. Qed.

Lemma append_assoc' (a b c : string) : (a +:+ b) +:+ c = a +:+ (b +:+ c).
Proof.
  induction a as [|x a IH]; [reflexivity | ].
  rewrite !app_cons. f_equal. exact IH.
Qed.

Lemma append_nil_r (a : string) : a +:+ "" = a.
Proof. induction a as [|x a IH]; [reflexivity | rewrite app_cons; f_equal; exact IH]. Qed.

Lemma includes_spec (s t : string) :
  includes s t = true <-> exists p r, s = p +:+ t +:+ r.
Proof.
  induction s as [|c s IH].
  - cbn [includes]. destruct (String.prefix t "") eqn:Hp.
    + split; [intros _ | reflexivity].
      apply prefix_spec in Hp as [r Hr]. exists "", r. exact Hr.
    + split; [discriminate | intros (p & r & H)].
      destruct p as [|x p]; [ | discriminate H].
      rewrite app_nil_l in H. assert (String.prefix t "" = true) by (apply prefix_spec; eauto).
      congruence.
  - cbn [includes]. destruct (String.prefix t (String c s)) eqn:Hp.
    + split; [intros _ | reflexivity].
      apply prefix_spec in Hp as [r Hr]. exists "", r. exact Hr.
    + rewrite IH. split.
      * intros (p & r & ->). exists (String c p), r. reflexivity.
      * intros (p & r & H). destruct p as [|x p].
        -- rewrite app_nil_l in H. assert (String.prefix t (String c s) = true) by (apply prefix_spec; eauto).
           congruence.
        -- rewrite app_cons in H. injection H as _ ->. eauto.
Qed.

Lemma includes_refl (s : string) : includes s s = true.
Proof. apply includes_spec. exists "", "". now rewrite app_nil_l, append_nil_r. Qed.

Lemma includes_trans (s t u : string) :
  includes s t = true -> includes t u = true -> includes s u = true.
Proof.
  rewrite !includes_spec. intros (p & r & ->) (p' & r' & ->).
  exists (p +:+ p'), (r' +:+ r). now rewrite !append_assoc'.
Qed.

Lemma includes_app (pre s post t : string) :
  includes s t = true -> includes (pre +:+ s +:+ post) t = true.
Proof.
  rewrite !includes_spec. intros (p & r & ->).
  exists (pre +:+ p), (r +:+ post). now rewrite !append_assoc'.
Qed.

Lemma lower_char_idem (c : ascii) : lower_char (lower_char c) = lower_char c.
Proof.
  unfold lower_char at 1. destruct (is_upper (lower_char c)) eqn:H; [ | reflexivity].
  exfalso. revert H. unfold lower_char.
  destruct (is_upper c) eqn:Hc; [ | congruence].
  unfold is_upper in *.
  apply andb_prop in Hc as [H1 H2]. apply Nat.leb_le in H1, H2.
  rewrite nat_ascii_embedding by lia.
  intros H. apply andb_prop in H as [H3 H4]. apply Nat.leb_le in H3, H4. lia.
Qed.

Lemma toLowerCase_idem (s : string) : toLowerCase (toLowerCase s) = toLowerCase s.
Proof.
  induction s as [|c s IH]; simpl; [reflexivity | ].
  now rewrite IH, lower_char_idem.
Qed.







Lemma includes_prefix (s t : string) : String.prefix t s = true → includes s t = true.
Proof. intros H. destruct s; cbn [includes]; now rewrite H. Qed.

Lemma includes_cons (c : ascii) (s t : string) :
  includes s t = true → includes (String c s) t = true.
Proof. intros H. cbn [includes]. rewrite H. now destruct (String.prefix t (String c s)). Qed.

(** Every piece of a split occurs in the string. *)
Lemma split_go_substring (sep : ascii → bool) (s cur : string) (r : bool) (p : string) :
  (r = true → cur = "") → p ∈ split_go sep s cur r →
  (∃ t, p = cur +:+ t ∧ String.prefix t s = true) ∨ includes s p = true.
Proof.
  revert cur r; induction s as [|c s IH]; intros cur r Hr Hin.
  - apply list_elem_of_singleton in Hin as ->. left. exists "".
    rewrite append_nil_r. auto.
  - cbn [split_go] in Hin. destruct (sep c) eqn:Hc.
    + assert (Hrest : p ∈ split_go sep s "" true → includes (String c s) p = true).
      { intros H. apply includes_cons.
        destruct (IH "" true (fun _ => eq_refl) H) as [(t & -> & Ht) | Hi]; [ | exact Hi].
        rewrite app_nil_l. now apply includes_prefix. }
      destruct r.
      * rewrite (Hr eq_refl) in Hin. right. auto.
      * apply elem_of_cons in Hin as [-> | Hin]; [ | right; auto].
        left. exists "". rewrite append_nil_r. auto.
    + destruct (IH _ false ltac:(discriminate) Hin) as [(t & -> & Ht) | Hi].
      * left. exists (String c t). rewrite append_assoc', app_cons, app_nil_l.
        split; [reflexivity | ]. cbn [String.prefix].
        destruct (ascii_dec c c); [exact Ht | congruence].
      * right. now apply includes_cons.
Qed.

Lemma split_ws_includes (s p : string) : p ∈ split_ws s → includes s p = true.
Proof.
  intros H. destruct (split_go_substring is_space s "" false p ltac:(discriminate) H)
    as [(t & -> & Ht) | Hi]; [ | exact Hi].
  rewrite app_nil_l. now apply includes_prefix.
Qed.

(** *** Words joined by blanks split into the same words *)











End StringFacts.

Module SentimentFacts.
Import JS.

Lemma SFcompare_positive_antisym (m1 : positive) (e1 : Z) (m2 : positive) (e2 : Z) :
  SFcompare (S754_finite false m1 e1) (S754_finite false m2 e2)
  = option_map CompOpp (SFcompare (S754_finite false m2 e2) (S754_finite false m1 e1)).
Proof.
  unfold SFcompare. cbn [option_map]. f_equal.
  rewrite (Z.compare_antisym e1 e2).
  destruct (e1 ?= e2)%Z; cbn [CompOpp]; try reflexivity.
  rewrite Pos.compare_cont_antisym. reflexivity.
Qed.

(** The three sentiment classes of a compound score exclude one another,
    and a score that is a number falls in one of them. *)
Lemma sentiment_classes (x : float) :
  let P := PrimFloat.ltb 0.05 x in
  let N := PrimFloat.ltb x (-0.05) in
  let U := PrimFloat.leb (PrimFloat.abs x) 0.05 in
  P && N = false ∧ P && U = false ∧ N && U = false
  ∧ (PrimFloat.is_nan x = false → P || N || U = true).
Proof.
  cbv zeta. unfold PrimFloat.is_nan.
  rewrite !FloatAxioms.ltb_spec, !FloatAxioms.leb_spec, FloatAxioms.eqb_spec,
    FloatAxioms.abs_spec.
  replace (Prim2SF 0.05) with (S754_finite false 7205759403792794 (-57))
    by (vm_compute; reflexivity).
  replace (Prim2SF (-0.05)) with (S754_finite true 7205759403792794 (-57))
    by (vm_compute; reflexivity).
  generalize 7205759403792794%positive as M. generalize (-57)%Z as E. intros E M.
  destruct (Prim2SF x) as [[]|[]| |[] m e]; try (repeat split; intros; reflexivity || discriminate).
  - (* negative *)
    unfold SFltb, SFleb, SFeqb, SFabs, SFcompare.
    destruct (e ?= E)%Z; [destruct (Pos.compare_cont Eq m M) | | ];
      repeat split; intros; reflexivity.
  - (* positive *)
    unfold SFltb, SFleb, SFeqb, SFabs.
    rewrite (SFcompare_positive_antisym M E m e).
    replace (SFcompare (S754_finite false m e) (S754_finite true M E)) with (Some Gt)
      by reflexivity.
    destruct (SFcompare (S754_finite false m e) (S754_finite false M E)) as [[]|] eqn:Hc;
      [ | | | unfold SFcompare in Hc; discriminate Hc];
      repeat split; intros; reflexivity.
Qed.

End SentimentFacts.

Module QueryFiltersFacts.
Import JS JSString QueryParser QueryParserSpec QueryFilters QueryFiltersSpec StringFacts.

Lemma List_filter_sublist {A} (p : A → bool) (l : list A) : sublist (List.filter p l) l.
Proof.
  induction l as [|x l IH]; simpl; [constructor | ].
  destruct (p x); [apply sublist_skip | apply sublist_cons]; exact IH.
Qed.

Lemma map_sublist {A B} (f : A → B) (l k : list A) :
  sublist l k → sublist (map f l) (map f k).
Proof. induction 1; simpl; [constructor | now apply sublist_skip | now apply sublist_cons]. Qed.

Lemma List_filter_idem {A} (p : A → bool) (l : list A) :
  List.filter p (List.filter p l) = List.filter p l.
Proof.
  induction l as [|x l IH]; simpl; [reflexivity | ].
  destruct (p x) eqn:Hp; simpl; [rewrite Hp, IH | ]; auto.
Qed.

Lemma List_filter_comm {A} (p q : A → bool) (l : list A) :
  List.filter p (List.filter q l) = List.filter q (List.filter p l).
Proof.
  induction l as [|x l IH]; simpl; [reflexivity | ].
  destruct (p x) eqn:Hp, (q x) eqn:Hq; simpl; rewrite ?Hp, ?Hq, IH; reflexivity.
Qed.

Lemma stage_sublist {A} (t : option (A → bool)) (l : list A) : sublist (stage t l) l.
Proof. destruct t; simpl; [apply List_filter_sublist | reflexivity]. Qed.

Lemma stage_comm {A} (t u : option (A → bool)) (l : list A) :
  stage t (stage u l) = stage u (stage t l).
Proof. destruct t, u; simpl; auto using List_filter_comm. Qed.

Lemma stage_idem {A} (t : option (A → bool)) (l : list A) :
  stage t (stage t l) = stage t l.
Proof. destruct t; simpl; auto using List_filter_idem. Qed.

Lemma stage_app {A} (t : option (A → bool)) (l l' : list A) :
  stage t (l ++ l') = stage t l ++ stage t l'.
Proof. destruct t; simpl; auto using List.filter_app. Qed.

Lemma applyFilters_stages (articles : list ScoredArticle) (f : Filters) :
  applyFilters articles f
  = stage (keyword_stage f) (stage (date_stage f) (stage (category_stage f)
      (stage (sentiment_stage f) articles))).
Proof.
  unfold applyFilters, keyword_stage, date_stage, category_stage, sentiment_stage.
  destruct (sentiment f), (categories f) as [[|c cs]|], (dateRange f),
    (keywords f) as [[|k ks]|]; reflexivity.
Qed.

(** X1. [applyFilters] selects: it returns a subsequence of its input
    (nothing added, order kept), filtering a second time changes nothing,
    a concatenation is filtered piece by piece, and the empty category
    and keyword arrays of a query without patterns filter nothing. *)
Theorem applyFilters_selects (articles more : list ScoredArticle) (f : Filters) :
  sublist (applyFilters articles f) articles
  ∧ applyFilters (applyFilters articles f) f = applyFilters articles f
  ∧ applyFilters (articles ++ more) f = applyFilters articles f ++ applyFilters more f
  ∧ applyFilters articles empty_filters = articles.
Proof.
  rewrite !applyFilters_stages.
  set (k := keyword_stage f). set (d := date_stage f).
  set (c := category_stage f). set (s := sentiment_stage f).
  repeat split.
  - repeat (etrans; [apply stage_sublist | ]). reflexivity.
  - rewrite (stage_comm s k), (stage_comm s d), (stage_comm s c), stage_idem.
    rewrite (stage_comm c k), (stage_comm c d), stage_idem.
    rewrite (stage_comm d k), stage_idem.
    rewrite stage_idem. reflexivity.
  - rewrite !stage_app. reflexivity.
Qed.

(** Three tests of which every element passes exactly one split a list. *)
Lemma three_way_split {A} (p q r : A → bool) (l : list A) :
  Forall (fun a => exactly_one (p a) (q a) (r a) = true) l →
  List.filter p l ++ List.filter q l ++ List.filter r l ≡ₚ l.
Proof.
  induction 1 as [|a l Ha _ IH]; [reflexivity | ].
  cbn [List.filter]. unfold exactly_one in Ha.
  destruct (p a), (q a), (r a); try discriminate Ha.
  - cbn [app]. constructor. exact IH.
  - cbn [app]. rewrite <- Permutation_middle. constructor. exact IH.
  - rewrite app_assoc, <- Permutation_middle, <- app_assoc. constructor. exact IH.
Qed.

(** X2. The three sentiment filters split a collection: when every
    compound score is a number, each article is kept by exactly one of
    the positive, negative and neutral filters, so the three results
    together are a rearrangement of the input.  (An article whose score
    is NaN is kept by none of them.) *)
Theorem sentiment_filters_partition (articles : list ScoredArticle) :
  Forall (fun a => PrimFloat.is_nan (compound a) = false) articles →
  applyFilters articles (sentiment_only positive)
  ++ applyFilters articles (sentiment_only negative)
  ++ applyFilters articles (sentiment_only neutral) ≡ₚ articles.
Proof.
  intros Hnum. unfold applyFilters, sentiment_only.
  cbn [sentiment categories dateRange keywords].
  apply three_way_split.
  eapply Forall_impl; [exact Hnum | ].
  intros a Ha. cbn beta in *. unfold sentiment_test.
  destruct (SentimentFacts.sentiment_classes (compound a)) as (H1 & H2 & H3 & H4).
  specialize (H4 Ha). cbv zeta in *.
  destruct (PrimFloat.ltb 0.05 (compound a)), (PrimFloat.ltb (compound a) (-0.05)),
    (PrimFloat.leb (PrimFloat.abs (compound a)) 0.05); try discriminate; reflexivity.
Qed.

(** An article whose score is NaN passes no sentiment filter. *)
Lemma nan_passes_no_sentiment (a : ScoredArticle) (s : Sentiment) :
  PrimFloat.is_nan (compound a) = true → sentiment_test s a = false.
Proof.
  unfold PrimFloat.is_nan, sentiment_test.
  rewrite !FloatAxioms.ltb_spec, !FloatAxioms.leb_spec, FloatAxioms.eqb_spec,
    FloatAxioms.abs_spec.
  destruct (Prim2SF (compound a)) as [z|i| |sg m e].
  - destruct z; intros H; discriminate H.
  - destruct i; intros H; discriminate H.
  - intros _. destruct s; reflexivity.
  - unfold SFeqb, SFcompare.
    rewrite Z.compare_refl, Pos.compare_cont_refl.
    destruct sg; intros H; discriminate H.
Qed.

Lemma sentiment_filters_partition_witness :
  applyFilters sample_scored (sentiment_only positive)
  ++ applyFilters sample_scored (sentiment_only negative)
  ++ applyFilters sample_scored (sentiment_only neutral) ≡ₚ sample_scored.
Proof.
  apply sentiment_filters_partition.
  repeat constructor.
Defined.

Lemma extractKeywords_elem (query k : string) :
  k ∈ extractKeywords query ↔
  k ∈ split_ws (toLowerCase query) ∧ (2 < utf16_length k)%nat
  ∧ (k ∉ stopWords) ∧ (k ∉ allPatternWords).
Proof.
  unfold extractKeywords.
  rewrite elem_of_uniq, !elem_of_filter_bool.
  unfold array_includes. rewrite !negb_true_iff, !bool_decide_eq_false, Nat.ltb_lt.
  tauto.
Qed.



(** A word of two letters, one of them accented, has two code units and
    is no keyword; the other words come back in order, once. *)
Example extractKeywords_sample :
  extractKeywords "Show me né storms and STORMS in Québec" = ["storms"; "and"; "québec"]
  ∧ extractKeywords "né" = [].
Proof. vm_compute. auto. Qed.

Lemma elem_of_extractCategories (query c : string) :
  c ∈ extractCategories query ↔
  ∃ kws kw, (c, kws) ∈ CATEGORY_PATTERNS ∧ kw ∈ kws ∧ includes query kw = true.
Proof.
  unfold extractCategories. rewrite list_elem_of_fmap. split.
  - intros ([c' kws] & -> & Hin). apply elem_of_filter_bool in Hin as [Hin Hex].
    apply existsb_exists in Hex as (kw & Hkw & Hinc).
    exists kws, kw. cbn [fst snd] in *.
    split; [exact Hin | split; [apply list_elem_of_In; exact Hkw | exact Hinc]].
  - intros (kws & kw & Hin & Hkw & Hinc). exists (c, kws). split; [reflexivity | ].
    apply elem_of_filter_bool. split; [exact Hin | ].
    apply existsb_exists. exists kw. split; [apply list_elem_of_In; exact Hkw | exact Hinc].
Qed.

(** X4. The categories of a query are a subsequence of the table's
    category names (table order, each at most once), and text put before
    or behind a query never takes a category away. *)
Theorem extractCategories_grows (query pre post c : string) :
  sublist (extractCategories query) (map fst CATEGORY_PATTERNS)
  ∧ (c ∈ extractCategories query → c ∈ extractCategories (pre +:+ query +:+ post)).
Proof.
  split.
  - unfold extractCategories. apply map_sublist, List_filter_sublist.
  - rewrite !elem_of_extractCategories. intros (kws & kw & Hin & Hkw & Hinc).
    exists kws, kw. auto using includes_app.
Qed.

Lemma extractCategories_grows_witness :
  "Technology" ∈ extractCategories ("fin" +:+ "tech" +:+ " news").
Proof.
  apply (proj2 (extractCategories_grows "tech" "fin" " news" "Technology")).
  vm_compute. apply list_elem_of_singleton. reflexivity.
Defined.

(** X5. [extractSentiment] gives the positive list the first say: a
    query in which a positive word occurs is positive, also when the word
    occurs inside a negative one, as [favorable] in [unfavorable]; a
    query is negative only if no positive word occurs in it. *)
Theorem extractSentiment_positive_first (query kw : string) :
  (kw ∈ positive_words → includes query kw = true →
     extractSentiment query = Some positive)
  ∧ (includes query "unfavorable" = true → extractSentiment query = Some positive)
  ∧ (extractSentiment query = Some negative →
     ∀ w, w ∈ positive_words → includes query w = false).
Proof.
  assert (Hpos : ∀ w, w ∈ positive_words → includes query w = true →
                 extractSentiment query = Some positive).
  { intros w Hw Hinc. unfold extractSentiment, SENTIMENT_PATTERNS.
    cbn [List.find snd]. fold positive_words.
    replace (some (λ keyword, includes query keyword) positive_words) with true;
      [reflexivity | ].
    symmetry. apply existsb_exists. exists w.
    split; [apply list_elem_of_In; exact Hw | exact Hinc]. }
  split; [apply Hpos | ]. split.
  - intros Hinc. apply (Hpos "favorable").
    + unfold positive_words. rewrite !elem_of_cons. tauto.
    + apply (includes_trans _ _ _ Hinc). reflexivity.
  - intros Hneg w Hw. destruct (includes query w) eqn:Hinc; [ | reflexivity].
    rewrite (Hpos w Hw Hinc) in Hneg. discriminate Hneg.
Qed.

Lemma extractSentiment_positive_first_witness :
  extractSentiment "unfavorable outlook for banks" = Some positive.
Proof.
  apply (proj1 (proj2 (extractSentiment_positive_first "unfavorable outlook for banks" ""))).
  reflexivity.
Defined.

(** Facts on bounded counts, by evaluation. *)
Lemma forallb_seq (P : nat → bool) (n k : nat) :
  forallb P (seq 0 n) = true → (k < n)%nat → P k = true.
Proof.
  intros H Hk. rewrite forallb_forall in H. apply H, in_seq. lia.
Qed.

Lemma hits_cases (P : nat → nat → bool → bool → bool) :
  forallb (fun k => forallb (fun j =>
     P k j false false && P k j false true && P k j true false && P k j true true)
     (seq 0 9)) (seq 0 8) = true →
  ∀ k j short multi, (k ≤ 7)%nat → (j ≤ 8)%nat → P k j short multi = true.
Proof.
  intros H k j short multi Hk Hj.
  apply (forallb_seq _ 8 k) in H; [ | lia].
  apply (forallb_seq _ 9 j) in H; [ | lia].
  repeat (apply andb_prop in H as [H ?]). destruct short, multi; auto.
Qed.

(** What the hit counts decide, for every reachable combination. *)
Lemma flags_by_counts (k j : nat) (short multi : bool) :
  (k ≤ 7)%nat → (j ≤ 8)%nat →
  flag_table k j short multi = true.
Proof. apply hits_cases. vm_compute. reflexivity. Qed.

Lemma detectAmbiguity_isAmbiguous (query : string) (articles : list Article) :
  let lq := toLowerCase query in
  isAmbiguous (detectAmbiguity query articles)
  = PrimFloat.ltb
      (confidence_of (penalty_of (length (entity_hits lq)) (length (vague_hits (split_ws lq)))
                        (is_short (split_ws lq)) (is_multi lq))) 0.7.
Proof.
  intros lq. unfold detectAmbiguity. cbn [isAmbiguous].
  destruct (QueryParserFacts.scan_query_fields query) as (_ & _ & _ & ->). reflexivity.
Qed.

Lemma no_terms_not_ambiguous (query : string) (articles : list Article) :
  ambiguousTerms (detectAmbiguity query articles) = [] →
  isAmbiguous (detectAmbiguity query articles) = false
  ∧ PrimFloat.leb 0.75 (confidence (detectAmbiguity query articles)) = true.
Proof.
  intros Hnil. rewrite detectAmbiguity_isAmbiguous.
  unfold detectAmbiguity in *. cbn [ambiguousTerms confidence] in *.
  destruct (QueryParserFacts.scan_query_fields query) as (T & _ & _ & P). cbv zeta in T, P.
  rewrite P. rewrite T in Hnil. fold (confidence_of).
  apply app_eq_nil in Hnil as [He Hv].
  apply (f_equal (@length string)) in He. rewrite length_map in He.
  rewrite He, Hv. cbn [length].
  destruct (is_short _), (is_multi _); vm_compute; auto.
Qed.

(** X6. [getAmbiguityPrompt] on a result of [detectAmbiguity]: empty
    when the query is not flagged; when it is flagged at least one term
    is reported and the prompt quotes the terms, so the generic prompt
    about a vague query is never returned. *)
Theorem ambiguity_prompt_quotes_terms (query : string) (articles : list Article) :
  let r := detectAmbiguity query articles in
  (isAmbiguous r = false → getAmbiguityPrompt r = "")
  ∧ (isAmbiguous r = true →
     ambiguousTerms r ≠ []
     ∧ getAmbiguityPrompt r
       = "Your query contains " +:+ dquote
           +:+ join (dquote +:+ ", " +:+ dquote) (ambiguousTerms r)
           +:+ dquote +:+ " which could mean different things. Please clarify:")
  ∧ getAmbiguityPrompt r ≠ vague_prompt.
Proof.
  intros r.
  assert (Hterms : isAmbiguous r = true → ambiguousTerms r ≠ []).
  { intros Ha Hnil. apply no_terms_not_ambiguous in Hnil as [Hn _].
    fold r in Hn. congruence. }
  assert (Hquote : isAmbiguous r = true →
     getAmbiguityPrompt r
       = "Your query contains " +:+ dquote
           +:+ join (dquote +:+ ", " +:+ dquote) (ambiguousTerms r)
           +:+ dquote +:+ " which could mean different things. Please clarify:").
  { intros Ha. unfold getAmbiguityPrompt. rewrite Ha. cbn [negb].
    destruct (ambiguousTerms r) eqn:Ht; [now apply Hterms in Ha | reflexivity]. }
  split; [ | split; [auto | ]].
  - intros Ha. unfold getAmbiguityPrompt. now rewrite Ha.
  - destruct (isAmbiguous r) eqn:Ha.
    + rewrite (Hquote eq_refl).
      generalize (dquote +:+ join (dquote +:+ ", " +:+ dquote) (ambiguousTerms r)
           +:+ dquote +:+ " which could mean different things. Please clarify:").
      intros tail H. unfold vague_prompt in H. rewrite !app_cons in H. discriminate H.
    + unfold getAmbiguityPrompt. rewrite Ha. discriminate.
Qed.

Lemma ambiguity_prompt_quotes_terms_witness :
  getAmbiguityPrompt (detectAmbiguity "apple" [])
  = "Your query contains " +:+ dquote +:+ "apple" +:+ dquote
      +:+ " which could mean different things. Please clarify:".
Proof.
  apply (proj1 (proj2 (ambiguity_prompt_quotes_terms "apple" []))).
  vm_compute. reflexivity.
Defined.

Lemma detectAmbiguity_counts (query : string) (articles : list Article) :
  let lq := toLowerCase query in
  flag_table (length (entity_hits lq)) (length (vague_hits (split_ws lq)))
    (is_short (split_ws lq)) (is_multi lq) = true.
Proof.
  intros lq. apply flags_by_counts.
  - apply QueryParserFacts.entity_hits_le.
  - apply QueryParserFacts.vague_hits_le.
Qed.

Lemma detectAmbiguity_confidence (query : string) (articles : list Article) :
  let lq := toLowerCase query in
  confidence (detectAmbiguity query articles)
  = confidence_of (penalty_of (length (entity_hits lq)) (length (vague_hits (split_ws lq)))
                     (is_short (split_ws lq)) (is_multi lq)).
Proof.
  intros lq. unfold detectAmbiguity. cbn [confidence].
  destruct (QueryParserFacts.scan_query_fields query) as (_ & _ & _ & ->). reflexivity.
Qed.

(** X8. Which queries [detectAmbiguity] flags: every query in which two
    entity terms occur, and every query of at most two words in which one
    entity term occurs; a query without any reported term is never
    flagged and has a confidence of at least 0.75. *)
Theorem entity_queries_flagged (query : string) (articles : list Article) :
  let lq := toLowerCase query in
  let r := detectAmbiguity query articles in
  ((2 ≤ length (entity_hits lq))%nat → isAmbiguous r = true)
  ∧ ((1 ≤ length (entity_hits lq))%nat → (length (split_ws lq) ≤ 2)%nat →
     isAmbiguous r = true)
  ∧ (ambiguousTerms r = [] →
     isAmbiguous r = false ∧ PrimFloat.leb 0.75 (confidence r) = true).
Proof.
  intros lq r. subst r.
  pose proof (detectAmbiguity_counts query articles) as H. cbv zeta in H. fold lq in H.
  unfold flag_table in H. cbv zeta in H.
  apply andb_prop in H as [H Hone]. apply andb_prop in H as [H Htwo].
  split; [ | split]; [ | | apply no_terms_not_ambiguous];
    rewrite detectAmbiguity_isAmbiguous; fold lq.
  - intros Hk. apply Nat.leb_le in Hk. rewrite Hk in Htwo. exact Htwo.
  - intros Hk Hs. apply Nat.leb_le in Hk.
    assert (Hshort : is_short (split_ws lq) = true) by (apply Nat.leb_le; exact Hs).
    rewrite Hk, Hshort in Hone. rewrite Hshort. exact Hone.
Qed.

Lemma entity_queries_flagged_witness :
  isAmbiguous (detectAmbiguity "Apple and Tesla shares in the morning" []) = true
  ∧ isAmbiguous (detectAmbiguity "apple" []) = true
  ∧ isAmbiguous (detectAmbiguity "a long question without special words" []) = false.
Proof.
  split; [ | split].
  - apply (proj1 (entity_queries_flagged "Apple and Tesla shares in the morning" [])).
    vm_compute. lia.
  - apply (proj1 (proj2 (entity_queries_flagged "apple" []))); vm_compute; lia.
  - apply (proj2 (proj2 (entity_queries_flagged "a long question without special words" []))).
    vm_compute. reflexivity.
Defined.

Section EnhancedFacts.
Variable now : Z.
Variable toDateString : Z → string.
Variable toLocaleDateString : Z → string.
Variable String_of_number : float → string.

Local Abbreviation enhanced :=
  (generateEnhancedResponse now toDateString toLocaleDateString String_of_number).
Local Abbreviation base := (generateResponse now toDateString toLocaleDateString).

(** X7. [generateEnhancedResponse] on a result of [detectAmbiguity]:
    the clarity note is added exactly when the confidence is below 0.65
    (the clarity score is below 7 exactly then), so a query that is not
    flagged ambiguous gets the plain response of [generateResponse];
    with the note, the text is the plain response followed by the
    note. *)
Theorem clarity_note_below_065 (query : string) (articles : list Article)
    (pq : ParsedQuery) (results : list Article) :
  let r := detectAmbiguity query articles in
  let e := enhanced pq results r in
  PrimFloat.ltb (clarityScore r) 7 = PrimFloat.ltb (confidence r) 0.65
  ∧ (PrimFloat.ltb (confidence r) 0.65 = false → text e = base pq results)
  ∧ (isAmbiguous r = false → text e = base pq results)
  ∧ (PrimFloat.ltb (confidence r) 0.65 = true →
     ∃ tail, text e = base pq results +:+ " (Clarity: "
                        +:+ String_of_number (clarityScore r) +:+ "/10)" +:+ tail).
Proof.
  intros r e.
  pose proof (detectAmbiguity_counts query articles) as H. cbv zeta in H.
  unfold flag_table in H. cbv zeta in H.
  apply andb_prop in H as [H _]. apply andb_prop in H as [H _].
  apply andb_prop in H as [Hround Himp].
  assert (Hc : confidence r = confidence_of (penalty_of
             (length (entity_hits (toLowerCase query)))
             (length (vague_hits (split_ws (toLowerCase query))))
             (is_short (split_ws (toLowerCase query))) (is_multi (toLowerCase query))))
    by apply detectAmbiguity_confidence.
  assert (Hs : clarityScore r = Math_round (confidence r * 10)%float) by reflexivity.
  assert (Ha : isAmbiguous r = PrimFloat.ltb (confidence r) 0.7) by reflexivity.
  assert (Heq : PrimFloat.ltb (clarityScore r) 7 = PrimFloat.ltb (confidence r) 0.65).
  { rewrite Hs, Hc. apply eqb_prop. exact Hround. }
  assert (Hplain : PrimFloat.ltb (confidence r) 0.65 = false → text e = base pq results).
  { intros Hlow. subst e. unfold generateEnhancedResponse. cbn [text].
    rewrite Heq, Hlow. reflexivity. }
  split; [exact Heq | ]. split; [exact Hplain | ]. split.
  - intros Hno. apply Hplain. rewrite Ha, Hc in Hno. rewrite Hc.
    destruct (PrimFloat.ltb _ 0.65) eqn:Hlow; [ | reflexivity].
    rewrite ?Hlow, Hno in Himp. discriminate Himp.
  - intros Hlow. subst e. unfold generateEnhancedResponse. cbn [text].
    rewrite Heq, Hlow.
    destruct (suggestions r) as [|s ss].
    + exists "". rewrite !append_nil_r. rewrite <- !append_assoc'. reflexivity.
    + exists (" Try: " +:+ dquote +:+ s +:+ dquote).
      rewrite <- !append_assoc'. reflexivity.
Qed.

End EnhancedFacts.

(** A flagged query whose response carries no clarity note. *)
Example flagged_without_note :
  isAmbiguous (detectAmbiguity "apple" []) = true
  ∧ PrimFloat.ltb (clarityScore (detectAmbiguity "apple" [])) 7 = false.
Proof. vm_compute. auto. Qed.

Lemma clarity_note_below_065_witness :
  text (generateEnhancedResponse 0 (fun _ => "") (fun _ => "") (fun _ => "8")
          compare_query [one_article] (detectAmbiguity "what happened overnight in the city" []))
  = generateResponse 0 (fun _ => "") (fun _ => "") compare_query [one_article].
Proof.
  apply (proj1 (proj2 (proj2 (clarity_note_below_065 0 (fun _ => "") (fun _ => "")
           (fun _ => "8") "what happened overnight in the city" [] compare_query [one_article])))).
  vm_compute. reflexivity.
Defined.

Lemma applyFilters_keywords (articles : list ScoredArticle) (f : Filters)
    (k : string) (ks : list string) (a : ScoredArticle) :
  keywords f = Some (k :: ks) → a ∈ applyFilters articles f →
  keyword_test (k :: ks) a = true.
Proof.
  intros Hk Ha. unfold applyFilters in Ha. rewrite Hk in Ha.
  apply elem_of_filter_bool in Ha as [_ Ha]. exact Ha.
Qed.

Section ParseFacts.
Variable getRange : string → DateRange.
Variable lastSevenDays : DateRange.

(** X9. The words [recent] and [latest] count twice: a query that has
    one of them as a word gets a date range and keeps the word as a
    keyword, so the filters of the query keep only articles whose content
    holds one of the query's keywords. *)
Theorem recent_latest_also_keywords (query w : string) :
  w ∈ ["recent"; "latest"] → w ∈ split_ws (toLowerCase query) →
  let p := parseQuery getRange lastSevenDays query in
  is_Some (dateRange (filters p))
  ∧ ∃ ks, keywords (filters p) = Some ks ∧ w ∈ ks
          ∧ ∀ articles a, a ∈ applyFilters articles (filters p) → keyword_test ks a = true.
Proof.
  intros Hw Hword p. subst p. unfold parseQuery. cbn [filters dateRange keywords].
  set (lq := toLowerCase query) in *.
  assert (Hinc : includes lq w = true) by now apply split_ws_includes.
  split.
  - unfold extractDateRange. destruct (List.find _ TIME_PATTERN_KEYS); [eauto | ].
    replace (includes lq "recent" || includes lq "latest") with true; [eauto | ].
    symmetry. apply orb_true_iff.
    apply elem_of_cons in Hw as [-> | Hw]; [auto | ].
    apply list_elem_of_singleton in Hw as ->. auto.
  - assert (Hk : w ∈ extractKeywords lq).
    { apply (extractKeywords_elem lq w). subst lq. rewrite toLowerCase_idem.
      split; [exact Hword | ].
      apply elem_of_cons in Hw as [-> | Hw];
        [ | apply list_elem_of_singleton in Hw as ->];
        (split; [vm_compute; lia | split; apply (bool_decide_unpack _); vm_compute; exact I]). }
    exists (extractKeywords lq). split; [reflexivity | split; [exact Hk | ]].
    intros articles a Ha.
    destruct (extractKeywords lq) as [|k ks] eqn:Hks; [inversion Hk | ].
    eapply applyFilters_keywords; [ | exact Ha]. reflexivity.
Qed.

End ParseFacts.

Lemma recent_latest_also_keywords_witness :
  ∃ ks, keywords (filters (parseQuery (fun _ => {| range_start := 0; range_end := 1 |})
                             {| range_start := 0; range_end := 1 |} "Latest storms"))
        = Some ks ∧ "latest" ∈ ks.
Proof.
  destruct (recent_latest_also_keywords (fun _ => {| range_start := 0; range_end := 1 |})
              {| range_start := 0; range_end := 1 |} "Latest storms" "latest")
    as (_ & ks & Hks & Hin & _).
  - apply elem_of_cons; right. apply list_elem_of_singleton. reflexivity.
  - vm_compute. apply elem_of_cons; left. reflexivity.
  - exists ks. auto.
Defined.

Lemma category_only_elem (articles : list ScoredArticle) (c : string) (cs : list string)
    (a : ScoredArticle) :
  a ∈ applyFilters articles (category_only (c :: cs))
  ↔ a ∈ articles ∧ category_test (c :: cs) a = true.
Proof.
  unfold applyFilters, category_only. cbn [sentiment categories dateRange keywords].
  apply elem_of_filter_bool.
Qed.

(** X10. The category filter matches loosely: an article is kept when
    its category and a requested category are equal up to letter case,
    or when one of the two occurs inside the other; so an article whose
    category is the empty string is kept by every category filter. *)
Theorem category_filter_matches_loosely (articles : list ScoredArticle)
    (c : string) (cs : list string) (a : ScoredArticle) (cat : string) :
  a ∈ articles → cat ∈ c :: cs →
  (toLowerCase cat = toLowerCase (category (article a)) →
     a ∈ applyFilters articles (category_only (c :: cs)))
  ∧ (includes (toLowerCase (category (article a))) (toLowerCase cat) = true →
     a ∈ applyFilters articles (category_only (c :: cs)))
  ∧ (includes (toLowerCase cat) (toLowerCase (category (article a))) = true →
     a ∈ applyFilters articles (category_only (c :: cs)))
  ∧ (category (article a) = "" → a ∈ applyFilters articles (category_only (c :: cs))).
Proof.
  intros Ha Hcat.
  assert (Hone : includes (toLowerCase (category (article a))) (toLowerCase cat)
                 || includes (toLowerCase cat) (toLowerCase (category (article a))) = true →
                 a ∈ applyFilters articles (category_only (c :: cs))).
  { intros H. apply category_only_elem. split; [exact Ha | ].
    unfold category_test. apply existsb_exists. exists cat.
    split; [apply list_elem_of_In; exact Hcat | exact H]. }
  repeat split; intros H; apply Hone.
  - rewrite H, includes_refl. reflexivity.
  - rewrite H. reflexivity.
  - rewrite H. apply orb_true_r.
  - rewrite H. cbn [toLowerCase].
    replace (includes (toLowerCase cat) "") with true; [apply orb_true_r | ].
    symmetry. apply includes_spec. exists "", (toLowerCase cat). reflexivity.
Qed.

Lemma category_filter_matches_loosely_witness :
  {| article := {| id := 7; content := "Talks resumed"; category := ""; date := None |};
     compound := 0 |}
  ∈ applyFilters
      [{| article := {| id := 7; content := "Talks resumed"; category := ""; date := None |};
          compound := 0 |}]
      (category_only ["Sports"]).
Proof.
  apply (proj2 (proj2 (proj2 (category_filter_matches_loosely _ "Sports" [] _ "Sports"
            ltac:(apply list_elem_of_singleton; reflexivity)
            ltac:(apply list_elem_of_singleton; reflexivity))))).
  reflexivity.
Defined.

End QueryFiltersFacts.

(** ** [clustering.ts]: cluster ids, lookup and representatives *)

Module ClusterLookupFacts.
Import JS JSArray Clustering ClusterLookup JSArrayFacts.

Lemma forEach_from_invariant {A St} (P : St → Prop) (f : St → A → nat → St)
    (l : list A) (i : nat) (st : St) :
  (∀ st x j, P st → P (f st x j)) → P st → P (forEach_from f l i st).
Proof.
  intros Hf. revert i st; induction l as [|x l IH]; intros i st Hst; simpl; auto.
Qed.

Lemma cluster_map_keys_NoDup (articles : list Article) :
  NoDup (map fst (cluster_map articles)).
Proof.
  unfold cluster_map, forEach.
  apply (forEach_from_invariant (fun st => NoDup (map fst (fst st)))).
  - intros [clusters processed] item j Hnd. unfold outer_step. cbn [fst] in *.
    destruct (bool_decide _); [exact Hnd | ].
    destruct (forEach _ _ _) as [cluster processed']. cbn [fst].
    now apply map_set_keys_NoDup.
  - constructor.
Qed.

Lemma clusterId_to_clustered (e : string * list Article) :
  clusterId (to_clustered e) = fst e.
Proof. destruct e. reflexivity. Qed.

Lemma clusterIds_NoDup (articles : list Article) :
  NoDup (map clusterId (clusterArticles articles)).
Proof.
  rewrite ClusteringFacts.clusterArticles_fastCluster. unfold fastCluster.
  rewrite map_map.
  rewrite (map_ext _ fst) by (intros e; apply clusterId_to_clustered).
  apply cluster_map_keys_NoDup.
Qed.

Lemma find_by_key {A K} `{EqDecision K} (key : A → K) (l : list A) (c : A) :
  NoDup (map key l) → c ∈ l →
  List.find (fun a => bool_decide (key a = key c)) l = Some c.
Proof.
  induction l as [|x l IH]; intros Hnd Hc; [inversion Hc | ].
  cbn [map] in Hnd. apply NoDup_cons in Hnd as [Hx Hnd]. cbn [List.find].
  apply elem_of_cons in Hc as [-> | Hc].
  - rewrite bool_decide_eq_true_2; reflexivity.
  - rewrite bool_decide_eq_false_2; [now apply IH | ].
    intros Heq. apply Hx. rewrite Heq.
    apply list_elem_of_In, in_map, list_elem_of_In. exact Hc.
Qed.

Lemma find_no_key {A K} `{EqDecision K} (key : A → K) (l : list A) (k : K) :
  k ∉ map key l → List.find (fun a => bool_decide (key a = k)) l = None.
Proof.
  induction l as [|x l IH]; intros Hk; [reflexivity | ].
  cbn [map] in Hk. apply not_elem_of_cons in Hk as [Hx Hk]. cbn [List.find].
  rewrite bool_decide_eq_false_2; [now apply IH | congruence].
Qed.

(** X11. [getClusterById] on a result of [clusterArticles]: the cluster
    ids are pairwise distinct, whatever the input, so looking up the id
    of a returned cluster gives back the member list of that cluster,
    which is not empty; an id that names no cluster gives the empty
    list. *)
Theorem getClusterById_round_trip (articles : list Article) :
  let clusters := clusterArticles articles in
  NoDup (map clusterId clusters)
  ∧ (∀ c, c ∈ clusters →
       getClusterById clusters (clusterId c) = clusterMembers c ∧ clusterMembers c ≠ [])
  ∧ (∀ k, k ∉ map clusterId clusters → getClusterById clusters k = []).
Proof.
  intros clusters. pose proof (clusterIds_NoDup articles) as Hnd. fold clusters in Hnd.
  split; [exact Hnd | split].
  - intros c Hc. unfold getClusterById. rewrite (find_by_key clusterId _ c Hnd Hc).
    split; [reflexivity | ].
    pose proof (ClusteringFacts.fastCluster_shape articles) as Hshape.
    rewrite Forall_forall in Hshape.
    destruct (Hshape c Hc) as (_ & _ & seed & members & -> & _). discriminate.
  - intros k Hk. unfold getClusterById. now rewrite (find_no_key clusterId _ k Hk).
Qed.

Lemma getClusterById_round_trip_witness :
  getClusterById (clusterArticles [tech1; tech2; sports3]) "cluster-1" = [tech1; tech2]
  ∧ getClusterById (clusterArticles [tech1; tech2; sports3]) "cluster-2" = [].
Proof.
  destruct (getClusterById_round_trip [tech1; tech2; sports3]) as (_ & Hhit & Hmiss).
  split.
  - assert (Hc : to_clustered ("cluster-1", [tech1; tech2])
                 ∈ clusterArticles [tech1; tech2; sports3]).
    { vm_compute. apply elem_of_cons; left. reflexivity. }
    exact (proj1 (Hhit _ Hc)).
  - apply Hmiss. apply (bool_decide_unpack _). vm_compute. exact I.
Defined.

(** The head of a list sorted by descending time stamp. *)
Lemma head_sort_latest (l : list Article) (x : Article) :
  ∃ r, head (sort_int (fun a b => (getTime b - getTime a)%Z) (x :: l)) = Some r
       ∧ first_latest (x :: l) r.
Proof.
  revert x; induction l as [|y l IH]; intros x.
  - exists x. split; [reflexivity | ].
    exists [], []. split; [reflexivity | ]. split; intros m Hm; inversion Hm.
  - destruct (IH y) as (r & Hr & pre & post & Heq & Hpre & Hpost).
    unfold sort_int, sort_by in *. cbn [foldr] in *.
    destruct (foldr _ [] l) as [|h s] eqn:Hs.
    + (* the tail sorts to a single element *)
      cbn [insert_by head] in Hr. injection Hr as <-.
      cbn [insert_by]. destruct (0 <? getTime y - getTime x)%Z eqn:Hlt.
      * exists y. split; [reflexivity | ].
        exists (x :: pre), post. rewrite Heq. split; [reflexivity | ].
        split; [ | exact Hpost].
        intros m Hm. apply elem_of_cons in Hm as [-> | Hm]; [ | auto].
        apply Z.ltb_lt in Hlt. lia.
      * exists x. split; [reflexivity | ].
        exists [], (y :: l). split; [reflexivity | ].
        split; [intros m Hm; inversion Hm | ].
        apply Z.ltb_ge in Hlt.
        intros m Hm. rewrite Heq in Hm.
        assert (Hmr : (getTime m <= getTime y)%Z).
        { apply elem_of_app in Hm as [Hm | Hm]; [apply Hpre in Hm; lia | ].
          apply elem_of_cons in Hm as [-> | Hm]; [lia | auto]. }
        lia.
    + set (sorted_tail := insert_by _ y (h :: s)) in *.
      destruct sorted_tail as [|r' s'] eqn:Hst; [discriminate Hr | ].
      cbn [head] in Hr. injection Hr as ->.
      cbn [insert_by]. destruct (0 <? getTime r - getTime x)%Z eqn:Hlt.
      * exists r. split; [reflexivity | ].
        exists (x :: pre), post. rewrite Heq. split; [reflexivity | ].
        split; [ | exact Hpost].
        intros m Hm. apply elem_of_cons in Hm as [-> | Hm]; [ | auto].
        apply Z.ltb_lt in Hlt. lia.
      * exists x. split; [reflexivity | ].
        exists [], (y :: l). split; [reflexivity | ].
        split; [intros m Hm; inversion Hm | ].
        apply Z.ltb_ge in Hlt.
        intros m Hm. rewrite Heq in Hm.
        assert (Hmr : (getTime m <= getTime r)%Z).
        { apply elem_of_app in Hm as [Hm | Hm]; [apply Hpre in Hm; lia | ].
          apply elem_of_cons in Hm as [-> | Hm]; [lia | auto]. }
        lia.
Qed.

(** X12. The representative of a cluster is one of its members, the
    most recent one, and among several most recent members the one that
    comes first in the member list; a member without a date counts as
    time 0. *)
Theorem representative_is_first_latest (articles : list Article) (c : ClusteredArticle) :
  c ∈ clusterArticles articles →
  ∃ r, representative c = Some r
       ∧ r ∈ clusterMembers c
       ∧ first_latest (clusterMembers c) r.
Proof.
  rewrite ClusteringFacts.clusterArticles_fastCluster. unfold fastCluster.
  rewrite ClusteringFacts.cluster_map_greedy, map_map.
  intros Hc. apply list_elem_of_fmap in Hc as (members & -> & Hm).
  pose proof (ClusteringFacts.greedy_nonempty absorbs_article articles ∅) as Hne.
  rewrite Forall_forall in Hne. destruct (Hne _ Hm) as (seed & rest & ->).
  unfold entry_of, to_clustered. cbn [representative clusterMembers].
  destruct (head_sort_latest rest seed) as (r & Hr & Hfirst).
  exists r. split; [exact Hr | split; [ | exact Hfirst]].
  destruct Hfirst as (pre & post & -> & _).
  apply elem_of_app. right. apply elem_of_cons. left. reflexivity.
Qed.

Lemma representative_is_first_latest_witness :
  ∃ r, representative (to_clustered ("cluster-1", take 3 sample_cluster_input)) = Some r
       ∧ r ∈ take 3 sample_cluster_input
       ∧ first_latest (take 3 sample_cluster_input) r.
Proof.
  apply (representative_is_first_latest sample_cluster_input
           (to_clustered ("cluster-1", take 3 sample_cluster_input))).
  vm_compute. apply elem_of_cons; left. reflexivity.
Defined.

(** *** Cluster sizes *)

Lemma unprocessed_mono (docs : list Article) (P Q : gset Z) :
  P ⊆ Q → (unprocessed docs Q ≤ unprocessed docs P)%nat.
Proof.
  intros Hsub. unfold unprocessed. induction docs as [|d docs IH]; simpl; [lia | ].
  destruct (bool_decide (id d ∈ P)) eqn:HP.
  - apply bool_decide_eq_true in HP.
    rewrite bool_decide_eq_true_2 by set_solver. simpl. exact IH.
  - destruct (bool_decide (id d ∈ Q)); simpl; lia.
Qed.

Lemma unprocessed_le (docs : list Article) (P : gset Z) :
  (unprocessed docs P ≤ length docs)%nat.
Proof. apply filter_length_le. Qed.

Lemma unprocessed_all (docs : list Article) : unprocessed docs ∅ = length docs.
Proof.
  unfold unprocessed. induction docs as [|d docs IH]; simpl; [reflexivity | ].
  rewrite bool_decide_eq_false_2 by set_solver. simpl. now rewrite IH.
Qed.

Lemma unprocessed_cons (d : Article) (docs : list Article) (P : gset Z) :
  unprocessed (d :: docs) P
  = if bool_decide (id d ∈ P) then unprocessed docs P else S (unprocessed docs P).
Proof. unfold unprocessed. cbn [List.filter]. now destruct (bool_decide (id d ∈ P)). Qed.

Lemma greedy_scan_count (test : Article → bool) (rest : list Article) (P : gset Z) :
  (length (fst (greedy_scan test rest P)) + unprocessed rest (snd (greedy_scan test rest P))
   ≤ unprocessed rest P)%nat.
Proof.
  revert P; induction rest as [|d rest IH]; intros P; [simpl; lia | ].
  cbn [greedy_scan]. rewrite (unprocessed_cons d rest P).
  destruct (bool_decide (id d ∈ P)) eqn:Hin.
  - apply bool_decide_eq_true in Hin.
    pose proof (ClusteringFacts.greedy_scan_processed test rest P) as Hp.
    specialize (IH P). destruct (greedy_scan test rest P) as [m P']. destruct Hp as [HP' _].
    cbn [fst snd] in *. rewrite unprocessed_cons.
    rewrite bool_decide_eq_true_2 by set_solver. exact IH.
  - apply bool_decide_eq_false in Hin. destruct (test d).
    + pose proof (ClusteringFacts.greedy_scan_processed test rest (P ∪ {[id d]})) as Hp.
      specialize (IH (P ∪ {[id d]})).
      pose proof (unprocessed_mono rest P (P ∪ {[id d]}) ltac:(set_solver)) as Hmono.
      destruct (greedy_scan test rest (P ∪ {[id d]})) as [m P']. destruct Hp as [HP' _].
      cbn [fst snd length] in *. rewrite unprocessed_cons.
      rewrite (bool_decide_eq_true_2 (id d ∈ P')) by set_solver. lia.
    + specialize (IH P). destruct (greedy_scan test rest P) as [m P'].
      cbn [fst snd] in *. rewrite unprocessed_cons.
      destruct (bool_decide (id d ∈ P')); lia.
Qed.

Lemma greedy_count (test : Article → Article → bool) (docs : list Article) (P : gset Z) :
  (length (concat (greedy test docs P)) ≤ unprocessed docs P)%nat.
Proof.
  revert P; induction docs as [|seed rest IH]; intros P; [simpl; lia | ].
  cbn [greedy]. rewrite unprocessed_cons.
  destruct (bool_decide (id seed ∈ P)) eqn:Hin; [apply IH | ].
  pose proof (greedy_scan_count (test seed) rest P) as Hscan.
  pose proof (ClusteringFacts.greedy_scan_processed (test seed) rest P) as Hp.
  destruct (greedy_scan (test seed) rest P) as [m P']. destruct Hp as [HP' _].
  cbn [fst snd] in Hscan.
  specialize (IH (P' ∪ {[id seed]})).
  pose proof (unprocessed_mono rest P' (P' ∪ {[id seed]}) ltac:(set_solver)) as Hmono.
  cbn [concat]. rewrite length_app. cbn [length].
  apply le_n_S. etrans; [ | exact Hscan].
  apply Nat.add_le_mono_l. etrans; [exact IH | exact Hmono].
Qed.

Lemma sum_sizes (clusters : list ClusteredArticle) :
  Forall (fun c => clusterSize c = length (clusterMembers c)) clusters →
  list_sum (map clusterSize clusters) = length (concat (map clusterMembers clusters)).
Proof.
  induction 1 as [|c l Hc _ IH]; [reflexivity | ].
  cbn [map concat]. rewrite length_app, <- IH, Hc. reflexivity.
Qed.

Lemma count_le_sum (clusters : list ClusteredArticle) :
  Forall (fun c => (1 ≤ clusterSize c)%nat) clusters →
  (length clusters ≤ list_sum (map clusterSize clusters))%nat.
Proof.
  induction 1 as [|c l Hc _ IH]; [simpl; lia | ].
  cbn [map length]. change (list_sum (clusterSize c :: map clusterSize l))
    with (clusterSize c + list_sum (map clusterSize l))%nat. lia.
Qed.

(** X13. The cluster sizes never add up to more than the number of
    articles, also when ids repeat (an entry whose id was seen is left
    out, none is counted twice), so there are at most as many clusters as
    articles; with pairwise distinct ids the sizes add up to the number
    of articles. *)
Theorem cluster_sizes_bounded (articles : list Article) :
  let clusters := clusterArticles articles in
  (list_sum (map clusterSize clusters) ≤ length articles)%nat
  ∧ (length clusters ≤ length articles)%nat
  ∧ (NoDup (map id articles) → list_sum (map clusterSize clusters) = length articles).
Proof.
  intros clusters.
  pose proof (ClusteringFacts.fastCluster_shape articles) as Hshape. fold clusters in Hshape.
  assert (Hsum : list_sum (map clusterSize clusters)
                 = length (concat (map clusterMembers clusters))).
  { apply sum_sizes. eapply Forall_impl; [exact Hshape | ]. intros c (H & _). exact H. }
  assert (Hle : (list_sum (map clusterSize clusters) ≤ length articles)%nat).
  { rewrite Hsum. subst clusters.
    rewrite ClusteringFacts.clusterArticles_fastCluster, ClusteringFacts.fastCluster_members.
    etrans; [apply greedy_count | ]. now rewrite unprocessed_all. }
  split; [exact Hle | split].
  - etrans; [ | exact Hle]. apply count_le_sum.
    eapply Forall_impl; [exact Hshape | ].
    intros c (Hsize & _ & seed & members & Hm & _). rewrite Hsize, Hm. simpl. lia.
  - intros Hnd. rewrite Hsum. subst clusters.
    rewrite ClusteringFacts.clusterArticles_fastCluster, ClusteringFacts.fastCluster_members.
    rewrite (ClusteringFacts.greedy_partition absorbs_article articles ∅ Hnd).
    rewrite ClusteringFacts.filter_all; [reflexivity | set_solver].
Qed.

Lemma cluster_sizes_bounded_witness :
  list_sum (map clusterSize (clusterArticles [tech1; tech2; sports3])) = 3%nat
  ∧ (list_sum (map clusterSize (clusterArticles sample_cluster_input)) ≤ 4)%nat.
Proof.
  split.
  - apply (proj2 (proj2 (cluster_sizes_bounded [tech1; tech2; sports3]))).
    apply (bool_decide_unpack _). vm_compute. exact I.
  - apply (proj1 (cluster_sizes_bounded sample_cluster_input)).
Defined.

End ClusterLookupFacts.

(** ** The topic module: shape of the results *)

Module TopicsShapeFacts.
Import JS JSArray Topics TopicsSpec JSArrayFacts.

Lemma Sorted_take {A} (R : A → A → Prop) (l : list A) (n : nat) :
  Sorted R l → Sorted R (take n l).
Proof.
  intros H. revert n; induction H as [|x l Hs IH Hr]; intros n; destruct n; simpl;
    try constructor; auto.
  destruct Hr; destruct n; simpl; constructor; auto.
Qed.

Lemma Sorted_map {A B} (R : A → A → Prop) (R' : B → B → Prop) (f : A → B) (l : list A) :
  (∀ a b, R a b → R' (f a) (f b)) → Sorted R l → Sorted R' (map f l).
Proof.
  intros HR. induction 1 as [|x l Hs IH Hr]; simpl; constructor; auto.
  destruct Hr; simpl; constructor; auto.
Qed.

Lemma NoDup_take {A} (l : list A) (n : nat) : NoDup l → NoDup (take n l).
Proof. intros H. eapply sublist_NoDup; [exact H | apply sublist_take]. Qed.

Lemma take_sublist_map {A B} (f : A → B) (l : list A) (n : nat) :
  sublist (map f (take n l)) (map f l).
Proof.
  revert n; induction l as [|x l IH]; intros [|n]; cbn; try constructor.
  - apply sublist_nil_l.
  - apply IH.
Qed.

Lemma fold_left_invariant {A B} (P : A → Prop) (f : A → B → A) (l : list B) (a : A) :
  (∀ a b, P a → P (f a b)) → P a → P (fold_left f l a).
Proof. intros Hf. revert a; induction l as [|b l IH]; intros a Ha; simpl; auto. Qed.

Lemma relatedKeywords_ok (articleKeywords : list (Obj * list string)) (keyword : string)
    (articlesArray : list Obj) :
  NoDup (relatedKeywords_of articleKeywords keyword articlesArray)
  ∧ keyword ∉ relatedKeywords_of articleKeywords keyword articlesArray.
Proof.
  unfold relatedKeywords_of.
  apply (fold_left_invariant (fun related => NoDup related ∧ keyword ∉ related)).
  - intros related article Hrel.
    apply (fold_left_invariant (fun related => NoDup related ∧ keyword ∉ related));
      [ | exact Hrel].
    intros r k [Hnd Hk]. case_bool_decide as Heq; cbn [negb]; [auto | ].
    split; [now apply TopicsFacts.set_add_NoDup | ].
    intros Hin. apply TopicsFacts.elem_of_set_add in Hin as [Hin | Hin]; congruence.
  - split; [constructor | intros H; inversion H].
Qed.

Lemma Sorted_map_Forall {A B} (P : A → Prop) (R : A → A → Prop) (R' : B → B → Prop)
    (f : A → B) (l : list A) :
  Forall P l → (∀ a b, P a → P b → R a b → R' (f a) (f b)) →
  Sorted R l → Sorted R' (map f l).
Proof.
  intros HP HR Hs. induction Hs as [|x l Hs IH Hr]; simpl; constructor.
  - apply IH. now inversion HP.
  - destruct Hr as [|y l' Hxy]; simpl; constructor.
    inversion HP as [|? ? Hx Hl]; subst. inversion Hl; subst. auto.
Qed.

(** X18. [findRelatedTopics] returns at most five topics of
    [allTopics]; none has the name of the given topic, each shares at
    least one article id with it, and they come in descending order of
    the number of shared articles. *)
Theorem findRelatedTopics_spec (t0 : Topic) (allTopics : list Topic) :
  let related := findRelatedTopics t0 allTopics in
  (length related ≤ 5)%nat
  ∧ (∀ t, t ∈ related →
       t ∈ allTopics ∧ name t ≠ name t0 ∧ (0 < overlap_with (article_ids t0) t)%nat)
  ∧ Sorted (fun a b => (overlap_with (article_ids t0) b ≤ overlap_with (article_ids t0) a)%nat)
      related.
Proof.
  intros related. subst related. unfold findRelatedTopics. fold (article_ids t0).
  set (ids := article_ids t0).
  set (scored := map (fun t => (t, overlap_with ids t))
                   (List.filter (fun t => negb (bool_decide (name t = name t0))) allTopics)).
  set (kept := List.filter (fun e : Topic * nat => (0 <? snd e)%nat) scored).
  set (sorted := sort_int (fun a b : Topic * nat => (Z.of_nat (snd b) - Z.of_nat (snd a))%Z) kept).
  assert (Hsorted : ∀ e, e ∈ sorted →
            fst e ∈ allTopics ∧ name (fst e) ≠ name t0
            ∧ snd e = overlap_with ids (fst e) ∧ (0 < snd e)%nat).
  { intros e He. unfold sorted, sort_int in He. apply elem_of_sort_by in He.
    apply elem_of_filter_bool in He as [He Hpos]. apply Nat.ltb_lt in Hpos.
    apply list_elem_of_fmap in He as (t & -> & Ht).
    apply elem_of_filter_bool in Ht as [Ht Hname].
    apply negb_true_iff, bool_decide_eq_false in Hname. cbn [fst snd] in *. auto. }
  split; [rewrite length_map, length_take; lia | split].
  - intros t Ht. apply list_elem_of_fmap in Ht as (e & -> & He).
    apply subseteq_take in He. destruct (Hsorted e He) as (H1 & H2 & H3 & H4).
    rewrite <- H3. auto.
  - apply (Sorted_map_Forall (fun e : Topic * nat => snd e = overlap_with ids (fst e))
             (fun a b : Topic * nat => (snd b ≤ snd a)%nat)).
    + apply Forall_forall. intros e He. apply subseteq_take in He. apply (Hsorted e He).
    + intros a b Ha Hb Hab. rewrite <- Ha, <- Hb. exact Hab.
    + apply Sorted_take. unfold sorted, sort_int.
      eapply Sorted_weaken; [ | apply sort_by_sorted].
      * intros a b H. cbv beta in H. apply Z.ltb_ge in H. lia.
      * intros a b H. apply Z.ltb_lt in H. apply Z.ltb_ge. lia.
Qed.

Lemma map_has_keys {V} (m : list (string * V)) (k : string) :
  map_has m k = bool_decide (k ∈ map fst m).
Proof.
  unfold map_has. apply bool_decide_ext.
  induction m as [|[k' v] m IH]; simpl.
  - split; [intros [x Hx]; discriminate Hx | intros H; inversion H].
  - destruct (decide (k = k')) as [-> | Hne].
    + split; [intros _; apply elem_of_cons; now left | eauto].
    + rewrite IH, elem_of_cons. split; [auto | intros [? | ?]; [contradiction | auto]].
Qed.

Lemma uniq_from_snoc {A} `{EqDecision A} (seen l : list A) (x : A) :
  uniq_from seen (l ++ [x])
  = uniq_from seen l ++ (if bool_decide (x ∈ seen ++ l) then [] else [x]).
Proof.
  revert seen; induction l as [|y l IH]; intros seen.
  - cbn [app uniq_from]. rewrite app_nil_r. now destruct (bool_decide (x ∈ seen)).
  - cbn [app uniq_from]. destruct (bool_decide (y ∈ seen)) eqn:Hy.
    + rewrite IH. f_equal. apply bool_decide_eq_true in Hy.
      erewrite bool_decide_ext; [reflexivity | ].
      rewrite !elem_of_app, elem_of_cons. split; [tauto | ].
      intros [? | [-> | ?]]; auto.
    + rewrite IH. cbn [app]. do 2 f_equal.
      erewrite bool_decide_ext; [reflexivity | ].
      repeat (rewrite ?elem_of_app, ?elem_of_cons). tauto.
Qed.

Lemma uniq_snoc {A} `{EqDecision A} (l : list A) (x : A) :
  uniq (l ++ [x]) = if bool_decide (x ∈ l) then uniq l else uniq l ++ [x].
Proof.
  unfold uniq. rewrite uniq_from_snoc. cbn [app].
  destruct (bool_decide (x ∈ l)); [apply app_nil_r | reflexivity].
Qed.

Lemma group_by_category_keys (docs : list Obj) :
  map fst (group_by_category docs) = uniq (map (fun a => category (fields a)) docs).
Proof.
  unfold group_by_category.
  assert (H : ∀ l p (m : list (string * list Obj)),
             map fst m = uniq (map (fun a => category (fields a)) p) →
             map fst
               (fold_left
                  (fun m article =>
                     let c := category (fields article) in
                     let m := if negb (map_has m c) then map_set m c [] else m in
                     map_set m c (default [] (map_get m c) ++ [article])) l m)
             = uniq (map (fun a => category (fields a)) (p ++ l))).
  { induction l as [|a l IH]; intros p m Hm; cbn [fold_left].
    - now rewrite app_nil_r.
    - replace (p ++ a :: l) with ((p ++ [a]) ++ l) by now rewrite <- app_assoc.
      apply IH. cbv zeta. rewrite map_app. cbn [map]. rewrite uniq_snoc, <- Hm.
      rewrite map_set_keys, map_has_keys.
      assert (Hin : category (fields a) ∈ uniq (map (fun a => category (fields a)) p)
                    ↔ category (fields a) ∈ map (fun a => category (fields a)) p)
        by apply elem_of_uniq.
      rewrite <- Hm in Hin.
      destruct (bool_decide (category (fields a) ∈ map fst m)) eqn:Hk; cbn [negb].
      + rewrite Hk. apply bool_decide_eq_true in Hk.
        rewrite bool_decide_eq_true_2 by now apply Hin. reflexivity.
      + rewrite map_set_keys, Hk.
        rewrite bool_decide_eq_true_2
          by (apply elem_of_app; right; apply list_elem_of_singleton; reflexivity).
        apply bool_decide_eq_false in Hk.
        rewrite bool_decide_eq_false_2 by (intros Hc; apply Hk, Hin, Hc). reflexivity. }
  apply (H docs [] []). reflexivity.
Qed.

Lemma fold_left_ext_fun {A B} (f g : A → B → A) (l : list B) (a : A) :
  (∀ a b, f a b = g a b) → fold_left f l a = fold_left g l a.
Proof.
  intros H. revert a; induction l as [|b l IH]; intros a; simpl; [reflexivity | ].
  now rewrite H, IH.
Qed.

Lemma fold_map_set_keys {V W} (g : string * V → W) (l : list (string * V)) (m : list (string * W)) :
  NoDup (map fst m ++ map fst l) →
  map fst (fold_left (fun M entry => map_set M (fst entry) (g entry)) l m)
  = map fst m ++ map fst l.
Proof.
  revert m; induction l as [|[k v] l IH]; intros m Hnd; cbn [fold_left map].
  - now rewrite app_nil_r.
  - cbn [map] in Hnd.
    assert (Hk : k ∉ map fst m).
    { apply NoDup_app in Hnd as (_ & Hdis & _). intros Hin. apply (Hdis k Hin).
      apply elem_of_cons. now left. }
    rewrite IH.
    + cbn [fst]. rewrite (map_set_fresh m k (g (k, v)) Hk), map_app, <- app_assoc. reflexivity.
    + cbn [fst]. rewrite (map_set_fresh m k (g (k, v)) Hk), map_app, <- app_assoc. exact Hnd.
Qed.

Section ShapeFacts.
Variable extractKeywords : string → list string → nat → list string.

Local Abbreviation discover := (discoverTopics extractKeywords).

Lemma discoverTopics_made (docs : list Obj) (minArticles : Z) (t : Topic) :
  t ∈ discover docs minArticles →
  ∃ e, t = make_topic (articleKeywords_of extractKeywords docs) e.
Proof.
  unfold discoverTopics. destruct (length docs =? 0)%nat; [intros H; inversion H | ].
  intros Ht. apply list_elem_of_In, in_map_iff in Ht as (e & <- & _). eauto.
Qed.

Lemma discoverTopics_length (docs : list Obj) (minArticles : Z) :
  (length (discover docs minArticles) ≤ 20)%nat.
Proof.
  unfold discoverTopics. destruct (length docs =? 0)%nat; [simpl; lia | ].
  rewrite length_map, length_take. lia.
Qed.

(** X14. The topics of [discoverTopics]: at most 20, with pairwise
    distinct names, in descending order of their counts; the articles of
    a topic are articles of the collection, each once; a topic has at
    most 5 keywords, without repetition, and its own name is not one of
    them. *)
Theorem discoverTopics_shape (docs : list Obj) (minArticles : Z) :
  let topics := discover docs minArticles in
  (length topics ≤ 20)%nat
  ∧ NoDup (map name topics)
  ∧ Sorted (fun a b => (count b ≤ count a)%nat) topics
  ∧ ∀ t, t ∈ topics →
      NoDup (articles t) ∧ (∀ a, a ∈ articles t → a ∈ docs)
      ∧ (length (keywords t) ≤ 5)%nat ∧ NoDup (keywords t) ∧ name t ∉ keywords t.
Proof.
  intros topics. split; [ | split; [ | split]].
  - apply discoverTopics_length.
  - apply TopicsFacts.discoverTopics_names_NoDup.
  - subst topics. unfold discoverTopics. destruct (length docs =? 0)%nat; [constructor | ].
    apply (Sorted_map (fun a b : string * list Obj => (length (snd b) ≤ length (snd a))%nat)).
    + intros [k s] [k' s'] H. exact H.
    + apply Sorted_take. unfold significantKeywords_of, sort_int.
      eapply Sorted_weaken; [ | apply sort_by_sorted].
      * intros a b H. cbv beta in H. apply Z.ltb_ge in H. lia.
      * intros a b H. apply Z.ltb_lt in H. apply Z.ltb_ge. lia.
  - intros t Ht.
    destruct (TopicsFacts.discoverTopics_elem extractKeywords docs minArticles t Ht)
      as (e & He & _ & _ & _ & Harts & _).
    pose proof (TopicsFacts.keywordFrequency_ok extractKeywords docs) as [_ Hok].
    rewrite Forall_forall in Hok. destruct (Hok e He) as [Hnd Hsub].
    rewrite Harts. split; [exact Hnd | split; [exact Hsub | ]].
    destruct (discoverTopics_made docs minArticles t Ht) as ([k s] & ->).
    cbn [make_topic keywords name].
    destruct (relatedKeywords_ok (articleKeywords_of extractKeywords docs) k s) as [Hr Hk].
    split; [rewrite length_take; lia | ].
    split; [now apply NoDup_take | ].
    intros Hin. apply Hk. eapply subseteq_take. exact Hin.
Qed.

(** X15. [analyzeTopicTrends] returns one record per topic of the
    current period: the topic names of the records are the names of the
    current topics rearranged, so no topic is left out and none is
    reported twice. *)
Theorem analyzeTopicTrends_one_per_topic (currentArticles previousArticles : list Obj) :
  let trends := analyzeTopicTrends extractKeywords currentArticles previousArticles in
  map topic trends ≡ₚ map name (discover currentArticles minArticles_default)
  ∧ NoDup (map topic trends)
  ∧ (length trends ≤ 20)%nat.
Proof.
  intros trends.
  assert (Hperm : map topic trends ≡ₚ map name (discover currentArticles minArticles_default)).
  { subst trends. unfold analyzeTopicTrends, sort_number.
    rewrite (Permutation_map topic (sort_by_perm _ _)), map_map. reflexivity. }
  split; [exact Hperm | split].
  - rewrite Hperm. apply TopicsFacts.discoverTopics_names_NoDup.
  - apply Permutation_length in Hperm. rewrite !length_map in Hperm. rewrite Hperm.
    apply discoverTopics_length.
Qed.

(** X16. [getEmergingTopics] returns the topics of [discoverTopics]
    rearranged: same names, counts, articles and keywords, only trend and
    velocity are filled in; the result is in descending order of the
    absolute velocity. *)
Theorem getEmergingTopics_same_topics (docs : list Obj) :
  map topic_core (getEmergingTopics extractKeywords docs)
    ≡ₚ map topic_core (discover docs minArticles_default)
  ∧ Sorted
      (fun a b => PrimFloat.ltb (PrimFloat.abs (velocity a)) (PrimFloat.abs (velocity b)) = false)
      (getEmergingTopics extractKeywords docs).
Proof.
  unfold getEmergingTopics, sort_number. split.
  - rewrite (Permutation_map topic_core (sort_by_perm _ _)), map_map. reflexivity.
  - eapply Sorted_weaken; [ | apply sort_by_sorted].
    + intros a b Hcmp. cbv beta in Hcmp.
      destruct (PrimFloat.ltb (PrimFloat.abs (velocity a)) (PrimFloat.abs (velocity b))) eqn:Hlt;
        [ | reflexivity].
      apply NumberFacts.abs_difference_positive in Hlt. congruence.
    + intros a b. apply NumberFacts.abs_difference_asym.
Qed.

(** X17. [getTopicsByCategory] has one entry per category that occurs
    in the collection, in the order of first appearance, also for a
    category whose articles give no topic. *)
Theorem getTopicsByCategory_keys (docs : list Obj) :
  map fst (getTopicsByCategory extractKeywords docs)
  = uniq (map (fun a => category (fields a)) docs).
Proof.
  unfold getTopicsByCategory. rewrite <- group_by_category_keys.
  rewrite (fold_left_ext_fun _
             (fun M entry => map_set M (fst entry) (discover (snd entry) 2)))
    by (intros M [c arts]; reflexivity).
  rewrite fold_map_set_keys; [reflexivity | ].
  cbn [map app]. rewrite group_by_category_keys. apply NoDup_uniq.
Qed.

End ShapeFacts.

Lemma getTopicsByCategory_keys_witness :
  map fst (getTopicsByCategory sample_extractKeywords sample_mixed) = ["Tech"; "Sports"].
Proof. rewrite (getTopicsByCategory_keys sample_extractKeywords sample_mixed). reflexivity. Defined.

(** Two topics over the same four articles are related to each other,
    and a topic is not related to itself. *)
Example findRelatedTopics_sample :
  map (fun t0 => map name (findRelatedTopics t0 sample_topics)) sample_topics
  = [["beta"]; ["alpha"]].
Proof. vm_compute. reflexivity. Qed.

End TopicsShapeFacts.

(** ** The context lenses *)

Module ContextLensFacts.
Import JS JSArray ContextLens ContextLensSpec JSArrayFacts.

(** *** A stable sort keeps the order of elements it does not tell apart *)

Lemma insert_by_filter_in {A} (after : A → A → bool) (p : A → bool) (x : A) (l : list A) :
  p x = true → (∀ y, p y = true → after x y = false) →
  List.filter p (insert_by after x l) = x :: List.filter p l.
Proof.
  intros Hx Hafter. induction l as [|y l IH]; cbn [insert_by List.filter].
  - now rewrite Hx.
  - destruct (after x y) eqn:Hxy; cbn [List.filter].
    + destruct (p y) eqn:Hy; [rewrite (Hafter y Hy) in Hxy; discriminate | exact IH].
    + now rewrite Hx.
Qed.

Lemma insert_by_filter_out {A} (after : A → A → bool) (p : A → bool) (x : A) (l : list A) :
  p x = false → List.filter p (insert_by after x l) = List.filter p l.
Proof.
  intros Hx. induction l as [|y l IH]; cbn [insert_by List.filter].
  - now rewrite Hx.
  - destruct (after x y); cbn [List.filter]; [now rewrite IH | now rewrite Hx].
Qed.

Lemma sort_by_stable {A} (after : A → A → bool) (p : A → bool) (l : list A) :
  (∀ x y, p x = true → p y = true → after x y = false) →
  List.filter p (sort_by after l) = List.filter p l.
Proof.
  intros Hafter. induction l as [|x l IH]; [reflexivity | ].
  unfold sort_by in *. cbn [foldr List.filter]. destruct (p x) eqn:Hx.
  - rewrite insert_by_filter_in; [now rewrite IH | exact Hx | ].
    intros y Hy. now apply Hafter.
  - rewrite insert_by_filter_out; [exact IH | exact Hx].
Qed.

(** *** A sort on a two-valued score is a stable partition *)

Lemma insert_by_partition {A} (after : A → A → bool) (p : A → bool) (x : A) (P N : list A) :
  (∀ a b, after a b = negb (p a) && p b) →
  Forall (fun a => p a = true) P → Forall (fun a => p a = false) N →
  insert_by after x (P ++ N) = if p x then x :: P ++ N else P ++ x :: N.
Proof.
  intros Hafter HP HN. induction HP as [|y P Hy HP IH]; cbn [app].
  - destruct N as [|n N]; cbn [insert_by]; [now destruct (p x) | ].
    rewrite Hafter. inversion HN as [|? ? Hn _]; subst. rewrite Hn, andb_false_r.
    now destruct (p x).
  - cbn [insert_by]. rewrite Hafter, Hy, andb_true_r.
    destruct (p x) eqn:Hx; cbn [negb]; [reflexivity | ].
    rewrite IH. reflexivity.
Qed.

Lemma Forall_filter_true {A} (p : A → bool) (l : list A) :
  Forall (fun a => p a = true) (List.filter p l).
Proof.
  apply Forall_forall. intros a Ha. now apply elem_of_filter_bool in Ha as [_ Ha].
Qed.

Lemma sort_by_partition {A} (after : A → A → bool) (p : A → bool) (l : list A) :
  (∀ a b, after a b = negb (p a) && p b) →
  sort_by after l = List.filter p l ++ List.filter (fun a => negb (p a)) l.
Proof.
  intros Hafter. induction l as [|x l IH]; [reflexivity | ].
  unfold sort_by in *. cbn [foldr]. rewrite IH.
  rewrite (insert_by_partition after p x _ _ Hafter).
  - cbn [List.filter]. now destruct (p x).
  - apply Forall_filter_true.
  - eapply Forall_impl; [apply (Forall_filter_true (fun a => negb (p a))) | ].
    intros a Ha. now apply negb_true_iff.
Qed.

Lemma applyContextLens_perm (articles : list Article) (lens : Lens) :
  applyContextLens articles lens ≡ₚ articles.
Proof.
  destruct lens; cbn [applyContextLens]; [reflexivity | | | | ];
    unfold sort_int; apply sort_by_perm.
Qed.

Lemma enhanced_same_order (articles : list Article) (lens : Lens) :
  lens_articles (applyContextLensEnhanced articles lens) = applyContextLens articles lens.
Proof. destruct lens; reflexivity. Qed.

(** X19. A lens rearranges: the result of [applyContextLens] holds the
    articles of the input, each as often as the input does; the lens
    [none] changes nothing; and [applyContextLensEnhanced] returns the
    same order as [applyContextLens]. *)
Theorem applyContextLens_rearranges (articles : list Article) (lens : Lens) :
  applyContextLens articles lens ≡ₚ articles
  ∧ applyContextLens articles none = articles
  ∧ lens_articles (applyContextLensEnhanced articles lens) = applyContextLens articles lens.
Proof.
  split; [apply applyContextLens_perm | split; [reflexivity | apply enhanced_same_order]].
Qed.

(** X20. The student and analyst lenses are stable partitions: the
    articles of a preferred category come first, the others follow, and
    within each group the input order is kept. *)
Theorem category_lens_partitions (articles : list Article) :
  applyContextLens articles student
    = List.filter (is_preferred student) articles
      ++ List.filter (fun a => negb (is_preferred student a)) articles
  ∧ applyContextLens articles analyst
    = List.filter (is_preferred analyst) articles
      ++ List.filter (fun a => negb (is_preferred analyst a)) articles.
Proof.
  split; cbn [applyContextLens]; unfold sort_int; apply sort_by_partition;
    intros a b; unfold is_preferred; cbn [preferred];
    destruct (array_includes _ (category a)), (array_includes _ (category b)); reflexivity.
Qed.

(** X21. The beginner lens orders by content length, shortest first,
    the length being the number of UTF-16 code units that
    [content.length] reads, and keeps the input order among articles of
    the same length; the
    executive lens puts the preferred categories first and within each
    group the more recent article first. *)
Theorem lens_orders (articles : list Article) :
  Sorted (fun a b => (content_length a ≤ content_length b)%nat)
    (applyContextLens articles beginner)
  ∧ (∀ n, List.filter (fun a => (content_length a =? n)%nat) (applyContextLens articles beginner)
          = List.filter (fun a => (content_length a =? n)%nat) articles)
  ∧ Sorted executive_order (applyContextLens articles executive).
Proof.
  cbn [applyContextLens]. unfold sort_int. split; [ | split].
  - eapply Sorted_weaken; [ | apply sort_by_sorted].
    + intros a b H. cbv beta zeta in H. apply Z.ltb_ge in H. unfold content_length. lia.
    + intros a b H. cbv zeta in *. apply Z.ltb_lt in H. apply Z.ltb_ge. lia.
  - intros n. apply sort_by_stable. intros x y Hx Hy. cbv zeta.
    apply Nat.eqb_eq in Hx, Hy. unfold content_length in *. apply Z.ltb_ge. lia.
  - eapply Sorted_weaken; [ | apply sort_by_sorted].
    + intros a b H. cbv beta zeta in H. unfold executive_order, is_preferred.
      cbn [preferred].
      destruct (array_includes _ (category a)), (array_includes _ (category b));
        cbn -[getTime Z.sub Z.ltb] in H; apply Z.ltb_ge in H; split; intros;
        try congruence; lia.
    + intros a b H. cbv zeta in *.
      destruct (array_includes _ (category a)), (array_includes _ (category b));
        cbn -[getTime Z.sub Z.ltb] in *; apply Z.ltb_lt in H; apply Z.ltb_ge; lia.
Qed.

(** *** The change count *)

Lemma count_changes_ids (l l' : list Article) :
  count_changes l l' = mismatches (map id l) (map id l').
Proof.
  revert l'; induction l as [|a l IH]; intros [|s l']; cbn; auto.
Qed.

Lemma mismatches_le (xs ys : list Z) : (mismatches xs ys ≤ length xs)%nat.
Proof.
  revert ys; induction xs as [|x xs IH]; intros [|y ys]; cbn; try lia.
  specialize (IH ys). destruct (x =? y)%Z; cbn; lia.
Qed.

Lemma mismatches_zero (xs ys : list Z) :
  length xs = length ys → (mismatches xs ys = 0%nat ↔ xs = ys).
Proof.
  revert ys; induction xs as [|x xs IH]; intros [|y ys] Hlen; try discriminate Hlen.
  - split; reflexivity.
  - cbn [mismatches]. injection Hlen as Hlen. specialize (IH ys Hlen).
    destruct (x =? y)%Z eqn:Hxy; cbn [negb].
    + apply Z.eqb_eq in Hxy as ->. rewrite Nat.add_0_l, IH.
      split; [now intros -> | now injection 1].
    + apply Z.eqb_neq in Hxy. split; [discriminate | intros H; injection H; contradiction].
Qed.

Lemma mismatches_not_one (xs ys : list Z) : xs ≡ₚ ys → mismatches xs ys ≠ 1%nat.
Proof.
  revert ys; induction xs as [|x xs IH]; intros [|y ys] Hperm; cbn [mismatches];
    try discriminate.
  destruct (x =? y)%Z eqn:Hxy; cbn [negb].
  - apply Z.eqb_eq in Hxy as ->. apply Permutation_cons_inv in Hperm. now apply IH.
  - apply Z.eqb_neq in Hxy. intros H1.
    assert (H0 : mismatches xs ys = 0%nat) by lia.
    apply mismatches_zero in H0 as ->.
    + apply (Permutation_app_inv_r ys [x] [y]) in Hperm.
      apply Permutation_singleton_l in Hperm. congruence.
    + apply Permutation_length in Hperm. cbn in Hperm. lia.
Qed.

(** X22. The change count of [applyContextLensEnhanced] is the number
    of positions at which the article id changed: it is at most the
    number of articles, it is 0 exactly when the ids stand in the input
    order, and it is never 1, since a rearrangement cannot move a single
    article. *)
Theorem changeCount_never_one (articles : list Article) (lens : Lens) :
  let r := applyContextLensEnhanced articles lens in
  (changeCount r ≤ length articles)%nat
  ∧ (changeCount r = 0%nat ↔ map id (lens_articles r) = map id articles)
  ∧ changeCount r ≠ 1%nat.
Proof.
  intros r.
  pose proof (applyContextLens_perm articles lens) as Hperm.
  pose proof (enhanced_same_order articles lens) as Hsame.
  fold r in Hsame.
  assert (Hcount : changeCount r = mismatches (map id articles) (map id (lens_articles r))).
  { subst r. destruct lens; cbn [applyContextLensEnhanced changeCount lens_articles];
      [ | apply count_changes_ids ..].
    clear. induction articles as [|a l IH]; cbn; [reflexivity | ].
    now rewrite Z.eqb_refl, <- IH. }
  rewrite Hcount, Hsame.
  assert (Hids : map id articles ≡ₚ map id (applyContextLens articles lens))
    by (now rewrite Hperm).
  split; [ | split].
  - etrans; [apply mismatches_le | ]. now rewrite length_map.
  - rewrite mismatches_zero by (now apply Permutation_length). split; congruence.
  - now apply mismatches_not_one.
Qed.

(** The second content has ten code units (and twelve bytes), so that
    it ties with the fourth and stays before it. *)
Example lens_sample_orders :
  map content_length lens_sample = [31; 10; 11; 10]%nat
  ∧ map id (applyContextLens lens_sample beginner) = [2; 4; 3; 1]%Z
  ∧ map id (applyContextLens lens_sample student) = [3; 1; 2; 4]%Z
  ∧ map id (applyContextLens lens_sample executive) = [2; 4; 3; 1]%Z
  ∧ changeCount (applyContextLensEnhanced lens_sample student) = 3%nat.
Proof. vm_compute. auto. Qed.

End ContextLensFacts.

(** ** [smartDeepDive.ts] *)

Module SmartDeepDiveFacts.
Import JS JSString SmartDeepDive StringFacts.

Lemma substring_toLowerCase (n m : nat) (s : string) :
  toLowerCase (String.substring n m s) = String.substring n m (toLowerCase s).
Proof.
  revert n m; induction s as [|c s IH]; intros [|n] [|m]; cbn; try reflexivity;
    rewrite ?IH; reflexivity.
Qed.

Lemma substring_prefix (m : nat) (s : string) : ∃ r, s = String.substring 0 m s +:+ r.
Proof.
  revert s; induction m as [|m IH]; intros s.
  - exists s. destruct s; reflexivity.
  - destruct s as [|c s]; [exists ""; reflexivity | ].
    destruct (IH s) as [r Hr]. exists r. cbn [String.substring].
    rewrite app_cons. now rewrite <- Hr.
Qed.

Lemma includes_headline (s k : string) (m : nat) :
  includes (String.substring 0 m s) k = true → includes s k = true.
Proof.
  intros H. destruct (substring_prefix m s) as [r Hr]. rewrite Hr.
  apply (includes_app "" _ r) in H. exact H.
Qed.

(** The headline is the start of the content, so its test adds nothing. *)
Lemma headline_test_redundant (kws : list string) (text : string) :
  some (fun keyword =>
          includes (toLowerCase text) keyword
          || includes (toLowerCase (String.substring 0 200 (toLowerCase text))) keyword) kws
  = mentions kws (toLowerCase text).
Proof.
  unfold mentions, some. induction kws as [|k kws IH]; [reflexivity | ].
  cbn [existsb]. rewrite IH. f_equal.
  rewrite substring_toLowerCase, toLowerCase_idem.
  destruct (includes (toLowerCase text) k) eqn:Hc; [reflexivity | ].
  destruct (includes (String.substring 0 200 (toLowerCase text)) k) eqn:Hh; [ | reflexivity].
  apply includes_headline in Hh. congruence.
Qed.

Lemma mentions_elem (kws : list string) (text k : string) :
  k ∈ kws → includes text k = true → mentions kws text = true.
Proof.
  intros Hk Hinc. apply existsb_exists. exists k.
  split; [apply list_elem_of_In; exact Hk | exact Hinc].
Qed.

Lemma assign_is_cascade (article : Article) :
  assignSmartDeepDive article = Some (cascade article).
Proof.
  unfold assignSmartDeepDive, cascade. cbv zeta.
  rewrite !headline_test_redundant.
  set (text := toLowerCase (content article)).
  set (cat := toLowerCase (category article)).
  set (headline := toLowerCase (String.substring 0 200 text)).
  destruct (mentions biasKeywords text || (includes cat "politic" || includes cat "world"))
    eqn:H1; [reflexivity | ].
  apply orb_false_elim in H1 as [_ Hpol]. rewrite Hpol.
  assert (Hhead : includes headline "timeline" = true →
                  mentions timelineKeywords text = true).
  { intros Hh. apply (mentions_elem _ _ "timeline").
    - apply elem_of_cons. now left.
    - subst headline text. rewrite substring_toLowerCase, toLowerCase_idem in Hh.
      now apply includes_headline in Hh. }
  destruct (mentions timelineKeywords text) eqn:H2; [reflexivity | ].
  destruct (includes headline "timeline") eqn:Hh; [now discriminate Hhead | ].
  rewrite orb_false_r. cbn [orb].
  destruct (includes cat "crime"); [reflexivity | ].
  destruct (mentions knowledgeKeywords text
            || (includes cat "tech" || includes cat "business" || includes cat "science"))
    eqn:H3; [reflexivity | ].
  apply orb_false_elim in H3 as [_ Htech]. rewrite Htech.
  apply orb_false_elim in Htech as [_ Hsci]. rewrite Hsci. cbn [orb].
  destruct (mentions visionKeywords text
            || (includes cat "health" || includes cat "environment"
                || includes cat "wellness")) eqn:H4; [reflexivity | ].
  apply orb_false_elim in H4 as [_ ->].
  destruct (includes cat "sport" || includes cat "entertainment"); [reflexivity | ].
  now destruct (300 <? String.length text)%nat.
Qed.

(** X23. [assignSmartDeepDive] always assigns a format, never [null],
    and the format is the one of a cascade on the lower-cased content and
    category: bias words or a political category, then timeline words or
    a crime category, then knowledge words or a technology, business or
    science category, then vision words or a health category, then the
    sports and entertainment categories, and Deep Vision otherwise.  The
    tests on the headline, the late category fallbacks and the length of
    the content never change the result. *)
Theorem assignSmartDeepDive_cascade (article : Article) :
  assignSmartDeepDive article = Some (cascade article)
  ∧ getDeepDiveReason (assignSmartDeepDive article) ≠ "No deep dive available".
Proof.
  split; [apply assign_is_cascade | ].
  rewrite assign_is_cascade. now destruct (cascade article).
Qed.
(** X24. The knowledge word [ai] is matched inside words: an article
    whose text holds the letters [ai] anywhere, as in [said], is assigned
    Bias Radar, Event Timeline or Knowledge Map, never Deep Vision, and a
    sports article with such a text gets Event Timeline only through a
    timeline word. *)
Theorem ai_inside_words (article : Article) :
  includes (toLowerCase (content article)) "ai" = true →
  assignSmartDeepDive article ≠ Some DeepVision
  ∧ (assignSmartDeepDive article = Some EventTimeline →
     mentions timelineKeywords (toLowerCase (content article)) = true
     ∨ includes (toLowerCase (category article)) "crime" = true).
Proof.
  intros Hai. rewrite (assign_is_cascade article).
  assert (Hk : mentions knowledgeKeywords (toLowerCase (content article)) = true).
  { apply (mentions_elem _ _ "ai"); [ | exact Hai].
    unfold knowledgeKeywords. rewrite !elem_of_cons. tauto. }
  unfold cascade. cbv zeta. rewrite Hk. cbn [orb].
  destruct (mentions biasKeywords _ || _); [split; [discriminate | discriminate] | ].
  destruct (mentions timelineKeywords _) eqn:Ht; cbn [orb].
  - split; [discriminate | auto].
  - destruct (includes _ "crime") eqn:Hc; split; try discriminate; auto.
Qed.

Lemma ai_inside_words_witness :
  assignSmartDeepDive said_article ≠ Some DeepVision
  ∧ assignSmartDeepDive said_article = Some KnowledgeMap.
Proof.
  split.
  - apply (proj1 (ai_inside_words said_article ltac:(reflexivity))).
  - reflexivity.
Defined.

End SmartDeepDiveFacts.

(** ** [aiService.ts]: the keyword classifier *)

Module ClassifierFacts.
Import JS JSArray Classifier JSArrayFacts.

Lemma score_of_from (t : string) (kws : list string) (n : nat) :
  fold_left (fun score keyword => if includes t keyword then (score + 1)%nat else score) kws n
  = (n + length (List.filter (includes t) kws))%nat.
Proof.
  revert n; induction kws as [|k kws IH]; intros n; cbn [fold_left List.filter length];
    [lia | ].
  rewrite IH. destruct (includes t k); cbn [length]; lia.
Qed.

Lemma score_of_count (t : string) (kws : list string) :
  score_of t kws = length (List.filter (includes t) kws).
Proof. unfold score_of. now rewrite score_of_from. Qed.

Lemma score_of_le (t : string) (kws : list string) : (score_of t kws ≤ length kws)%nat.
Proof. rewrite score_of_count. apply filter_length_le. Qed.


Lemma list_sum_cons (x : nat) (l : list nat) : list_sum (x :: l) = (x + list_sum l)%nat.
Proof. reflexivity. Qed.

Lemma total_from {A} (f : A → nat) (l : list A) (n : nat) :
  fold_left (fun sum entry => (sum + f entry)%nat) l n = (n + list_sum (map f l))%nat.
Proof.
  revert n; induction l as [|e l IH]; intros n; cbn [fold_left map].
  - change (list_sum []) with 0%nat. lia.
  - rewrite IH, list_sum_cons. lia.
Qed.

Lemma elem_le_list_sum (l : list nat) (x : nat) : x ∈ l → (x ≤ list_sum l)%nat.
Proof.
  induction l as [|y l IH]; intros H; [inversion H | ].
  rewrite list_sum_cons.
  apply elem_of_cons in H as [-> | H]; [lia | ]. specialize (IH H). lia.
Qed.

Lemma list_sum_filter_le {A} (f : A → nat) (p : A → bool) (l : list A) :
  (list_sum (map f (List.filter p l)) ≤ list_sum (map f l))%nat.
Proof.
  induction l as [|x l IH]; cbn [List.filter map]; [lia | ].
  destruct (p x); cbn [map]; rewrite ?list_sum_cons; lia.
Qed.

Lemma list_sum_perm (l l' : list nat) : l ≡ₚ l' → list_sum l = list_sum l'.
Proof. induction 1; rewrite ?list_sum_cons; lia. Qed.

Lemma StronglySorted_filter {A} (R : A → A → Prop) (p : A → bool) (l : list A) :
  StronglySorted R l → StronglySorted R (List.filter p l).
Proof.
  induction 1 as [|x l Hs IH Hx]; cbn [List.filter]; [constructor | ].
  destruct (p x); [ | exact IH]. constructor; [exact IH | ].
  rewrite List.Forall_forall in *. intros y Hy. apply filter_In in Hy as [Hy _]. auto.
Qed.

Lemma sorted_scores_elem (text : string) (e : string * nat) :
  e ∈ sorted_scores text ↔
  (0 < snd e)%nat ∧ ∃ kws, (fst e, kws) ∈ keywords ∧ snd e = score_of (toLowerCase text) kws.
Proof.
  unfold sorted_scores, sort_int, scores_of.
  rewrite elem_of_filter_bool, elem_of_sort_by, list_elem_of_fmap, Nat.ltb_lt. split.
  - intros [([c kws] & -> & Hin) Hpos]. split; [exact Hpos | ]. exists kws. auto.
  - intros [Hpos (kws & Hin & Hs)]. split; [ | exact Hpos].
    exists (fst e, kws). split; [ | exact Hin]. destruct e. cbn [fst snd] in *. now rewrite Hs.
Qed.

Lemma sorted_scores_strongly (text : string) :
  StronglySorted (fun a b : string * nat => (snd b ≤ snd a)%nat) (sorted_scores text).
Proof.
  unfold sorted_scores. apply StronglySorted_filter.
  apply Sorted_StronglySorted.
  - intros a b c Hab Hbc. lia.
  - unfold sort_int. eapply Sorted_weaken; [ | apply sort_by_sorted].
    + intros a b H. cbv beta in H. apply Z.ltb_ge in H. lia.
    + intros a b H. apply Z.ltb_lt in H. apply Z.ltb_ge. lia.
Qed.

Lemma keywords_keys_NoDup : NoDup (map fst keywords).
Proof. apply (bool_decide_unpack _). vm_compute. exact I. Qed.

Lemma sorted_scores_keys_NoDup (text : string) : NoDup (map fst (sorted_scores text)).
Proof.
  unfold sorted_scores. apply TopicsFacts.NoDup_map_fst_filter.
  unfold sort_int. rewrite (Permutation_map fst (sort_by_perm _ _)).
  unfold scores_of. rewrite map_map. cbn [fst]. apply keywords_keys_NoDup.
Qed.

Lemma sorted_scores_bounds (text : string) (e : string * nat) :
  e ∈ sorted_scores text →
  (1 ≤ snd e ≤ 10)%nat
  ∧ (snd e ≤ list_sum (map snd (sorted_scores text)) ≤ 87)%nat.
Proof.
  intros He. pose proof He as He'. apply sorted_scores_elem in He' as [Hpos (kws & Hin & Hs)].
  split; [split; [lia | ] | split].
  - rewrite Hs. etrans; [apply score_of_le | ].
    assert (Hall : Forall (fun entry : string * list string => (length (snd entry) ≤ 10)%nat)
                     keywords) by (repeat constructor).
    rewrite Forall_forall in Hall. apply (Hall _ Hin).
  - apply elem_le_list_sum. apply list_elem_of_fmap. eauto.
  - unfold sorted_scores. etrans; [apply list_sum_filter_le | ].
    unfold sort_int. rewrite (list_sum_perm _ _ (Permutation_map snd (sort_by_perm _ _))).
    unfold scores_of. rewrite map_map. cbn [snd].
    assert (Hsum : ∀ l : list (string * list string),
              (list_sum (map (fun x => score_of (toLowerCase text) (snd x)) l)
               ≤ list_sum (map (fun x => length (snd x)) l))%nat).
    { induction l as [|x l IH]; cbn [map]; [lia | ]. rewrite !list_sum_cons.
      pose proof (score_of_le (toLowerCase text) (snd x)). lia. }
    etrans; [apply Hsum | ]. vm_compute. lia.
Qed.

Lemma confidence_table_ok : confidence_table = true.
Proof. vm_compute. reflexivity. Qed.

Lemma capped_range (s n d : nat) :
  (1 ≤ s)%nat → (s ≤ n)%nat → (n ≤ 10)%nat → (1 ≤ d ≤ 87)%nat →
  PrimFloat.ltb 0 (capped s d) = true
  ∧ PrimFloat.leb (capped s d) (capped n d) = true
  ∧ PrimFloat.leb (capped n d) 0.85 = true.
Proof.
  intros Hs Hsn Hn Hd.
  pose proof confidence_table_ok as H. unfold confidence_table in H.
  rewrite forallb_forall in H. specialize (H (n - s)%nat ltac:(apply in_seq; lia)).
  rewrite forallb_forall in H. specialize (H (s - 1)%nat ltac:(apply in_seq; lia)).
  rewrite forallb_forall in H. specialize (H (d - 1)%nat ltac:(apply in_seq; lia)).
  replace (S (s - 1)) with s in H by lia.
  replace (S (d - 1)) with d in H by lia.
  replace (s + (n - s))%nat with n in H by lia.
  apply andb_prop in H as [H H3]. apply andb_prop in H as [H1 H2]. auto.
Qed.

Lemma classification_unfold (text : string) :
  keywordBasedClassification text
  = match sorted_scores text with
    | [] => {| result_category := "World News"; result_confidence := 0.3%float;
               alternativeCategories := [] |}
    | (topCategory, topScore) :: rest =>
        let totalScore := list_sum (map snd (sorted_scores text)) in
        {| result_category := topCategory;
           result_confidence := capped topScore totalScore;
           alternativeCategories :=
             map (fun entry => {| alt_category := fst entry;
                                  alt_confidence := capped (snd entry) totalScore |})
               (take 3 rest) |}
    end.
Proof.
  unfold keywordBasedClassification. fold (sorted_scores text).
  destruct (sorted_scores text) as [|[c s] rest] eqn:E; [reflexivity | ].
  cbv zeta. rewrite (total_from snd). cbn [drop Nat.add]. reflexivity.
Qed.

(** X25. The result of [keywordBasedClassification]: the category is
    one of the ten of the table; there are at most three alternatives,
    all of them table categories, different from the reported category
    and from each other; the confidence is above 0 and at most 0.85, and
    no alternative has a higher confidence than the reported
    category. *)
Theorem classification_shape (text : string) :
  let r := keywordBasedClassification text in
  result_category r ∈ map fst keywords
  ∧ (length (alternativeCategories r) ≤ 3)%nat
  ∧ NoDup (result_category r :: map alt_category (alternativeCategories r))
  ∧ PrimFloat.ltb 0 (result_confidence r) = true
  ∧ PrimFloat.leb (result_confidence r) 0.85 = true
  ∧ ∀ alt, alt ∈ alternativeCategories r →
      alt_category alt ∈ map fst keywords
      ∧ PrimFloat.ltb 0 (alt_confidence alt) = true
      ∧ PrimFloat.leb (alt_confidence alt) (result_confidence r) = true.
Proof.
  intros r. subst r. rewrite classification_unfold.
  pose proof (sorted_scores_keys_NoDup text) as Hnd.
  pose proof (sorted_scores_strongly text) as Hss.
  pose proof (sorted_scores_bounds text) as Hb.
  pose proof (sorted_scores_elem text) as Helem.
  destruct (sorted_scores text) as [|[c s] rest] eqn:E.
  - cbn [result_category result_confidence alternativeCategories].
    split; [apply (bool_decide_unpack _); vm_compute; exact I | ].
    split; [simpl; lia | ]. split; [repeat constructor; intros H; inversion H | ].
    split; [reflexivity | split; [reflexivity | intros alt H; inversion H]].
  - cbv zeta. cbn [result_category result_confidence alternativeCategories].
    set (total := list_sum (map snd ((c, s) :: rest))) in *.
    assert (Hin0 : (c, s) ∈ (c, s) :: rest) by (apply elem_of_cons; now left).
    destruct (Hb _ Hin0) as [[Hs1 Hs10] [_ Ht87]]. cbn [snd] in *.
    assert (Ht1 : (1 ≤ total)%nat).
    { unfold total. cbn [map snd]. rewrite list_sum_cons. lia. }
    assert (Hkey : ∀ e, e ∈ (c, s) :: rest → fst e ∈ map fst keywords).
    { intros e He. apply Helem in He as [_ (kws & Hin & _)].
      apply list_elem_of_fmap. exists (fst e, kws). auto. }
    split; [apply (Hkey _ Hin0) | ].
    split; [rewrite length_map, length_take; lia | ].
    split.
    { cbn [map fst] in Hnd. rewrite map_map. cbn [alt_category].
      eapply sublist_NoDup; [exact Hnd | ].
      apply sublist_skip. apply TopicsShapeFacts.take_sublist_map. }
    destruct (capped_range s s total Hs1 ltac:(lia) Hs10 ltac:(lia)) as (Hpos & _ & Hcap).
    split; [exact Hpos | split; [exact Hcap | ]].
    intros alt Halt. apply list_elem_of_fmap in Halt as (e & -> & He).
    apply subseteq_take in He. cbn [alt_category alt_confidence].
    assert (Hin : e ∈ (c, s) :: rest) by (apply elem_of_cons; now right).
    split; [apply (Hkey _ Hin) | ].
    destruct (Hb _ Hin) as [[He1 _] _].
    assert (Hle : (snd e ≤ s)%nat).
    { inversion Hss as [|? ? _ Hall]; subst. rewrite List.Forall_forall in Hall.
      apply (Hall e). now apply list_elem_of_In. }
    destruct (capped_range (snd e) s total He1 Hle Hs10 ltac:(lia)) as (H1 & H2 & _).
    auto.
Qed.




End ClassifierFacts.

(** ** [articles.ts] and [apiKeyManager.ts] *)

Module ArticlesFacts.
Import JS JSString QueryParser QueryFilters QueryFiltersSpec Articles StringFacts.

(** X27. The sentiment labels of [articles.ts] and the sentiment
    filters of the query parser agree on every compound score that is a
    number: an article passes the filter of a sentiment exactly when
    [getSentimentLabel] gives the label of that sentiment. *)
Theorem sentiment_label_matches_filter (a : ScoredArticle) (s : Sentiment) :
  PrimFloat.is_nan (compound a) = false →
  (sentiment_test s a = true ↔ getSentimentLabel (compound a) = label_of s).
Proof.
  intros Hnum. unfold sentiment_test, getSentimentLabel.
  destruct (SentimentFacts.sentiment_classes (compound a)) as (H1 & H2 & H3 & H4).
  specialize (H4 Hnum). cbv zeta in *.
  destruct (PrimFloat.ltb 0.05 (compound a)), (PrimFloat.ltb (compound a) (-0.05)),
    (PrimFloat.leb (PrimFloat.abs (compound a)) 0.05); try discriminate;
    destruct s; cbn [label_of]; split; intros H; try reflexivity; discriminate H.
Qed.

(** A score that is not a number is labelled neutral, and no filter
    keeps it. *)
Lemma nan_label_neutral (a : ScoredArticle) :
  PrimFloat.is_nan (compound a) = true →
  getSentimentLabel (compound a) = "Neutral" ∧ sentiment_test neutral a = false.
Proof.
  intros Hnan. split; [ | now apply QueryFiltersFacts.nan_passes_no_sentiment].
  pose proof (QueryFiltersFacts.nan_passes_no_sentiment a positive Hnan) as Hp.
  pose proof (QueryFiltersFacts.nan_passes_no_sentiment a negative Hnan) as Hn.
  unfold sentiment_test in Hp, Hn. unfold getSentimentLabel. now rewrite Hp, Hn.
Qed.

Lemma sentiment_label_matches_filter_witness :
  sentiment_test negative (scored 2 (-0.4)) = true
  ↔ getSentimentLabel (compound (scored 2 (-0.4))) = label_of negative.
Proof. apply sentiment_label_matches_filter. reflexivity. Defined.

(** *** Splitting at a separator and joining again *)

Lemma join_cons (sep x : string) (l : list string) :
  l ≠ [] → join sep (x :: l) = x +:+ sep +:+ join sep l.
Proof. destruct l; [congruence | reflexivity]. Qed.

Lemma split_at_nonempty (sep s cur : string) (k : nat) : split_at sep s cur k ≠ [].
Proof.
  revert cur k; induction s as [|c s IH]; intros cur k; cbn [split_at]; [discriminate | ].
  destruct k; [ | apply IH]. destruct (String.prefix sep (String c s)); [discriminate | apply IH].
Qed.

Lemma string_drop_app (t r : string) : string_drop (String.length t) (t +:+ r) = r.
Proof. induction t as [|c t IH]; [now destruct r | exact IH]. Qed.

Lemma split_at_join (c0 : ascii) (sep' s cur : string) (k : nat) :
  join (String c0 sep') (split_at (String c0 sep') s cur k) = cur +:+ string_drop k s.
Proof.
  set (sep := String c0 sep').
  revert cur k; induction s as [|c s IH]; intros cur k.
  - cbn [split_at]. unfold join. cbn [String.concat].
    destruct k; cbn [string_drop]; now rewrite append_nil_r.
  - cbn [split_at]. destruct k as [|k]; [ | apply IH].
    destruct (String.prefix sep (String c s)) eqn:Hp.
    + rewrite join_cons by apply split_at_nonempty. rewrite IH, app_nil_l.
      apply prefix_spec in Hp as [r Hr]. unfold sep in Hr. rewrite app_cons in Hr.
      injection Hr as -> ->.
      replace (String.length sep - 1)%nat with (String.length sep')
        by (unfold sep; cbn [String.length]; lia).
      rewrite string_drop_app. cbn [string_drop]. unfold sep. now rewrite app_cons.
    + rewrite IH. cbn [string_drop]. now rewrite append_assoc', app_cons, app_nil_l.
Qed.

Lemma split_at_absent (sep s cur : string) :
  includes s sep = false → split_at sep s cur 0 = [cur +:+ s].
Proof.
  revert cur; induction s as [|c s IH]; intros cur H.
  - cbn [split_at]. now rewrite append_nil_r.
  - cbn [includes] in H. cbn [split_at].
    destruct (String.prefix sep (String c s)); [discriminate H | ].
    rewrite (IH _ H). now rewrite append_assoc', app_cons, app_nil_l.
Qed.

(** X28. Splitting a text at [". "] and joining the sentences with
    [". "] gives the text back.  [getHeadline] always returns a string,
    with which the content starts; a content without [". "] is its own
    headline and has an empty summary. *)
Theorem headline_round_trip (content : string) :
  join ". " (split ". " content) = content
  ∧ (∃ headline rest, getHeadline content = Some headline ∧ content = headline +:+ rest)
  ∧ (includes content ". " = false →
     getHeadline content = Some content ∧ getSummary content = "").
Proof.
  assert (Hjoin : join ". " (split ". " content) = content).
  { unfold split. rewrite (split_at_join "." " " content "" 0). reflexivity. }
  split; [exact Hjoin | split].
  - unfold getHeadline. cbv zeta.
    pose proof (split_at_nonempty ". " content "" 0) as Hne. fold (split ". " content) in Hne.
    destruct (split ". " content) as [|h l] eqn:E; [congruence | ].
    exists h. destruct l as [|x l].
    + exists "". cbn in Hjoin. rewrite append_nil_r. auto.
    + exists (". " +:+ join ". " (x :: l)).
      rewrite join_cons in Hjoin by discriminate. auto.
  - intros Habs. unfold getHeadline, getSummary, split.
    rewrite (split_at_absent ". " content "" Habs). rewrite app_nil_l. auto.
Qed.

Lemma headline_round_trip_witness :
  getHeadline "Rates rise again" = Some "Rates rise again"
  ∧ getSummary "Rates rise again" = "".
Proof.
  apply (proj2 (proj2 (headline_round_trip "Rates rise again"))). reflexivity.
Defined.

Example headline_sample :
  getHeadline "Rates rise. Markets fall. Banks wait. More soon" = Some "Rates rise"
  ∧ getSummary "Rates rise. Markets fall. Banks wait. More soon" = "Markets fall. Banks wait".
Proof. vm_compute. auto. Qed.

End ArticlesFacts.

Module ApiKeysFacts.
Import ApiKeys.

Lemma names_differ : NEWSAPI_KEY ≠ HF_API_KEY.
Proof. discriminate. Qed.

Lemma or_empty_lookup_insert (ls : Storage) (name v : string) :
  or_empty (<[name := v]> ls !! name) = v.
Proof. now rewrite lookup_insert_eq. Qed.

(** X29. Saving and loading the API keys: [loadAPIKeys] after
    [saveAPIKeys] returns, for each key, the saved one, or the one that
    was stored before when the saved one is empty, so two non-empty keys
    come back unchanged and an empty key never erases a stored one;
    [saveAPIKeys] writes no other name of the storage. *)
Theorem save_load_round_trip (keys : APIKeys) (localStorage : Storage) :
  let stored := loadAPIKeys localStorage in
  loadAPIKeys (saveAPIKeys keys localStorage)
    = {| newsApiKey := kept (newsApiKey keys) (newsApiKey stored);
         huggingFaceKey := kept (huggingFaceKey keys) (huggingFaceKey stored) |}
  ∧ (truthy (newsApiKey keys) = true → truthy (huggingFaceKey keys) = true →
     loadAPIKeys (saveAPIKeys keys localStorage) = keys)
  ∧ (∀ name, name ≠ NEWSAPI_KEY → name ≠ HF_API_KEY →
     saveAPIKeys keys localStorage !! name = localStorage !! name).
Proof.
  intros stored. subst stored.
  assert (Hload : loadAPIKeys (saveAPIKeys keys localStorage)
    = {| newsApiKey := kept (newsApiKey keys) (newsApiKey (loadAPIKeys localStorage));
         huggingFaceKey :=
           kept (huggingFaceKey keys) (huggingFaceKey (loadAPIKeys localStorage)) |}).
  { unfold loadAPIKeys, saveAPIKeys, kept. cbn [newsApiKey huggingFaceKey].
    destruct (truthy (newsApiKey keys)), (truthy (huggingFaceKey keys));
      rewrite ?lookup_insert_eq, ?(lookup_insert_ne _ HF_API_KEY NEWSAPI_KEY),
        ?(lookup_insert_ne _ NEWSAPI_KEY HF_API_KEY), ?lookup_insert_eq
        by discriminate; reflexivity. }
  split; [exact Hload | split].
  - intros Hn Hh. rewrite Hload. unfold kept. rewrite Hn, Hh. now destruct keys.
  - intros name Hn Hh. unfold saveAPIKeys.
    destruct (truthy (newsApiKey keys)), (truthy (huggingFaceKey keys));
      rewrite ?lookup_insert_ne by congruence; reflexivity.
Qed.

Lemma save_load_round_trip_witness :
  loadAPIKeys (saveAPIKeys sample_keys ∅) = sample_keys.
Proof.
  apply (proj1 (proj2 (save_load_round_trip sample_keys ∅))); reflexivity.
Defined.

Section EnvironmentFacts.
Variable VITE_NEWSAPI_KEY : option string.

(** X30. The NewsAPI key in use: [hasNewsAPIKey] holds exactly when
    [getNewsAPIKey] is not empty; a non-empty environment key wins over
    the stored one; and when the environment gives none, the key is
    absent after [clearAPIKeys] and is the saved one after [saveAPIKeys]
    with a non-empty key. *)
Theorem news_key_in_use (keys : APIKeys) (localStorage : Storage) :
  hasNewsAPIKey VITE_NEWSAPI_KEY localStorage
    = truthy (getNewsAPIKey VITE_NEWSAPI_KEY localStorage)
  ∧ (truthy (or_empty VITE_NEWSAPI_KEY) = true →
     getNewsAPIKey VITE_NEWSAPI_KEY localStorage = or_empty VITE_NEWSAPI_KEY)
  ∧ (truthy (or_empty VITE_NEWSAPI_KEY) = false →
     hasNewsAPIKey VITE_NEWSAPI_KEY (clearAPIKeys localStorage) = false
     ∧ (truthy (newsApiKey keys) = true →
        getNewsAPIKey VITE_NEWSAPI_KEY (saveAPIKeys keys localStorage) = newsApiKey keys)).
Proof.
  unfold hasNewsAPIKey, getNewsAPIKey. split; [ | split].
  - destruct (truthy (or_empty VITE_NEWSAPI_KEY)) eqn:He; cbn [orb]; [now rewrite He | ].
    destruct (truthy (or_empty (localStorage !! NEWSAPI_KEY))) eqn:Hs; [now rewrite Hs | ].
    reflexivity.
  - intros ->. reflexivity.
  - intros ->. cbn [orb]. split.
    + unfold clearAPIKeys.
      rewrite (lookup_delete_ne _ HF_API_KEY NEWSAPI_KEY) by discriminate.
      now rewrite lookup_delete_eq.
    + intros Hk. unfold saveAPIKeys. rewrite Hk.
      destruct (truthy (huggingFaceKey keys));
        rewrite ?(lookup_insert_ne _ HF_API_KEY NEWSAPI_KEY) by discriminate;
        rewrite lookup_insert_eq; cbn [or_empty]; now rewrite Hk.
Qed.

End EnvironmentFacts.

Lemma news_key_in_use_witness :
  hasNewsAPIKey None (clearAPIKeys (saveAPIKeys sample_keys ∅)) = false
  ∧ getNewsAPIKey None (saveAPIKeys sample_keys ∅) = newsApiKey sample_keys.
Proof.
  destruct (news_key_in_use None sample_keys (saveAPIKeys sample_keys ∅)) as (_ & _ & H).
  destruct (H eq_refl) as [Hclear _].
  destruct (news_key_in_use None sample_keys ∅) as (_ & _ & H').
  destruct (H' eq_refl) as [_ Hsave].
  split; [exact Hclear | apply Hsave; reflexivity].
Defined.

End ApiKeysFacts.
